(** * objfs: a shallow embedding of the object-backed log-structured
      file system of [objfs.cc]

    The development follows the second (current) translation unit of
    [objfs.cc]: the extent map, the replay routines ([read_log_*],
    [read_hdr]), the staging buffers and the POSIX entry points.

    Conventions.
    - [uint32_t] values are integers in [0, 2^32); every assignment to a
      [uint32_t] lvalue is written with [u32] (reduction modulo 2^32).
    - [int64_t], [off_t] and [size_t] arithmetic is exact integer
      arithmetic on [Z]; [size_t] subtraction is written with [usize].
    - [std::map<int64_t,extent>] is a list of entries kept in increasing
      key order; iterators are the entry they stand on, [None] is [end()].
    - [std::unordered_map<uint32_t,fs_obj*>] and
      [std::map<std::string,uint32_t>] are finite maps; a pointer to an
      inode is identified with the key under which the table owns it. *)

From Stdlib Require Import ZArith List Ascii String Lia Bool Sorted.
From stdpp Require Import gmap strings.
Import ListNotations.

Local Open Scope Z_scope.

(** ** Machine integers *)

Definition u32 (z : Z) : Z := z mod 2 ^ 32.
Definition i32 (z : Z) : Z := (z + 2 ^ 31) mod 2 ^ 32 - 2 ^ 31.
Definition usize (z : Z) : Z := z mod 2 ^ 64.

(** ** The extent map *)

Module Extmap.

(** [struct extent]. *)
Record extent : Type := mk_extent {
  objnum : Z;      (* uint32_t *)
  offset : Z;      (* uint32_t, within object (bytes) *)
  len : Z          (* uint32_t (bytes) *)
}.

Definition entry : Type := (Z * extent)%type.

(** [internal_map], entries in increasing key order. *)
Definition internal_map : Type := list entry.

(** An iterator: the entry it stands on, or [None] for [end()]. *)
Definition iter : Type := option entry.

Definition with_len (e : extent) (l : Z) : extent :=
  mk_extent (objnum e) (offset e) l.

Definition with_offset (e : extent) (o : Z) : extent :=
  mk_extent (objnum e) o (len e).

(** [the_map[k] = v]. *)
Fixpoint map_set (k : Z) (v : extent) (m : internal_map) : internal_map :=
  match m with
  | [] => [(k, v)]
  | (k', v') :: r =>
      if k <? k' then (k, v) :: m
      else if k =? k' then (k, v) :: r
      else (k', v') :: map_set k v r
  end.

(** [the_map.erase(k)]. *)
Fixpoint map_erase (k : Z) (m : internal_map) : internal_map :=
  match m with
  | [] => []
  | (k', v') :: r =>
      if k =? k' then r else (k', v') :: map_erase k r
  end.

(** [the_map.lower_bound(k)]: the first entry whose key is not below [k]. *)
Fixpoint lower_bound (k : Z) (m : internal_map) : iter :=
  match m with
  | [] => None
  | (k', v') :: r => if k <=? k' then Some (k', v') else lower_bound k r
  end.

(** The entries an iterator obtained from [lower_bound k] still has in
    front of it (itself included). *)
Fixpoint from_lower_bound (k : Z) (m : internal_map) : list entry :=
  match m with
  | [] => []
  | (k', v') :: r => if k <=? k' then m else from_lower_bound k r
  end.

(** [--the_map.end()]. *)
Definition back (m : internal_map) : iter := last m.

(** The entry in front of the position of key [k]: what [it--] reaches
    from an iterator standing on key [k]. *)
Fixpoint before (k : Z) (m : internal_map) : iter :=
  match m with
  | [] => None
  | (k', v') :: r =>
      if k' <? k then
        match before k r with
        | Some x => Some x
        | None => Some (k', v')
        end
      else None
  end.

(** [it--]. *)
Definition it_prev (m : internal_map) (it : iter) : iter :=
  match it with
  | Some (k, _) => before k m
  | None => back m
  end.

(** [it == the_map.begin()]. *)
Definition is_begin (m : internal_map) (it : iter) : bool :=
  match it, m with
  | None, [] => true
  | Some (k, _), (k', _) :: _ => k =? k'
  | _, _ => false
  end.

(** [extmap::lookup]. *)
Definition lookup (off : Z) (m : internal_map) : iter :=
  let it := lower_bound off m in
  match it with
  | None => None
  | Some (base, e) =>
      if (base >? off) && negb (is_begin m it) then
        match it_prev m it with
        | Some (base0, e0) =>
            if off <? base0 + len e0 then Some (base0, e0)
            else Some (base, e)
        | None => Some (base, e)
        end
      else Some (base, e)
  end.

(** The tail-append test of [extmap::update]: [(key, val)] is the last
    entry of the map. *)
Definition extends_last (key : Z) (val : extent) (off : Z) (e : extent) : bool :=
  (off =? key + len val) && (offset e =? u32 (offset val + len val)).

(** The [while] loop of [extmap::update] that erases fully overlapped
    entries; [ahead] are the entries from the iterator on.  Returns the
    iterator on which the loop stops. *)
Fixpoint erase_covered (ahead : list entry) (off : Z) (e : extent)
    (m : internal_map) : iter * internal_map :=
  match ahead with
  | [] => (None, m)
  | (key, val) :: rest =>
      if (key >=? off) && (key + len val <=? off + len e)
      then erase_covered rest off e (map_erase key m)
      else (Some (key, val), m)
  end.

(** Right-hand overlap. *)
Definition trim_right (it : iter) (off : Z) (e : extent)
    (m : internal_map) : internal_map :=
  match it with
  | Some (key, val) =>
      if key <? off + len e then
        let new_key := off + len e in
        let val1 := with_len val (u32 (len val - (new_key - key))) in
        let val2 := with_offset val1 (u32 (offset val1 + (new_key - key))) in
        map_set new_key val2 (map_erase key m)
      else m
  | None => m
  end.

(** Bisection of, or left-hand overlap with, the entry in front of
    [off]. *)
Definition trim_left (off : Z) (e : extent) (m : internal_map) : internal_map :=
  let it := lower_bound off m in
  if is_begin m it then m
  else
    match it_prev m it with
    | Some (key, val) =>
        if (key <? off) && (key + len val >? off + len e) then
          let new_key := off + len e in
          let new_len := len val - (new_key - key) in
          let val1 := with_len val (u32 (off - key)) in
          let m1 := map_set key val1 m in
          let val2 := with_offset val1 (u32 (offset val1 + (new_key - key))) in
          let val3 := with_len val2 (u32 new_len) in
          map_set new_key val3 m1
        else if (key <? off) && (key + len val >? off) then
          map_set key (with_len val (u32 (off - key))) m
        else m
    | None => m
    end.

(** The part of [extmap::update] after the two special cases. *)
Definition update_general (off : Z) (e : extent) (m : internal_map) : internal_map :=
  match lower_bound off m with
  | None => map_set off e m          (* "we're at the end of the list" *)
  | Some _ =>
      let '(it, m1) := erase_covered (from_lower_bound off m) off e m in
      let m2 := trim_right it off e m1 in
      let m3 := trim_left off e m2 in
      map_set off e m3
  end.

(** [extmap::update]. *)
Definition update (off : Z) (e : extent) (m : internal_map) : internal_map :=
  match back m with
  | None => map_set off e m          (* the map is empty *)
  | Some (key, val) =>
      if extends_last key val off e
      then map_set key (with_len val (u32 (len val + len e))) m
      else update_general off e m
  end.

(** [extmap::erase]. *)
Definition erase (off : Z) (m : internal_map) : internal_map := map_erase off m.

(** [it++] on an iterator standing on key [k]. *)
Fixpoint after (k : Z) (m : internal_map) : list entry :=
  match m with
  | [] => []
  | (k', v') :: r => if k' <=? k then after k r else m
  end.

(** Keys strictly increasing: the shape every [std::map] has. *)
Definition key_lt (a b : entry) : Prop := fst a < fst b.
Definition sorted (m : internal_map) : Prop := StronglySorted key_lt m.

(** Every length is a [uint32_t] value. *)
Definition lens_ok (m : internal_map) : Prop :=
  Forall (fun a : entry => 0 <= len (snd a) < 2 ^ 32) m.

Definition well_formed (m : internal_map) : Prop := sorted m /\ lens_ok m.

(** The non-overlap invariant (I1). *)
Definition non_overlap (m : internal_map) : Prop :=
  forall k1 e1 k2 e2,
    In (k1, e1) m -> In (k2, e2) m -> k1 < k2 -> k1 + len e1 <= k2.

(** [do_trunc], the loop on the extent map.  Each round either erases an
    entry at or beyond [new_size] or cuts the entry that straddles
    [new_size]; [trunc_weight] counts what is left to do, and the loop is
    run with that much fuel ([None]: fuel exhausted). *)
Fixpoint do_trunc_loop (fuel : nat) (new_size : Z) (m : internal_map)
    : option internal_map :=
  match fuel with
  | O => None
  | S fuel' =>
      match lookup new_size m with
      | None => Some m
      | Some (off, e) =>
          if off <? new_size
          then do_trunc_loop fuel' new_size
                 (update off (with_len e (u32 (new_size - off))) m)
          else do_trunc_loop fuel' new_size (erase off m)
      end
  end.

Definition entry_weight (new_size : Z) (a : entry) : nat :=
  if new_size <=? fst a then 2%nat
  else if new_size <? fst a + len (snd a) then 3%nat
  else 0%nat.

Fixpoint trunc_weight (new_size : Z) (m : internal_map) : nat :=
  match m with
  | [] => 0%nat
  | a :: r => (entry_weight new_size a + trunc_weight new_size r)%nat
  end.

Definition trunc_fuel (new_size : Z) (m : internal_map) : nat :=
  S (trunc_weight new_size m).

Definition do_trunc_extents (new_size : Z) (m : internal_map) : internal_map :=
  match do_trunc_loop (trunc_fuel new_size m) new_size m with
  | Some m' => m'
  | None => m
  end.

End Extmap.

Abbreviation extent := Extmap.extent.
Abbreviation mk_extent := Extmap.mk_extent.
Abbreviation internal_map := Extmap.internal_map.

(* ------------------------------------------------------------------ *)
(** ** Which object byte backs a file position *)

Module ExtmapSpec.
Import Extmap.

(** File position [p] is backed by byte [x] of the data of object [o]. *)
Definition backs (m : internal_map) (p o x : Z) : Prop :=
  exists k v, In (k, v) m /\ k <= p < k + len v /\
              o = objnum v /\ x = offset v + (p - k).

(** Every extent lies inside its object: object offsets are 32-bit. *)
Definition offsets_ok (m : internal_map) : Prop :=
  forall k v, In (k, v) m -> 0 <= offset v /\ offset v + len v <= 2 ^ 32.

End ExtmapSpec.

(* ------------------------------------------------------------------ *)
(** * Truncation as the specification words it

    Written from the specification (sections 3 and 4.5), not from the
    source, to be compared with [Extmap.lookup] and the loop of
    [do_trunc]. *)

Module TruncateSpec.
Import Extmap.

(** "Returns the entry whose interval contains [offset], or else the
    lowest entry whose key exceeds [offset], or end." *)
Definition contains (off : Z) (a : entry) : bool :=
  (fst a <=? off) && (off <? fst a + len (snd a)).

Definition spec_lookup (off : Z) (m : internal_map) : iter :=
  match find (contains off) m with
  | Some a => Some a
  | None => find (fun a : entry => off <? fst a) m
  end.

(** "Repeatedly lookup [new_size] in the extent map; while an entry is
    returned: if its key is [< new_size], shorten its length to
    [new_size - key]; else erase it."  An entry that has been shortened
    or erased is not returned again, so [length m] rounds reach the end
    of the loop. *)
Fixpoint spec_truncate_loop (rounds : nat) (new_size : Z) (m : internal_map)
    : internal_map :=
  match rounds with
  | O => m
  | S rounds' =>
      match spec_lookup new_size m with
      | None => m
      | Some (k, e) =>
          if k <? new_size
          then spec_truncate_loop rounds' new_size
                 (map_set k (with_len e (new_size - k)) m)
          else spec_truncate_loop rounds' new_size (map_erase k m)
      end
  end.

Definition spec_truncate (new_size : Z) (m : internal_map) : internal_map :=
  spec_truncate_loop (length m) new_size m.

End TruncateSpec.

(* ------------------------------------------------------------------ *)
(** * The file system state and its operations *)

Module Objfs.

(** errno values, mode bits and [utimensat] markers (Linux). *)
Definition ENOENT : Z := 2.
Definition EIO : Z := 5.
Definition EEXIST : Z := 17.
Definition ENOTDIR : Z := 20.
Definition EISDIR : Z := 21.
Definition EINVAL : Z := 22.

Definition S_IFMT : Z := 61440.     (* 0170000 *)
Definition S_IFDIR : Z := 16384.    (* 0040000 *)
Definition S_IFREG : Z := 32768.    (* 0100000 *)
Definition S_IFLNK : Z := 40960.    (* 0120000 *)

Definition UTIME_NOW : Z := 2 ^ 30 - 1.
Definition UTIME_OMIT : Z := 2 ^ 30 - 2.

Definition OBJFS_MAGIC : Z := 0x5346424f.

Record timespec : Type := mk_timespec { tv_sec : Z; tv_nsec : Z }.

(** [enum obj_type]. *)
Inductive obj_type : Type := OBJ_FILE | OBJ_DIR | OBJ_SYMLINK | OBJ_OTHER.

(** The fields of [class fs_obj] shared by every inode. *)
Record inode : Type := mk_inode {
  inum : Z;
  mode : Z;
  uid : Z;
  gid : Z;
  rdev : Z;
  size : Z;            (* int64_t *)
  mtime : timespec
}.

(** [fs_obj] and its subclasses.  The [type] field is the constructor;
    an [OBJ_OTHER] inode carries no extent map (the one [create_node]
    allocates for it is never used). *)
Inductive fs_obj : Type :=
  | fs_file (i : inode) (extents : internal_map)
  | fs_directory (i : inode) (dirents : gmap string Z)
  | fs_link (i : inode) (target : string)
  | fs_other (i : inode).

Definition type (o : fs_obj) : obj_type :=
  match o with
  | fs_file _ _ => OBJ_FILE
  | fs_directory _ _ => OBJ_DIR
  | fs_link _ _ => OBJ_SYMLINK
  | fs_other _ => OBJ_OTHER
  end.

Definition obj_type_eqb (a b : obj_type) : bool :=
  match a, b with
  | OBJ_FILE, OBJ_FILE | OBJ_DIR, OBJ_DIR
  | OBJ_SYMLINK, OBJ_SYMLINK | OBJ_OTHER, OBJ_OTHER => true
  | _, _ => false
  end.

Definition hdr (o : fs_obj) : inode :=
  match o with
  | fs_file i _ | fs_directory i _ | fs_link i _ | fs_other i => i
  end.

Definition map_hdr (f : inode -> inode) (o : fs_obj) : fs_obj :=
  match o with
  | fs_file i x => fs_file (f i) x
  | fs_directory i d => fs_directory (f i) d
  | fs_link i t => fs_link (f i) t
  | fs_other i => fs_other (f i)
  end.

Definition with_mtime (t : timespec) (i : inode) : inode :=
  mk_inode (inum i) (mode i) (uid i) (gid i) (rdev i) (size i) t.

Definition with_size (sz : Z) (i : inode) : inode :=
  mk_inode (inum i) (mode i) (uid i) (gid i) (rdev i) sz (mtime i).

Definition set_mtime (t : timespec) (o : fs_obj) : fs_obj := map_hdr (with_mtime t) o.

(** Log records ([struct log_inode], [log_trunc], ... under their
    [log_rec_type] tag).  [LOG_UNKNOWN] stands for a record whose type
    field is outside the enumeration. *)
Inductive log_record : Type :=
  | LOG_INODE (inum mode uid gid rdev : Z) (mtime : timespec)
  | LOG_TRUNC (inum new_size : Z)
  | LOG_DELETE (parent inum : Z) (name : string)
  | LOG_SYMLNK (inum : Z) (target : string)
  | LOG_RENAME (inum parent1 parent2 : Z) (name1 name2 : string)
  | LOG_DATA (inum obj_offset file_offset size len : Z)
  | LOG_CREATE (parent_inum inum : Z) (name : string)
  | LOG_NULL
  | LOG_UNKNOWN (tag : Z).

Definition strlen (s : string) : Z := Z.of_nat (String.length s).

(** Bytes the emitting routine hands to [make_record]:
    [sizeof(log_record)] = 2 plus the packed payload. *)
Definition record_bytes (r : log_record) : Z :=
  match r with
  | LOG_INODE _ _ _ _ _ _ => 2 + 36
  | LOG_TRUNC _ _ => 2 + 12
  | LOG_DELETE _ _ name => 2 + 9 + strlen name
  | LOG_SYMLNK _ target => 2 + 5 + strlen target
  | LOG_RENAME _ _ _ n1 n2 => 2 + 14 + strlen n1 + strlen n2
  | LOG_DATA _ _ _ _ _ => 2 + 28
  | LOG_CREATE _ _ name => 2 + 9 + strlen name
  | LOG_NULL => 2
  | LOG_UNKNOWN _ => 2
  end.

(** [struct obj_header]; [sizeof(obj_header)] is 20. *)
Record obj_header : Type := mk_obj_header {
  h_magic : Z;
  h_version : Z;
  h_type : Z;
  h_hdr_len : Z;
  h_this_index : Z
}.

Definition sizeof_obj_header : Z := 20.

(** An object of the bucket: header, log records, file data. *)
Record object : Type := mk_object {
  o_header : obj_header;
  o_records : list log_record;
  o_data : list ascii
}.

(** The globals of [objfs.cc] together with the bucket.  [data_offsets],
    the memo table of [get_offset], is left out: sealed objects never
    change, so the memoised header length is the stored one. *)
Record fs_state : Type := mk_fs_state {
  inode_map : gmap Z fs_obj;
  next_inode : Z;
  this_index : Z;
  meta_log : list log_record;   (* [meta_log_head, meta_log_tail) *)
  data_log : list ascii;        (* [data_log_head, data_log_tail) *)
  meta_log_len : Z;
  data_log_len : Z;
  dirty_inodes : gset Z;
  bucket : gmap Z object
}.

(** What a call reads from its surroundings: the clock, the FUSE
    context, and whether [s3_put] reports [S3StatusOK]. *)
Record env : Type := mk_env {
  now : timespec;
  ctx_uid : Z;
  ctx_gid : Z;
  put_ok : bool
}.

(** How a call ends: it returns, it throws, or it dereferences a pointer
    the table does not own (undefined behaviour). *)
Inductive outcome : Type :=
  | Ret (v : Z)
  | Throw (what : string)
  | Fault.

Definition set_inode_map (m : gmap Z fs_obj) (s : fs_state) : fs_state :=
  mk_fs_state m (next_inode s) (this_index s) (meta_log s) (data_log s)
    (meta_log_len s) (data_log_len s) (dirty_inodes s) (bucket s).

Definition set_next_inode (n : Z) (s : fs_state) : fs_state :=
  mk_fs_state (inode_map s) n (this_index s) (meta_log s) (data_log s)
    (meta_log_len s) (data_log_len s) (dirty_inodes s) (bucket s).

Definition set_this_index (n : Z) (s : fs_state) : fs_state :=
  mk_fs_state (inode_map s) (next_inode s) n (meta_log s) (data_log s)
    (meta_log_len s) (data_log_len s) (dirty_inodes s) (bucket s).

Definition set_logs (ml : list log_record) (dl : list ascii) (s : fs_state) : fs_state :=
  mk_fs_state (inode_map s) (next_inode s) (this_index s) ml dl
    (meta_log_len s) (data_log_len s) (dirty_inodes s) (bucket s).

Definition set_dirty_inodes (d : gset Z) (s : fs_state) : fs_state :=
  mk_fs_state (inode_map s) (next_inode s) (this_index s) (meta_log s) (data_log s)
    (meta_log_len s) (data_log_len s) d (bucket s).

Definition set_bucket (b : gmap Z object) (s : fs_state) : fs_state :=
  mk_fs_state (inode_map s) (next_inode s) (this_index s) (meta_log s) (data_log s)
    (meta_log_len s) (data_log_len s) (dirty_inodes s) b.

Definition put_inode (k : Z) (o : fs_obj) (s : fs_state) : fs_state :=
  set_inode_map (<[k := o]> (inode_map s)) s.

Definition mark_dirty (k : Z) (s : fs_state) : fs_state :=
  set_dirty_inodes ({[k]} ∪ dirty_inodes s) s.

(** ** Replay *)

(** The value [read_hdr] returns for "bad format": [-1] as [size_t]. *)
Definition bad_format : Z := usize (-1).

(** [update_inode]. *)
Definition update_inode (inum mode uid gid rdev : Z) (mtime : timespec)
    (i : inode) : inode :=
  mk_inode inum mode uid gid rdev (size i) mtime.

Definition blank_inode : inode := mk_inode 0 0 0 0 0 0 (mk_timespec 0 0).

(** [read_log_inode]. *)
Definition read_log_inode (inum mode uid gid rdev : Z) (mtime : timespec)
    (s : fs_state) : outcome * fs_state :=
  match inode_map s !! inum with
  | Some obj =>
      (Ret 0, put_inode inum (map_hdr (update_inode inum mode uid gid rdev mtime) obj) s)
  | None =>
      let i := update_inode inum mode uid gid rdev mtime blank_inode in
      let obj :=
        if Z.land mode S_IFMT =? S_IFDIR then fs_directory i ∅
        else if Z.land mode S_IFMT =? S_IFREG then fs_file i []
        else if Z.land mode S_IFMT =? S_IFLNK then fs_link i ""
        else fs_other i in
      (Ret 0, put_inode inum obj s)
  end.

(** [do_trunc]. *)
Definition do_trunc (i : inode) (extents : internal_map) (new_size : Z) : fs_obj :=
  fs_file (with_size new_size i) (Extmap.do_trunc_extents new_size extents).

(** [read_log_trunc].  The cast to [fs_file*] is unchecked.  [size] is a
    member of the base class, so the test [f->size < tr->new_size] reads
    it whatever the inode is and refuses the record when it holds;
    [do_trunc] then works on [f->extents], a member only a file has. *)
Definition read_log_trunc (inum new_size : Z) (s : fs_state) : outcome * fs_state :=
  match inode_map s !! inum with
  | None => (Ret (-1), s)
  | Some obj =>
      if size (hdr obj) <? new_size then (Ret (-1), s)
      else match obj with
           | fs_file i extents =>
               (Ret 0, put_inode inum (do_trunc i extents new_size) s)
           | _ => (Fault, s)
           end
  end.

(** [read_log_delete]. *)
Definition read_log_delete (parent inum : Z) (name : string) (s : fs_state)
    : outcome * fs_state :=
  match inode_map s !! parent, inode_map s !! inum with
  | None, _ | _, None => (Ret (-1), s)
  | Some (fs_directory i dirents), Some _ =>
      let s1 := put_inode parent (fs_directory i (delete name dirents)) s in
      (Ret 0, set_inode_map (delete inum (inode_map s1)) s1)
  | Some _, Some _ => (Fault, s)
  end.

(** [read_log_symlink]. *)
Definition read_log_symlink (inum : Z) (target : string) (s : fs_state)
    : outcome * fs_state :=
  match inode_map s !! inum with
  | None => (Ret (-1), s)
  | Some (fs_link i _) => (Ret 0, put_inode inum (fs_link i target) s)
  | Some _ => (Fault, s)
  end.

(** [read_log_rename].  The third test compares an iterator of
    [parent2->dirents] with [parent1->dirents.end()]; when the two
    directories differ the iterators never compare equal and the record
    is refused. *)
Definition read_log_rename (inum parent1 parent2 : Z) (name1 name2 : string)
    (s : fs_state) : outcome * fs_state :=
  match inode_map s !! parent1, inode_map s !! parent2 with
  | None, _ | _, None => (Ret (-1), s)
  | Some (fs_directory i1 d1), Some (fs_directory i2 d2) =>
      match d1 !! name1 with
      | None => (Ret (-1), s)
      | Some child =>
          if negb (child =? inum) then (Ret (-1), s)
          else if negb (parent1 =? parent2) then (Ret (-1), s)
          else match d2 !! name2 with
               | Some _ => (Ret (-1), s)
               | None =>
                   (Ret 0, put_inode parent1
                             (fs_directory i1 (<[name2 := inum]> (delete name1 d1))) s)
               end
      end
  | Some _, Some _ => (Fault, s)
  end.

(** [read_log_data]. *)
Definition read_log_data (idx : Z) (inum obj_offset file_offset sz len : Z)
    (s : fs_state) : outcome * fs_state :=
  match inode_map s !! inum with
  | None => (Ret (-1), s)
  | Some (fs_file i extents) =>
      let e := mk_extent (u32 idx) obj_offset len in
      (Ret 0, put_inode inum
                (fs_file (with_size sz i) (Extmap.update file_offset e extents)) s)
  | Some _ => (Fault, s)
  end.

(** [read_log_create]. *)
Definition read_log_create (parent_inum inum : Z) (name : string) (s : fs_state)
    : outcome * fs_state :=
  match inode_map s !! parent_inum with
  | None => (Ret (-1), s)
  | Some (fs_directory i dirents) =>
      let s1 := put_inode parent_inum (fs_directory i (<[name := inum]> dirents)) s in
      (Ret 0, set_next_inode (Z.max (next_inode s) (i32 (inum + 1))) s1)
  | Some _ => (Fault, s)
  end.

(** One [case] of the [switch] in [read_hdr]. *)
Definition read_record (idx : Z) (rec : log_record) (s : fs_state)
    : outcome * fs_state :=
  match rec with
  | LOG_INODE inum mode uid gid rdev mtime => read_log_inode inum mode uid gid rdev mtime s
  | LOG_TRUNC inum new_size => read_log_trunc inum new_size s
  | LOG_DELETE parent inum name => read_log_delete parent inum name s
  | LOG_SYMLNK inum target => read_log_symlink inum target s
  | LOG_RENAME inum p1 p2 n1 n2 => read_log_rename inum p1 p2 n1 n2 s
  | LOG_DATA inum oo fo sz len => read_log_data idx inum oo fo sz len s
  | LOG_CREATE parent inum name => read_log_create parent inum name s
  | LOG_NULL => (Ret 0, s)
  | LOG_UNKNOWN _ => (Ret (-1), s)
  end.

(** The [while (rec < end)] loop of [read_hdr], over the records that lie
    between the header and [hdr_len]. *)
Fixpoint read_records (idx : Z) (recs : list log_record) (s : fs_state)
    : outcome * fs_state :=
  match recs with
  | [] => (Ret 0, s)
  | rec :: rest =>
      match read_record idx rec s with
      | (Ret v, s1) => if v <? 0 then (Ret bad_format, s1) else read_records idx rest s1
      | (other, s1) => (other, s1)
      end
  end.

(** [read_hdr]; [avail] is its [len] argument. *)
Definition read_hdr (idx : Z) (oh : obj_header) (recs : list log_record)
    (avail : Z) (s : fs_state) : outcome * fs_state :=
  if usize (h_hdr_len oh) >? avail then (Ret (usize (h_hdr_len oh)), s)
  else if negb (h_magic oh =? OBJFS_MAGIC) || negb (h_version oh =? 1)
          || negb (h_type oh =? 1)
  then (Ret bad_format, s)
  else read_records idx recs s.

(** ** Staging buffers and flush *)

(** [data_offset] and [meta_offset]. *)
Definition data_offset (s : fs_state) : Z := Z.of_nat (length (data_log s)).

Fixpoint log_bytes (l : list log_record) : Z :=
  match l with
  | [] => 0
  | r :: rest => record_bytes r + log_bytes rest
  end.

Definition meta_offset (s : fs_state) : Z := log_bytes (meta_log s).

(** [make_record]: the record goes to the metadata log and [datalen]
    bytes of [data] to the data log. *)
Definition make_record (rec : log_record) (data : list ascii) (datalen : Z)
    (s : fs_state) : fs_state :=
  let dl := if datalen >? 0 then data_log s ++ firstn (Z.to_nat datalen) data
            else data_log s in
  set_logs (meta_log s ++ [rec]) dl s.

(** [write_inode]. *)
Definition inode_record (o : fs_obj) : log_record :=
  let i := hdr o in
  LOG_INODE (inum i) (mode i) (uid i) (gid i) (rdev i) (mtime i).

Definition write_inode (o : fs_obj) (s : fs_state) : fs_state :=
  make_record (inode_record o) [] 0 s.

(** [write_dirent], [do_log_delete], [do_log_trunc], [do_log_rename],
    [write_symlink]. *)
Definition write_dirent (parent_inum : Z) (leaf : string) (inum : Z)
    (s : fs_state) : fs_state :=
  make_record (LOG_CREATE (u32 parent_inum) (u32 inum) leaf) [] 0 s.


Definition do_log_trunc (inum off : Z) (s : fs_state) : fs_state :=
  make_record (LOG_TRUNC (u32 inum) off) [] 0 s.

Definition do_log_rename (src_inum src_parent dst_parent : Z)
    (src_leaf dst_leaf : string) (s : fs_state) : fs_state :=
  make_record (LOG_RENAME (u32 src_inum) (u32 src_parent) (u32 dst_parent)
                 src_leaf dst_leaf) [] 0 s.

Definition write_symlink (inum : Z) (target : string) (s : fs_state) : fs_state :=
  make_record (LOG_SYMLNK (u32 inum) target) [] 0 s.

(** The first loop of [write_everything_out]: one [LOG_INODE] record per
    dirty inode.  A key the table no longer owns (the inode was freed by
    [fs_rmdir]) yields no record.  [dirty_inodes] is a [std::set] of
    pointers, visited in address order; here the keys are visited in
    increasing order, so only the set of records written is meaningful,
    not their order among themselves. *)
Definition write_dirty (keys : list Z) (s : fs_state) : fs_state :=
  foldl (fun acc k =>
           match inode_map s !! k with
           | Some o => write_inode o acc
           | None => acc
           end) s keys.

(** [write_everything_out].  [this_index] is advanced before the PUT;
    the tails are reset only when the PUT succeeded. *)
Definition write_everything_out (en : env) (s : fs_state) : outcome * fs_state :=
  let s1 := set_dirty_inodes ∅ (write_dirty (elements (dirty_inodes s)) s) in
  let h := mk_obj_header OBJFS_MAGIC 1 1
             (i32 (meta_offset s1 + sizeof_obj_header)) (this_index s1) in
  let obj := mk_object h (meta_log s1) (data_log s1) in
  let s2 := set_this_index (this_index s1 + 1) s1 in
  if put_ok en then
    (Ret 0, set_logs [] [] (set_bucket (<[this_index s1 := obj]> (bucket s2)) s2))
  else (Throw "put failed", s2).

(** The test of [maybe_write]. *)
Definition flush_needed (s : fs_state) : bool :=
  (meta_offset s >? meta_log_len s) || (data_offset s >? data_log_len s).

(** [maybe_write]. *)
Definition maybe_write (en : env) (s : fs_state) : outcome * fs_state :=
  if flush_needed s then write_everything_out en s else (Ret 0, s).

(** The tail of an entry point: [maybe_write(fs); return v;]. *)
Definition flush_then_return (en : env) (v : Z) (s : fs_state) : outcome * fs_state :=
  match maybe_write en s with
  | (Ret _, s') => (Ret v, s')
  | other => other
  end.

(** ** Reading file data *)

(** [memcpy(buf + pos, src, |src|)] on a caller buffer. *)
Definition memcpy (buf : list ascii) (pos : Z) (src : list ascii) : list ascii :=
  firstn (Z.to_nat pos) buf ++ src
    ++ skipn (Z.to_nat pos + length src) buf.

(** [read_data]: the bytes it copies, or [None] when the GET fails.
    Bytes past the tail of the data log are not part of the model. *)
Definition read_data (s : fs_state) (index off n : Z) : option (list ascii) :=
  if index =? this_index s then
    let n' := Z.min n (usize (data_offset s - off)) in
    Some (firstn (Z.to_nat n') (skipn (Z.to_nat off) (data_log s)))
  else
    match bucket s !! index with
    | Some obj => Some (firstn (Z.to_nat n) (skipn (Z.to_nat off) (o_data obj)))
    | None => None
    end.

(** ** Path resolution *)

Definition is_empty (s : string) : bool :=
  match s with EmptyString => true | _ => false end.

(** [split]: the tokens [std::getline] cuts at [delimiter], empty ones
    dropped. *)
Fixpoint split_from (s : string) (delimiter : ascii) (token : string) : list string :=
  match s with
  | EmptyString => if is_empty token then [] else [token]
  | String c r =>
      if Ascii.eqb c delimiter then
        if is_empty token then split_from r delimiter EmptyString
        else token :: split_from r delimiter EmptyString
      else split_from r delimiter (token +:+ String c EmptyString)
  end.

Definition split (s : string) (delimiter : ascii) : list string :=
  split_from s delimiter EmptyString.

(** [vec_2_inum]; the result is an [int]. *)
Fixpoint walk (inum : Z) (pathvec : list string) (s : fs_state) : Z :=
  match pathvec with
  | [] => i32 inum
  | name :: rest =>
      match inode_map s !! inum with
      | None => - ENOENT
      | Some (fs_directory _ dirents) =>
          match dirents !! name with
          | None => - ENOENT
          | Some child => walk child rest s
          end
      | Some _ => - ENOTDIR
      end
  end.

Definition vec_2_inum (pathvec : list string) (s : fs_state) : Z := walk 1 pathvec s.

(** [path_2_inum]. *)
Definition path_2_inum (path : string) (s : fs_state) : Z :=
  vec_2_inum (split path "/"%char) s.

(** [path_2_inum2]; [None] when the path has no component
    ([pathvec.back()] on an empty vector). *)
Definition path_2_inum2 (path : string) (s : fs_state) : option (Z * Z * string) :=
  let pathvec := split path "/"%char in
  match last pathvec with
  | None => None
  | Some leaf =>
      Some (vec_2_inum pathvec s, vec_2_inum (removelast pathvec) s, leaf)
  end.

(** ** POSIX entry points *)

(** [fs_write]. *)
Definition fs_write (en : env) (path : string) (buf : list ascii) (count off : Z)
    (s : fs_state) : outcome * fs_state :=
  let inum := path_2_inum path s in
  if inum <? 0 then (Ret inum, s)
  else
    match inode_map s !! u32 inum with
    | None => (Fault, s)
    | Some (fs_file i extents) =>
        let new_size := Z.max (off + count) (size i) in
        let obj_offset := data_offset s in
        let s1 := make_record
                    (LOG_DATA (u32 inum) (u32 obj_offset) off new_size (u32 count))
                    buf count s in
        let e := mk_extent (u32 (this_index s)) (u32 obj_offset) (u32 count) in
        let s2 := put_inode (u32 inum) (fs_file i (Extmap.update off e extents)) s1 in
        flush_then_return en (i32 count) (mark_dirty (u32 inum) s2)
    | Some _ => (Ret (- EISDIR), s)
    end.

(** The entries a [for (it = lookup(off); ...; it++)] loop visits. *)
Definition iter_from (it : Extmap.iter) (m : internal_map) : list Extmap.entry :=
  match it with
  | None => []
  | Some (k, e) => (k, e) :: Extmap.after k m
  end.

(** The loop of [fs_read]; [pos] is how far [buf] has been advanced. *)
Fixpoint read_extents (ents : list Extmap.entry) (s : fs_state) (buf : list ascii)
    (pos count bytes off : Z) : outcome * list ascii :=
  match ents with
  | [] => (Ret (i32 bytes), buf)
  | (base, e) :: rest =>
      if (count >? 0) && (count >? bytes) then
        if base >? off then
          let skip := usize (base - off) in
          let skip := if skip >? count then count else skip in
          read_extents rest s buf (pos + skip) count (bytes + skip) (off + skip)
        else
          let skip := usize (off - base) in
          let _len := usize (Extmap.len e - skip) in
          let _len := if _len >? count then count else _len in
          match read_data s (Extmap.objnum e) (Extmap.offset e + skip) _len with
          | None => (Ret (- EIO), buf)
          | Some got =>
              read_extents rest s (memcpy buf pos got) (pos + _len) count
                (bytes + _len) (off + _len)
          end
      else (Ret (i32 bytes), buf)
  end.

(** [fs_read]; returns the caller's buffer as the call leaves it. *)
Definition fs_read (path : string) (buf : list ascii) (count off : Z)
    (s : fs_state) : outcome * list ascii :=
  let inum := path_2_inum path s in
  if inum <? 0 then (Ret inum, buf)
  else
    match inode_map s !! u32 inum with
    | None => (Fault, buf)
    | Some (fs_file i extents) =>
        read_extents (iter_from (Extmap.lookup off extents) extents) s buf 0 count 0 off
    | Some _ => (Ret (- ENOTDIR), buf)
    end.

(** [fs_mkdir]. *)
Definition fs_mkdir (en : env) (path : string) (md : Z) (s : fs_state)
    : outcome * fs_state :=
  match path_2_inum2 path s with
  | None => (Fault, s)
  | Some (inum, parent_inum, leaf) =>
      if inum >=? 0 then (Ret (- EEXIST), s)
      else if parent_inum <? 0 then (Ret parent_inum, s)
      else
        match inode_map s !! u32 parent_inum with
        | None => (Fault, s)
        | Some (fs_directory pi dirents) =>
            let inum := next_inode s in
            let s1 := set_next_inode (next_inode s + 1) s in
            let dir := fs_directory
                         (mk_inode (u32 inum) (u32 (Z.lor md S_IFDIR)) (ctx_uid en)
                            (ctx_gid en) 0 0 (now en)) ∅ in
            let s2 := put_inode (u32 inum) dir s1 in
            let parent := fs_directory (with_mtime (now en) pi)
                            (<[leaf := u32 inum]> dirents) in
            let s3 := mark_dirty (u32 parent_inum) (put_inode (u32 parent_inum) parent s2) in
            let s4 := write_dirent parent_inum leaf inum (write_inode dir s3) in
            flush_then_return en 0 s4
        | Some _ => (Ret (- ENOTDIR), s)
        end
  end.

(** [create_node]. *)
Definition create_node (en : env) (path : string) (md : Z) (ty : obj_type) (dev : Z)
    (s : fs_state) : outcome * fs_state :=
  match path_2_inum2 path s with
  | None => (Fault, s)
  | Some (inum, parent_inum, leaf) =>
      if inum >=? 0 then (Ret (- EEXIST), s)
      else if parent_inum <? 0 then (Ret parent_inum, s)
      else
        match inode_map s !! u32 parent_inum with
        | None => (Fault, s)
        | Some (fs_directory pi dirents) =>
            let inum := next_inode s in
            let s1 := set_next_inode (next_inode s + 1) s in
            let i := mk_inode (u32 inum) (u32 md) (ctx_uid en) (ctx_gid en)
                       (u32 dev) 0 (now en) in
            let f := match ty with
                     | OBJ_FILE => fs_file i []
                     | OBJ_DIR => fs_directory i ∅
                     | OBJ_SYMLINK => fs_link i ""
                     | OBJ_OTHER => fs_other i
                     end in
            let s2 := put_inode (u32 inum) f s1 in
            let s3 := put_inode (u32 parent_inum)
                        (fs_directory pi (<[leaf := u32 inum]> dirents)) s2 in
            let s4 := write_dirent parent_inum leaf inum (write_inode f s3) in
            let s5 := put_inode (u32 parent_inum)
                        (fs_directory (with_mtime (now en) pi)
                           (<[leaf := u32 inum]> dirents)) s4 in
            flush_then_return en 0 (mark_dirty (u32 parent_inum) s5)
        | Some _ => (Ret (- ENOTDIR), s)
        end
  end.

(** [fs_create]. *)
Definition fs_create (en : env) (path : string) (md : Z) (s : fs_state)
    : outcome * fs_state :=
  create_node en path (Z.lor md S_IFREG) OBJ_FILE 0 s.

(** [fs_truncate]. *)
Definition fs_truncate (en : env) (path : string) (new_len : Z) (s : fs_state)
    : outcome * fs_state :=
  let inum := path_2_inum path s in
  if inum <? 0 then (Ret inum, s)
  else
    match inode_map s !! u32 inum with
    | None => (Fault, s)
    | Some (fs_directory _ _) => (Ret (- EISDIR), s)
    | Some (fs_file i extents) =>
        let f := map_hdr (with_mtime (now en)) (do_trunc i extents new_len) in
        let s1 := do_log_trunc inum new_len s in
        flush_then_return en 0 (mark_dirty (u32 inum) (put_inode (u32 inum) f s1))
    | Some _ => (Ret (- EINVAL), s)
    end.

(** [fs_rename].  Both [srcdir] and [dstdir] are [inode_map[src_parent]]. *)
Definition fs_rename (en : env) (src_path dst_path : string) (s : fs_state)
    : outcome * fs_state :=
  match path_2_inum2 src_path s with
  | None => (Fault, s)
  | Some (src_inum, src_parent, src_leaf) =>
      if src_inum <? 0 then (Ret src_inum, s)
      else
        match path_2_inum2 dst_path s with
        | None => (Fault, s)
        | Some (dst_inum, dst_parent, dst_leaf) =>
            if dst_inum >=? 0 then (Ret (- EEXIST), s)
            else if dst_parent <? 0 then (Ret dst_parent, s)
            else
              match inode_map s !! u32 src_parent with
              | None => (Fault, s)
              | Some (fs_directory i dirents) =>
                  let d1 := delete src_leaf dirents in
                  let d2 := <[dst_leaf := u32 src_inum]> d1 in
                  let dir := fs_directory (with_mtime (now en) i) d2 in
                  let s1 := mark_dirty (u32 src_parent)
                              (put_inode (u32 src_parent) dir s) in
                  let s2 := do_log_rename src_inum src_parent dst_parent
                              src_leaf dst_leaf s1 in
                  flush_then_return en 0 s2
              | Some _ => (Ret (- ENOTDIR), s)
              end
        end
  end.

(** [fs_utimens]; [tv = None] is the null pointer. *)
Definition fs_utimens (en : env) (path : string) (tv : option (timespec * timespec))
    (s : fs_state) : outcome * fs_state :=
  let inum := path_2_inum path s in
  if inum <? 0 then (Ret inum, s)
  else
    match inode_map s !! u32 inum with
    | None => (Fault, s)
    | Some obj =>
        let obj' :=
          match tv with
          | None => set_mtime (now en) obj
          | Some (_, tv1) =>
              if tv_nsec tv1 =? UTIME_NOW then set_mtime (now en) obj
              else if negb (tv_nsec tv1 =? UTIME_OMIT) then set_mtime tv1 obj
              else obj
          end in
        flush_then_return en 0 (mark_dirty (u32 inum) (put_inode (u32 inum) obj' s))
    end.

(** [fs_symlink].  The link is stored under [inum], the (negative)
    result of the path lookup, and its target is [leaf]. *)
Definition fs_symlink (en : env) (path contents : string) (s : fs_state)
    : outcome * fs_state :=
  match path_2_inum2 path s with
  | None => (Fault, s)
  | Some (inum, parent_inum, leaf) =>
      if inum >=? 0 then (Ret (- EEXIST), s)
      else if parent_inum <? 0 then (Ret parent_inum, s)
      else
        match inode_map s !! u32 parent_inum with
        | None => (Fault, s)
        | Some (fs_directory pi dirents) =>
            let l_inum := u32 (next_inode s) in
            let s1 := set_next_inode (next_inode s + 1) s in
            (* [rdev] and [size] are left uninitialised; the model holds 0 *)
            let l := fs_link (mk_inode l_inum (Z.lor S_IFLNK 511) (ctx_uid en)
                                (ctx_gid en) 0 0 (now en)) leaf in
            let s2 := put_inode (u32 inum) l s1 in
            let s3 := put_inode (u32 parent_inum)
                        (fs_directory pi (<[leaf := l_inum]> dirents)) s2 in
            let s4 := write_dirent parent_inum leaf inum
                        (write_symlink inum leaf (write_inode l s3)) in
            let s5 := put_inode (u32 parent_inum)
                        (fs_directory (with_mtime (now en) pi)
                           (<[leaf := l_inum]> dirents)) s4 in
            flush_then_return en 0 (mark_dirty (u32 parent_inum) s5)
        | Some _ => (Ret (- ENOTDIR), s)
        end
  end.

(** [fs_fsync]. *)
Definition fs_fsync (en : env) (s : fs_state) : outcome * fs_state :=
  match write_everything_out en s with
  | (Ret _, s') => (Ret 0, s')
  | other => other
  end.

(** [fs_readlink]; returns the caller's buffer as the call leaves it. *)
Definition fs_readlink (path : string) (buf : list ascii) (count : Z)
    (s : fs_state) : outcome * list ascii :=
  let inum := path_2_inum path s in
  if inum <? 0 then (Ret inum, buf)
  else
    match inode_map s !! u32 inum with
    | None => (Fault, buf)
    | Some (fs_link _ target) =>
        let val := Z.min count (strlen target) in
        (Ret (i32 val),
         memcpy buf 0 (firstn (Z.to_nat val) (list_ascii_of_string target)))
    | Some _ => (Ret (- EINVAL), buf)
    end.

(** ** Attributes, permissions and removal *)

(** [struct stat]: the fields [obj_2_stat] sets after zeroing the rest. *)
Record stat : Type := mk_stat {
  st_ino : Z;
  st_mode : Z;
  st_nlink : Z;
  st_uid : Z;
  st_gid : Z;
  st_size : Z;
  st_blocks : Z;
  st_atim : timespec;
  st_mtim : timespec;
  st_ctim : timespec
}.

(** [obj_2_stat]. *)
Definition obj_2_stat (o : fs_obj) : stat :=
  let i := hdr o in
  mk_stat (inum i) (mode i) 1 (uid i) (gid i) (size i)
    (Z.quot (size i + 4095) 4096) (mtime i) (mtime i) (mtime i).

(** [fs_getattr]; the second component is [*sb] when it was filled. *)
Definition fs_getattr (path : string) (s : fs_state) : outcome * option stat :=
  let inum := path_2_inum path s in
  if inum <? 0 then (Ret inum, None)
  else
    match inode_map s !! u32 inum with
    | None => (Fault, None)
    | Some obj => (Ret 0, Some (obj_2_stat obj))
    end.

Definition with_mode (md : Z) (i : inode) : inode :=
  mk_inode (inum i) md (uid i) (gid i) (rdev i) (size i) (mtime i).

(** [fs_chmod]. *)
Definition fs_chmod (en : env) (path : string) (md : Z) (s : fs_state)
    : outcome * fs_state :=
  let inum := path_2_inum path s in
  if inum <? 0 then (Ret inum, s)
  else
    match inode_map s !! u32 inum with
    | None => (Fault, s)
    | Some obj =>
        let obj' := map_hdr (fun i => with_mode (u32 (Z.lor md (Z.land S_IFMT (mode i)))) i)
                      obj in
        flush_then_return en 0 (mark_dirty (u32 inum) (put_inode (u32 inum) obj' s))
    end.



End Objfs.

(* ------------------------------------------------------------------ *)
(** * Predicates on the file system state used in the statements *)

Module ObjfsSpec.
Import Objfs.

(** Inode numbers in directory entries fit the [int] that
    [vec_2_inum] returns. *)
Definition inums_fit (s : fs_state) : Prop :=
  map_Forall (fun _ o =>
    match o with
    | fs_directory _ d => map_Forall (fun _ c => 0 <= c < 2 ^ 31) d
    | _ => True
    end) (inode_map s).

(** [t] keeps every directory entry of [s]. *)
Definition extends (s t : fs_state) : Prop :=
  forall k i d name c,
    inode_map s !! k = Some (fs_directory i d) -> d !! name = Some c ->
    exists i' d', inode_map t !! k = Some (fs_directory i' d') /\ d' !! name = Some c.

(** Where a record is once the tail of an entry point has run: still in
    the metadata log, or in the object the flush has put under the index
    the call started with. *)
Definition staged_or_sealed (r : log_record) (s s' : fs_state) : Prop :=
  In r (meta_log s') \/
  exists sealed, bucket s' !! this_index s = Some sealed /\ In r (o_records sealed).

End ObjfsSpec.

(** ** The states the scenarios start from *)

Module Scenario.
Import Objfs.

(** A bucket as a fresh file system leaves it: object 0 carries the
    [LOG_INODE] record of the root directory (inode 1, mode
    [S_IFDIR | 0744]). *)
Definition root_record : log_record :=
  LOG_INODE 1 (Z.lor S_IFDIR 484) 0 0 0 (mk_timespec 0 0).

Definition root_object : object :=
  mk_object (mk_obj_header OBJFS_MAGIC 1 1 (sizeof_obj_header + 38) 0)
    [root_record] [].

(** The globals before [fs_init] replays anything; the two capacities
    are the ones [fs_init] sets. *)
Definition unmounted : fs_state :=
  mk_fs_state ∅ 2 0 [] [] (64 * 1024) (2 * 8 * 1024 * 1024) ∅
    {[ 0 := root_object ]}.

(** The state after [fs_init]: object 0 replayed, [this_index = 1]. *)
Definition mounted : fs_state :=
  set_this_index 1
    (snd (read_hdr 0 (o_header root_object) (o_records root_object)
            (sizeof_obj_header + 38) unmounted)).

Definition en0 : env := mk_env (mk_timespec 1700000000 0) 1000 1000 true.

Definition bytes (s : string) : list ascii := list_ascii_of_string s.

(** The extent map of the file a path resolves to. *)
Definition extents_of (path : string) (s : fs_state) : option internal_map :=
  match inode_map s !! u32 (path_2_inum path s) with
  | Some (fs_file _ extents) => Some extents
  | _ => None
  end.

(** Scenario 2: create ["/a"], write eight bytes, overwrite two. *)
Definition created_a : fs_state := snd (fs_create en0 "/a" 420 mounted).
Definition written_a : fs_state := snd (fs_write en0 "/a" (bytes "AAAAAAAA") 8 0 created_a).
Definition overwritten_a : fs_state := snd (fs_write en0 "/a" (bytes "bb") 2 3 written_a).

(** Scenario 4: two directories, a file in the first, renamed into the
    second. *)
Definition made_d1 : fs_state := snd (fs_mkdir en0 "/d1" 493 mounted).
Definition made_d2 : fs_state := snd (fs_mkdir en0 "/d2" 493 made_d1).
Definition created_x : fs_state := snd (fs_create en0 "/d1/x" 420 made_d2).
Definition renamed_x : fs_state := snd (fs_rename en0 "/d1/x" "/d2/y" created_x).
Definition moved_x : fs_state := snd (fs_rename en0 "/d1/x" "/d2/x" created_x).

(** Two files; eight bytes go to ["/a"], the object is sealed, then
    eight bytes go to ["/b"] and four more to the end of ["/a"]. *)
Definition created_ab : fs_state := snd (fs_create en0 "/b" 420 created_a).
Definition sealed_a : fs_state :=
  snd (fs_fsync en0 (snd (fs_write en0 "/a" (bytes "AAAAAAAA") 8 0 created_ab))).
Definition appended_a : fs_state :=
  snd (fs_write en0 "/a" (bytes "cccc") 4 8
         (snd (fs_write en0 "/b" (bytes "BBBBBBBB") 8 0 sealed_a))).

(** A symbolic link ["/l"] to ["target"], made by [fs_symlink]. *)
Definition linked : fs_state := snd (fs_symlink en0 "/l" "target" mounted).

(** Object 1 of a bucket: a regular file ["/a"] (inode 2) holding eight
    bytes, and a symbolic link ["/l"] (inode 3) to ["target"]. *)
Definition object1_records : list log_record :=
  [ LOG_INODE 2 (Z.lor S_IFREG 420) 1000 1000 0 (mk_timespec 1700000000 0);
    LOG_CREATE 1 2 "a";
    LOG_DATA 2 0 0 8 8;
    LOG_INODE 3 (Z.lor S_IFLNK 511) 1000 1000 0 (mk_timespec 1700000000 0);
    LOG_SYMLNK 3 "target";
    LOG_CREATE 1 3 "l" ].

Definition object1 : object :=
  mk_object (mk_obj_header OBJFS_MAGIC 1 1
               (sizeof_obj_header + log_bytes object1_records) 1)
    object1_records (bytes "AAAAAAAA").

(** The state after [fs_init] has replayed objects 0 and 1. *)
Definition remounted : fs_state :=
  set_this_index 2
    (snd (read_hdr 1 (o_header object1) (o_records object1)
            (h_hdr_len (o_header object1))
            (set_bucket (<[1 := object1]> (bucket mounted)) mounted))).

(** The inode a path resolves to. *)
Definition inode_of (path : string) (s : fs_state) : option inode :=
  hdr <$> inode_map s !! u32 (path_2_inum path s).

(** The inodes of ["/a"] and ["/l"] as object 1 records them, and a
    later reading of the clock. *)
Definition file_a : inode :=
  mk_inode 2 (Z.lor S_IFREG 420) 1000 1000 0 8 (mk_timespec 1700000000 0).

Definition link_l : inode :=
  mk_inode 3 (Z.lor S_IFLNK 511) 1000 1000 0 0 (mk_timespec 1700000000 0).

Definition later : env := mk_env (mk_timespec 1700000500 7) 1000 1000 true.

(** An object as [write_everything_out] frames it, and [read_hdr] run on
    the whole of its header part. *)
Definition header_for (idx : Z) (recs : list log_record) : obj_header :=
  mk_obj_header OBJFS_MAGIC 1 1 (sizeof_obj_header + log_bytes recs) idx.

Definition replay (idx : Z) (recs : list log_record) (s : fs_state)
    : outcome * fs_state :=
  read_hdr idx (header_for idx recs) recs (sizeof_obj_header + log_bytes recs) s.

(** ["/a"] truncated to four bytes on the live file system and the object
    sealed: object 2 of the bucket, and the bucket replayed at the next
    mount. *)
Definition truncated_a : fs_state :=
  snd (fs_fsync later (snd (fs_truncate later "/a" 4 remounted))).

Definition object2_records : list log_record :=
  [ LOG_TRUNC 2 4;
    LOG_INODE 2 (Z.lor S_IFREG 420) 1000 1000 0 (mk_timespec 1700000500 7) ].

Definition remounted_truncated : fs_state :=
  snd (replay 2 object2_records remounted).

(** A map with a gap: eight bytes at offset 0, four at offset 20. *)
Definition two_extents : internal_map :=
  [(0, mk_extent 1 0 8); (20, mk_extent 1 10 4)].

(** ["/a"] after object 2 has brought four more bytes at offset 12. *)
Definition gapped : fs_state := snd (replay 2 [LOG_DATA 2 0 12 16 4] remounted).




End Scenario.

(* ------------------------------------------------------------------ *)
(** * Facts *)

Lemma u32_range z : 0 <= u32 z < 2 ^ 32.
Proof. unfold u32. apply Z.mod_pos_bound. lia. Qed.

Lemma u32_small z : 0 <= z < 2 ^ 32 -> u32 z = z.
Proof. intros H. unfold u32. apply Z.mod_small. exact H. Qed.

Lemma u32_le z : 0 <= z -> u32 z <= z.
Proof. intros H. unfold u32. apply Z.mod_le; lia. Qed.

Lemma i32_small z : - 2 ^ 31 <= z < 2 ^ 31 -> i32 z = z.
Proof. intros H. unfold i32. rewrite Z.mod_small; lia. Qed.

Example update_bisect_demo :
  Extmap.update 3 (mk_extent 1 8 2) [(0, mk_extent 1 0 8); (20, mk_extent 1 10 1)]
  = [(0, mk_extent 1 0 3); (3, mk_extent 1 8 2); (5, mk_extent 1 5 3);
     (20, mk_extent 1 10 1)].
Proof. vm_compute. reflexivity. Qed.

Example do_trunc_demo :
  Extmap.do_trunc_extents 4 [(0, mk_extent 1 0 8); (10, mk_extent 1 10 2)]
  = [(0, mk_extent 1 0 4)].
Proof. vm_compute. reflexivity. Qed.

Example do_trunc_demo2 :
  Extmap.do_trunc_extents 4 [(0, mk_extent 1 0 8)]
  = [(0, mk_extent 1 0 8)].
Proof. vm_compute. reflexivity. Qed.

(** ** The ordered map primitives *)

Module ExtmapFacts.
Import Extmap.

Lemma sorted_inv a r :
  sorted (a :: r) -> sorted r /\ Forall (key_lt a) r.
Proof. intros H. apply StronglySorted_inv in H. exact H. Qed.

Lemma sorted_cons a r :
  sorted r -> (forall b, In b r -> fst a < fst b) -> sorted (a :: r).
Proof.
  intros Hs Hlt. constructor; [exact Hs|].
  apply Forall_forall. intros b Hb. apply Hlt, list_elem_of_In, Hb.
Qed.

Lemma sorted_head_lt a r b :
  sorted (a :: r) -> In b r -> fst a < fst b.
Proof.
  intros H Hb. apply sorted_inv in H as [_ H].
  rewrite Forall_forall in H. apply H, list_elem_of_In, Hb.
Qed.

Lemma map_set_in k v m a :
  In a (map_set k v m) -> a = (k, v) \/ In a m.
Proof.
  induction m as [|[k' v'] r IH]; simpl.
  - intros [H|[]]. left. congruence.
  - destruct (k <? k'); [|destruct (k =? k')]; simpl; intros H.
    + destruct H as [H|H]; [left; congruence|right; exact H].
    + destruct H as [H|H]; [left; congruence|right; right; exact H].
    + destruct H as [H|H]; [right; left; exact H|].
      destruct (IH H) as [H'|H']; [left; exact H'|right; right; exact H'].
Qed.

Lemma map_set_sorted k v m : sorted m -> sorted (map_set k v m).
Proof.
  induction m as [|[k' v'] r IH]; simpl; intros Hs.
  - apply sorted_cons; [constructor|intros b []].
  - destruct (Z.ltb_spec k k') as [Hlt|Hge].
    + apply sorted_cons; [exact Hs|].
      intros b [<-|Hb]; simpl; [lia|].
      pose proof (sorted_head_lt _ _ _ Hs Hb) as H. simpl in H. lia.
    + destruct (Z.eqb_spec k k') as [->|Hne].
      * apply sorted_inv in Hs as [Hs Hall].
        apply sorted_cons; [exact Hs|].
        intros b Hb. rewrite Forall_forall in Hall.
        apply (Hall b), list_elem_of_In, Hb.
      * pose proof (sorted_inv _ _ Hs) as [Hr _].
        apply sorted_cons; [apply IH, Hr|].
        intros b Hb. apply map_set_in in Hb as [->|Hb]; simpl; [lia|].
        apply (sorted_head_lt _ _ _ Hs Hb).
Qed.

Lemma map_erase_in k m a : In a (map_erase k m) -> In a m.
Proof.
  induction m as [|[k' v'] r IH]; simpl; [tauto|].
  destruct (k =? k'); simpl; intros H; [right; exact H|].
  destruct H as [H|H]; [left; exact H|right; apply IH, H].
Qed.

Lemma map_erase_sorted k m : sorted m -> sorted (map_erase k m).
Proof.
  induction m as [|[k' v'] r IH]; simpl; intros Hs; [exact Hs|].
  pose proof (sorted_inv _ _ Hs) as [Hr _].
  destruct (k =? k'); [exact Hr|].
  apply sorted_cons; [apply IH, Hr|].
  intros b Hb. apply map_erase_in in Hb. apply (sorted_head_lt _ _ _ Hs Hb).
Qed.

Lemma lens_ok_in m a : lens_ok m -> In a m -> 0 <= len (snd a) < 2 ^ 32.
Proof.
  unfold lens_ok. rewrite Forall_forall. intros H Ha.
  apply H, list_elem_of_In, Ha.
Qed.

Lemma lens_ok_intro m :
  (forall a, In a m -> 0 <= len (snd a) < 2 ^ 32) -> lens_ok m.
Proof.
  intros H. apply Forall_forall. intros a Ha. apply H, list_elem_of_In, Ha.
Qed.

Lemma map_set_lens_ok k v m :
  0 <= len v < 2 ^ 32 -> lens_ok m -> lens_ok (map_set k v m).
Proof.
  intros Hv Hm. apply lens_ok_intro. intros a Ha.
  apply map_set_in in Ha as [->|Ha]; [exact Hv|].
  apply (lens_ok_in _ _ Hm Ha).
Qed.

Lemma map_erase_lens_ok k m : lens_ok m -> lens_ok (map_erase k m).
Proof.
  intros Hm. apply lens_ok_intro. intros a Ha.
  apply map_erase_in in Ha. apply (lens_ok_in _ _ Hm Ha).
Qed.

Lemma map_set_wf k v m :
  0 <= len v < 2 ^ 32 -> well_formed m -> well_formed (map_set k v m).
Proof.
  intros Hv [Hs Hl]. split; [apply map_set_sorted, Hs|].
  apply map_set_lens_ok; assumption.
Qed.

Lemma map_erase_wf k m : well_formed m -> well_formed (map_erase k m).
Proof.
  intros [Hs Hl]. split; [apply map_erase_sorted, Hs|].
  apply map_erase_lens_ok, Hl.
Qed.

(** [map_set] keeps every other key and installs the new one. *)
Lemma map_set_has k v m : In (k, v) (map_set k v m).
Proof.
  induction m as [|[k' v'] r IH]; simpl; [left; reflexivity|].
  destruct (k <? k'); [left; reflexivity|].
  destruct (k =? k'); [left; reflexivity|right; exact IH].
Qed.

Lemma map_set_keeps k v m k' v' :
  In (k', v') m -> k' <> k -> In (k', v') (map_set k v m).
Proof.
  induction m as [|[k1 v1] r IH]; simpl; [tauto|].
  intros Hin Hne.
  destruct (k <? k1); [right; exact Hin|].
  destruct (Z.eqb_spec k k1) as [->|Hk].
  - destruct Hin as [Hin|Hin]; [congruence|right; exact Hin].
  - destruct Hin as [Hin|Hin]; [left; exact Hin|right; apply IH; assumption].
Qed.

Lemma lower_bound_in k m a : lower_bound k m = Some a -> In a m /\ k <= fst a.
Proof.
  induction m as [|[k' v'] r IH]; simpl; [discriminate|].
  destruct (Z.leb_spec k k') as [Hle|Hgt].
  - intros [= <-]. split; [left; reflexivity|exact Hle].
  - intros H. destruct (IH H) as [Hin Hk]. split; [right; exact Hin|exact Hk].
Qed.

Lemma lower_bound_found k v m :
  sorted m -> In (k, v) m -> lower_bound k m = Some (k, v).
Proof.
  induction m as [|[k' v'] r IH]; simpl; [tauto|].
  intros Hs [Hin|Hin].
  - injection Hin as -> ->. rewrite Z.leb_refl. reflexivity.
  - pose proof (sorted_head_lt _ _ _ Hs Hin) as Hlt. simpl in Hlt.
    destruct (Z.leb_spec k k'); [lia|].
    apply IH; [apply (sorted_inv _ _ Hs)|exact Hin].
Qed.

Lemma from_lower_bound_found k v m :
  sorted m -> In (k, v) m -> exists rest, from_lower_bound k m = (k, v) :: rest.
Proof.
  induction m as [|[k' v'] r IH]; simpl; [tauto|].
  intros Hs [Hin|Hin].
  - injection Hin as -> ->. rewrite Z.leb_refl. eexists. reflexivity.
  - pose proof (sorted_head_lt _ _ _ Hs Hin) as Hlt. simpl in Hlt.
    destruct (Z.leb_spec k k'); [lia|].
    apply IH; [apply (sorted_inv _ _ Hs)|exact Hin].
Qed.

Lemma before_in k m a : before k m = Some a -> In a m /\ fst a < k.
Proof.
  revert a. induction m as [|[k' v'] r IH]; simpl; intros a; [discriminate|].
  destruct (Z.ltb_spec k' k) as [Hlt|Hge]; [|discriminate].
  destruct (before k r) as [x|] eqn:Hb.
  - intros [= <-]. destruct (IH x eq_refl) as [Hin Hk].
    split; [right; exact Hin|exact Hk].
  - intros [= <-]. split; [left; reflexivity|exact Hlt].
Qed.

Lemma back_in m a : back m = Some a -> In a m.
Proof.
  unfold back. intros H. apply list_elem_of_In.
  apply last_Some in H as [l' ->]. apply elem_of_app. right. constructor.
Qed.

Lemma back_max m a b :
  sorted m -> back m = Some a -> In b m -> fst b <= fst a.
Proof.
  unfold back. induction m as [|c r IH]; simpl; [tauto|].
  intros Hs Hlast Hb. destruct r as [|d r'].
  - simpl in Hlast. injection Hlast as <-. destruct Hb as [->|[]]. lia.
  - rewrite last_cons_cons in Hlast.
    pose proof (sorted_inv _ _ Hs) as [Hr _].
    destruct Hb as [<-|Hb].
    + assert (In a (d :: r')) as Ha by (apply back_in; exact Hlast).
      pose proof (sorted_head_lt _ _ _ Hs Ha). lia.
    + apply IH; assumption.
Qed.

(** *** [update], [erase] and [do_trunc] keep the map well formed *)

Lemma erase_covered_wf ahead off e m :
  well_formed m -> well_formed (snd (erase_covered ahead off e m)).
Proof.
  revert m. induction ahead as [|[key val] rest IH]; simpl; intros m Hm.
  - exact Hm.
  - destruct ((key >=? off) && (key + len val <=? off + len e)); simpl.
    + apply IH, map_erase_wf, Hm.
    + exact Hm.
Qed.

Lemma trim_right_wf it off e m :
  well_formed m -> well_formed (trim_right it off e m).
Proof.
  intros Hm. unfold trim_right. destruct it as [[key val]|]; [|exact Hm].
  destruct (key <? off + len e); [|exact Hm].
  apply map_set_wf; [simpl; apply u32_range|apply map_erase_wf, Hm].
Qed.

Lemma trim_left_wf off e m :
  well_formed m -> well_formed (trim_left off e m).
Proof.
  intros Hm. unfold trim_left.
  destruct (is_begin m (lower_bound off m)); [exact Hm|].
  destruct (it_prev m (lower_bound off m)) as [[key val]|]; [|exact Hm].
  destruct ((key <? off) && (key + len val >? off + len e)).
  - apply map_set_wf; [simpl; apply u32_range|].
    apply map_set_wf; [simpl; apply u32_range|exact Hm].
  - destruct ((key <? off) && (key + len val >? off)); [|exact Hm].
    apply map_set_wf; [simpl; apply u32_range|exact Hm].
Qed.

Lemma update_general_wf off e m :
  0 <= len e < 2 ^ 32 -> well_formed m -> well_formed (update_general off e m).
Proof.
  intros He Hm. unfold update_general.
  destruct (lower_bound off m); [|apply map_set_wf; assumption].
  pose proof (erase_covered_wf (from_lower_bound off m) off e m Hm) as H1.
  destruct (erase_covered (from_lower_bound off m) off e m) as [it m1].
  simpl in H1. apply map_set_wf; [exact He|].
  apply trim_left_wf, trim_right_wf, H1.
Qed.

Lemma update_wf off e m :
  0 <= len e < 2 ^ 32 -> well_formed m -> well_formed (update off e m).
Proof.
  intros He Hm. unfold update.
  destruct (back m) as [[key val]|]; [|apply map_set_wf; assumption].
  destruct (extends_last key val off e).
  - apply map_set_wf; [simpl; apply u32_range|exact Hm].
  - apply update_general_wf; assumption.
Qed.

Lemma erase_wf off m : well_formed m -> well_formed (erase off m).
Proof. apply map_erase_wf. Qed.

(** *** The weight that bounds [do_trunc] *)

Lemma weight_set_le n k v m :
  (trunc_weight n (map_set k v m) <= trunc_weight n m + entry_weight n (k, v))%nat.
Proof.
  induction m as [|[k' v'] r IH]; simpl; [lia|].
  destruct (k <? k'); [simpl; lia|].
  destruct (k =? k'); simpl; lia.
Qed.

Lemma weight_erase_le n k m :
  (trunc_weight n (map_erase k m) <= trunc_weight n m)%nat.
Proof.
  induction m as [|[k' v'] r IH]; simpl; [lia|].
  destruct (k =? k'); simpl; lia.
Qed.

Lemma weight_erase_in n k v m :
  sorted m -> In (k, v) m ->
  (trunc_weight n (map_erase k m) + entry_weight n (k, v) = trunc_weight n m)%nat.
Proof.
  induction m as [|[k' v'] r IH]; simpl; [tauto|].
  intros Hs [Hin|Hin].
  - injection Hin as -> ->. rewrite Z.eqb_refl. lia.
  - pose proof (sorted_head_lt _ _ _ Hs Hin) as Hlt. simpl in Hlt.
    destruct (Z.eqb_spec k k'); [lia|]. simpl.
    pose proof (IH (proj1 (sorted_inv _ _ Hs)) Hin). lia.
Qed.

Lemma weight_set_beyond n k v v0 m :
  sorted m -> In (k, v0) m -> n <= k ->
  trunc_weight n (map_set k v m) = trunc_weight n m.
Proof.
  intros Hs Hin Hn. induction m as [|[k' v'] r IH]; simpl; [destruct Hin|].
  destruct Hin as [Hin|Hin].
  - injection Hin as -> ->. rewrite Z.ltb_irrefl, Z.eqb_refl. simpl.
    unfold entry_weight. simpl. destruct (Z.leb_spec n k); [reflexivity|lia].
  - pose proof (sorted_head_lt _ _ _ Hs Hin) as Hlt. simpl in Hlt.
    destruct (Z.ltb_spec k k'); [lia|].
    destruct (Z.eqb_spec k k'); [lia|]. simpl.
    rewrite IH; [reflexivity|apply (sorted_inv _ _ Hs)|exact Hin].
Qed.

Lemma weight_short n k v :
  k + len v <= n -> k < n -> entry_weight n (k, v) = 0%nat.
Proof.
  intros H1 H2. unfold entry_weight. simpl.
  destruct (Z.leb_spec n k); [lia|].
  destruct (Z.ltb_spec n (k + len v)); [lia|reflexivity].
Qed.

Lemma weight_beyond n k v : n <= k -> entry_weight n (k, v) = 2%nat.
Proof.
  intros H. unfold entry_weight. simpl.
  destruct (Z.leb_spec n k); [reflexivity|lia].
Qed.

Lemma weight_straddle n k v :
  k < n -> n < k + len v -> entry_weight n (k, v) = 3%nat.
Proof.
  intros H1 H2. unfold entry_weight. simpl.
  destruct (Z.leb_spec n k); [lia|].
  destruct (Z.ltb_spec n (k + len v)); [reflexivity|lia].
Qed.

(** In a sorted map nothing between [n] and [lower_bound n] exists. *)
Lemma lower_bound_first n m a b :
  sorted m -> lower_bound n m = Some b -> In a m -> fst a < fst b -> fst a < n.
Proof.
  induction m as [|[k' v'] r IH]; simpl; [discriminate|].
  intros Hs. destruct (Z.leb_spec n k') as [Hle|Hgt].
  - intros [= <-] [<-|Ha]; simpl; [lia|].
    pose proof (sorted_head_lt _ _ _ Hs Ha) as H. simpl in H. lia.
  - intros Hb [<-|Ha] Hlt; [simpl; lia|].
    apply IH; [apply (sorted_inv _ _ Hs)|assumption..].
Qed.

(** What [lookup] can return. *)
Lemma lookup_cases n m off e :
  sorted m -> lookup n m = Some (off, e) ->
  In (off, e) m /\
  (n <= off \/
   (off < n /\ n < off + len e /\
    exists b, lower_bound n m = Some b /\ n < fst b)).
Proof.
  intros Hs. unfold lookup.
  destruct (lower_bound n m) as [[base e1]|] eqn:Hlb; [|discriminate].
  destruct (lower_bound_in _ _ _ Hlb) as [Hin Hle]. simpl in Hle.
  match goal with |- context [if ?c then _ else _] => destruct c eqn:Hc end.
  - apply andb_true_iff in Hc as [Hgt _]. apply Z.gtb_lt in Hgt.
    simpl. destruct (before base m) as [[base0 e0]|] eqn:Hb.
    + destruct (before_in _ _ _ Hb) as [Hin0 Hlt0]. simpl in Hlt0.
      destruct (Z.ltb_spec n (base0 + len e0)) as [Hcont|Hno].
      * intros Heq; inversion Heq; subst; clear Heq. split; [exact Hin0|]. right.
        pose proof (lower_bound_first n m (off, e) (base, e1) Hs Hlb Hin0 Hlt0) as H.
        simpl in H. repeat split; [exact H|exact Hcont|].
        exists (base, e1). split; [reflexivity|exact Hgt].
      * intros Heq; inversion Heq; subst; clear Heq. split; [exact Hin|left; exact Hle].
    + intros Heq; inversion Heq; subst; clear Heq. split; [exact Hin|left; exact Hle].
  - intros Heq; inversion Heq; subst; clear Heq. split; [exact Hin|left; exact Hle].
Qed.

Lemma trim_left_weight n off e m v :
  sorted m -> off + len e = n -> off < n -> In (n, v) m ->
  (trunc_weight n (trim_left off e m) <= trunc_weight n m)%nat.
Proof.
  intros Hs Hend Hoff Hin. unfold trim_left.
  destruct (is_begin m (lower_bound off m)); [lia|].
  destruct (it_prev m (lower_bound off m)) as [[key val]|]; [|lia].
  destruct (Z.ltb_spec key off) as [Hk|Hk]; simpl; [|lia].
  assert (Hshort : entry_weight n (key, with_len val (u32 (off - key))) = 0%nat).
  { apply weight_short; simpl; [|lia].
    pose proof (u32_le (off - key)). lia. }
  destruct (key + len val >? off + len e).
  - rewrite Hend.
    rewrite (weight_set_beyond n n _ v); [| |apply map_set_keeps; [exact Hin|lia]|lia].
    + pose proof (weight_set_le n key (with_len val (u32 (off - key))) m). lia.
    + apply map_set_sorted, Hs.
  - destruct (key + len val >? off); [|lia].
    pose proof (weight_set_le n key (with_len val (u32 (off - key))) m). lia.
Qed.

(** One round of [do_trunc] on the entry that straddles [n]. *)
Lemma update_cut_weight n m off e :
  well_formed m -> lookup n m = Some (off, e) -> off < n ->
  (trunc_weight n (update off (with_len e (u32 (n - off))) m)
   < trunc_weight n m)%nat.
Proof.
  intros [Hs Hl] Hlk Hoff.
  destruct (lookup_cases _ _ _ _ Hs Hlk) as [Hin [Hge|(_ & Hcont & b & Hlb & Hb)]]; [lia|].
  pose proof (lens_ok_in _ _ Hl Hin) as Hlen. simpl in Hlen.
  assert (Hu : u32 (n - off) = n - off) by (apply u32_small; lia).
  rewrite Hu. unfold update.
  destruct (back m) as [[key val]|] eqn:Hback.
  2:{ unfold back in Hback. apply last_None in Hback. subst m. destruct Hin. }
  assert (Hext : extends_last key val off (with_len e (n - off)) = false).
  { unfold extends_last. apply andb_false_iff. left. apply Z.eqb_neq.
    destruct (lower_bound_in _ _ _ Hlb) as [Hbin _].
    pose proof (back_max _ _ _ Hs Hback Hbin) as Hmax. simpl in Hmax.
    pose proof (lens_ok_in _ _ Hl (back_in _ _ Hback)) as Hv. simpl in Hv. lia. }
  rewrite Hext. unfold update_general.
  rewrite (lower_bound_found _ _ _ Hs Hin).
  destruct (from_lower_bound_found _ _ _ Hs Hin) as [rest ->]. simpl.
  replace (off >=? off) with true by (symmetry; apply Z.geb_le; lia).
  replace (off + len e <=? off + (n - off)) with false
    by (symmetry; apply Z.leb_gt; lia).
  simpl.
  replace (off <? off + (n - off)) with true by (symmetry; apply Z.ltb_lt; lia).
  replace (off + (n - off)) with n by lia.
  set (val2 := with_offset _ _).
  set (m2 := map_set n val2 (map_erase off m)).
  assert (Hs2 : sorted m2) by (apply map_set_sorted, map_erase_sorted, Hs).
  assert (Hw2 : (trunc_weight n m2 + 1 <= trunc_weight n m)%nat).
  { pose proof (weight_set_le n n val2 (map_erase off m)) as H1.
    pose proof (weight_erase_in n off e m Hs Hin) as H2.
    rewrite (weight_beyond n n val2) in H1 by lia.
    rewrite (weight_straddle n off e) in H2 by lia.
    fold m2 in H1. lia. }
  pose proof (trim_left_weight n off (with_len e (n - off)) m2 val2 Hs2) as H3.
  simpl in H3. specialize (H3 ltac:(lia) Hoff (map_set_has _ _ _)).
  pose proof (weight_set_le n off (with_len e (n - off))
                (trim_left off (with_len e (n - off)) m2)) as H4.
  rewrite weight_short in H4 by (simpl; lia). lia.
Qed.

Lemma erase_found_weight n m off e :
  sorted m -> In (off, e) m -> n <= off ->
  (trunc_weight n (erase off m) < trunc_weight n m)%nat.
Proof.
  intros Hs Hin Hn. unfold erase.
  pose proof (weight_erase_in n off e m Hs Hin) as H.
  rewrite weight_beyond in H by exact Hn. lia.
Qed.

(** [do_trunc] terminates: with fuel above the weight the loop ends on
    a map in which [lookup new_size] finds nothing. *)
Lemma do_trunc_loop_enough fuel : forall n m,
  well_formed m -> (trunc_weight n m < fuel)%nat ->
  exists m', do_trunc_loop fuel n m = Some m' /\ well_formed m' /\
             lookup n m' = None.
Proof.
  induction fuel as [|fuel IH]; intros n m Hm Hf; [lia|].
  simpl. destruct (lookup n m) as [[off e]|] eqn:Hlk.
  - destruct (lookup_cases _ _ _ _ (proj1 Hm) Hlk) as [Hin _].
    destruct (Z.ltb_spec off n) as [Hlt|Hge].
    + apply IH.
      * apply update_wf; [simpl; apply u32_range|exact Hm].
      * pose proof (update_cut_weight n m off e Hm Hlk Hlt). lia.
    + apply IH.
      * apply erase_wf, Hm.
      * pose proof (erase_found_weight n m off e (proj1 Hm) Hin Hge). lia.
  - exists m. repeat split; [apply Hm..|exact Hlk].
Qed.

Lemma do_trunc_loop_more fuel : forall n m m' fuel',
  do_trunc_loop fuel n m = Some m' -> (fuel <= fuel')%nat ->
  do_trunc_loop fuel' n m = Some m'.
Proof.
  induction fuel as [|fuel IH]; intros n m m' fuel' H Hle; [discriminate|].
  destruct fuel' as [|fuel']; [lia|]. simpl in *.
  destruct (lookup n m) as [[off e]|]; [|exact H].
  destruct (off <? n); apply (IH _ _ _ fuel') in H; (exact H || lia).
Qed.

(** The fuel [do_trunc_extents] runs with is enough on every map a
    [std::map] can hold, and any larger amount gives the same map. *)
Lemma do_trunc_extents_total n m :
  well_formed m ->
  (forall fuel, (trunc_fuel n m <= fuel)%nat ->
     do_trunc_loop fuel n m = Some (do_trunc_extents n m)) /\
  well_formed (do_trunc_extents n m) /\
  lookup n (do_trunc_extents n m) = None.
Proof.
  intros Hm.
  destruct (do_trunc_loop_enough (trunc_fuel n m) n m Hm) as (m' & Hrun & Hwf & Hend).
  { unfold trunc_fuel. lia. }
  unfold do_trunc_extents. rewrite Hrun.
  split; [|split; assumption].
  intros fuel Hf. apply (do_trunc_loop_more _ _ _ _ _ Hrun Hf).
Qed.

End ExtmapFacts.

(** ** Replay, flush and the entry points *)

Module ObjfsFacts.
Import Objfs.

Lemma bad_format_nonzero : bad_format <> 0.
Proof. vm_compute. discriminate. Qed.

(** The records in front of a point of the log only matter through the
    state they leave. *)
Lemma read_records_app idx pre rest : forall s s1,
  read_records idx pre s = (Ret 0, s1) ->
  read_records idx (pre ++ rest) s = read_records idx rest s1.
Proof.
  induction pre as [|rec pre IH]; simpl; intros s s1 H.
  - injection H as <-. reflexivity.
  - destruct (read_record idx rec s) as [[v| |] s'].
    + destruct (v <? 0).
      * injection H as H _. exfalso. apply bad_format_nonzero, H.
      * apply IH, H.
    + discriminate.
    + discriminate.
Qed.

(** The first loop of [write_everything_out] only appends to the
    metadata log, one record for each key the table owns. *)
Section WriteDirty.
Variable tbl : gmap Z fs_obj.

Let emit (acc : fs_state) (k : Z) : fs_state :=
  match tbl !! k with
  | Some o => write_inode o acc
  | None => acc
  end.

Lemma emit_frame acc k :
  inode_map (emit acc k) = inode_map acc /\
  this_index (emit acc k) = this_index acc /\
  bucket (emit acc k) = bucket acc /\
  forall r, In r (meta_log acc) -> In r (meta_log (emit acc k)).
Proof.
  unfold emit. destruct (tbl !! k); simpl; repeat split; auto.
  intros r Hr. apply in_or_app. left. exact Hr.
Qed.

Lemma foldl_emit_frame keys : forall acc,
  inode_map (foldl emit acc keys) = inode_map acc /\
  this_index (foldl emit acc keys) = this_index acc /\
  bucket (foldl emit acc keys) = bucket acc /\
  forall r, In r (meta_log acc) -> In r (meta_log (foldl emit acc keys)).
Proof.
  induction keys as [|k keys IH]; intros acc; simpl.
  - repeat split; auto.
  - destruct (IH (emit acc k)) as (H1 & H2 & H3 & H4).
    destruct (emit_frame acc k) as (E1 & E2 & E3 & E4).
    repeat split; try congruence. intros r Hr. apply H4, E4, Hr.
Qed.

Lemma foldl_emit_record keys : forall acc k o,
  In k keys -> tbl !! k = Some o ->
  In (inode_record o) (meta_log (foldl emit acc keys)).
Proof.
  induction keys as [|k' keys IH]; intros acc k o Hk Ho; simpl; [destruct Hk|].
  destruct Hk as [->|Hk].
  - destruct (foldl_emit_frame keys (emit acc k)) as (_ & _ & _ & Hkeep).
    apply Hkeep. unfold emit. rewrite Ho. simpl.
    apply in_or_app. right. left. reflexivity.
  - apply (IH _ k o Hk Ho).
Qed.
End WriteDirty.

Lemma write_dirty_frame keys s :
  inode_map (write_dirty keys s) = inode_map s /\
  this_index (write_dirty keys s) = this_index s /\
  bucket (write_dirty keys s) = bucket s.
Proof.
  unfold write_dirty.
  destruct (foldl_emit_frame (inode_map s) keys s) as (H1 & H2 & H3 & _).
  auto.
Qed.

Lemma write_dirty_record keys s k o :
  In k keys -> inode_map s !! k = Some o ->
  In (inode_record o) (meta_log (write_dirty keys s)).
Proof. intros Hk Ho. apply (foldl_emit_record (inode_map s) keys s k o Hk Ho). Qed.



End ObjfsFacts.

(* ------------------------------------------------------------------ *)
(** ** The extent map: what [lookup], [update], [erase] and [do_trunc]
       guarantee *)

Module ExtmapInvariants.
Import Extmap ExtmapFacts.

(** A sorted map has one value for a key. *)
Lemma sorted_unique m k v v' :
  sorted m -> In (k, v) m -> In (k, v') m -> v = v'.
Proof.
  induction m as [|a r IH]; simpl; [tauto|].
  intros Hs [H1|H1] [H2|H2].
  - congruence.
  - subst a. pose proof (sorted_head_lt _ _ _ Hs H2) as H. simpl in H. lia.
  - subst a. pose proof (sorted_head_lt _ _ _ Hs H1) as H. simpl in H. lia.
  - apply IH; [apply (sorted_inv _ _ Hs)|assumption..].
Qed.

Lemma map_set_in_other k0 v0 m k v :
  sorted m -> In (k, v) (map_set k0 v0 m) ->
  (k, v) = (k0, v0) \/ (In (k, v) m /\ k <> k0).
Proof.
  intros Hs Hin.
  destruct (Z.eq_dec k k0) as [->|Hne].
  - left. f_equal.
    apply (sorted_unique (map_set k0 v0 m) k0); [apply map_set_sorted, Hs|exact Hin|].
    apply map_set_has.
  - apply map_set_in in Hin as [Heq|Hin]; [left; exact Heq|right; split; assumption].
Qed.

Lemma map_erase_in_other k0 m k v :
  sorted m -> In (k, v) (map_erase k0 m) -> In (k, v) m /\ k <> k0.
Proof.
  induction m as [|[k' v'] r IH]; simpl; [tauto|].
  intros Hs. destruct (Z.eqb_spec k0 k') as [->|Hne].
  - intros Hin. split; [right; exact Hin|].
    pose proof (sorted_head_lt _ _ _ Hs Hin) as H. simpl in H. lia.
  - intros [Hin|Hin].
    + injection Hin as -> ->. split; [left; reflexivity|congruence].
    + destruct (IH (proj1 (sorted_inv _ _ Hs)) Hin) as [H1 H2].
      split; [right; exact H1|exact H2].
Qed.

Lemma map_erase_keeps k0 m k v :
  In (k, v) m -> k <> k0 -> In (k, v) (map_erase k0 m).
Proof.
  induction m as [|[k' v'] r IH]; simpl; [tauto|].
  intros Hin Hne. destruct (Z.eqb_spec k0 k') as [->|Hk].
  - destruct Hin as [Hin|Hin]; [congruence|exact Hin].
  - destruct Hin as [Hin|Hin]; [left; exact Hin|right; apply IH; assumption].
Qed.

(** Installing an entry that its neighbours leave room for. *)
Lemma map_set_non_overlap k0 v0 m :
  sorted m -> non_overlap m ->
  (forall k v, In (k, v) m -> k < k0 -> k + len v <= k0) ->
  (forall k v, In (k, v) m -> k0 < k -> k0 + len v0 <= k) ->
  non_overlap (map_set k0 v0 m).
Proof.
  intros Hs Hno Hlo Hhi k1 e1 k2 e2 H1 H2 Hlt.
  apply (map_set_in_other _ _ _ _ _ Hs) in H1, H2.
  destruct H1 as [H1|[H1 N1]], H2 as [H2|[H2 N2]].
  - injection H1 as -> ->. injection H2 as -> ->. lia.
  - injection H1 as -> ->. apply (Hhi _ _ H2 Hlt).
  - injection H2 as -> ->. apply (Hlo _ _ H1 Hlt).
  - apply (Hno _ _ _ _ H1 H2 Hlt).
Qed.

Lemma map_erase_non_overlap k0 m : non_overlap m -> non_overlap (map_erase k0 m).
Proof.
  intros H k1 e1 k2 e2 H1 H2. apply map_erase_in in H1, H2. apply (H _ _ _ _ H1 H2).
Qed.

(** Where the iterators of [update] stand. *)
Lemma lower_bound_none k m a : lower_bound k m = None -> In a m -> fst a < k.
Proof.
  induction m as [|[k' v'] r IH]; simpl; [tauto|].
  destruct (Z.leb_spec k k') as [Hle|Hgt]; [discriminate|].
  intros Hn [<-|Ha]; [simpl; lia|apply IH; assumption].
Qed.

Lemma lower_bound_some k m a : In a m -> k <= fst a -> lower_bound k m <> None.
Proof.
  intros Ha Hk H. pose proof (lower_bound_none _ _ _ H Ha). lia.
Qed.

Lemma from_lower_bound_in k m a : In a (from_lower_bound k m) -> In a m.
Proof.
  induction m as [|[k' v'] r IH]; simpl; [tauto|].
  destruct (k <=? k'); [tauto|]. intros H. right. apply IH, H.
Qed.

Lemma from_lower_bound_all k m a :
  sorted m -> In a m -> k <= fst a -> In a (from_lower_bound k m).
Proof.
  induction m as [|[k' v'] r IH]; simpl; [tauto|].
  intros Hs Ha Hk. destruct (Z.leb_spec k k'); [exact Ha|].
  destruct Ha as [<-|Ha]; [simpl in Hk; lia|].
  apply IH; [apply (sorted_inv _ _ Hs)|assumption..].
Qed.

Lemma from_lower_bound_sorted k m :
  sorted m -> sorted (from_lower_bound k m) /\
              forall a, In a (from_lower_bound k m) -> k <= fst a.
Proof.
  induction m as [|[k' v'] r IH]; simpl; intros Hs.
  - split; [constructor|tauto].
  - destruct (Z.leb_spec k k') as [Hle|Hgt].
    + split; [exact Hs|]. intros a [<-|Ha]; [exact Hle|].
      pose proof (sorted_head_lt _ _ _ Hs Ha) as H. simpl in H. lia.
    + apply IH, (sorted_inv _ _ Hs).
Qed.

Lemma before_max k m a b :
  sorted m -> before k m = Some a -> In b m -> fst b < k -> fst b <= fst a.
Proof.
  revert a. induction m as [|[k' v'] r IH]; simpl; intros a Hs; [discriminate|].
  destruct (Z.ltb_spec k' k) as [Hlt|Hge]; [|discriminate].
  destruct (before k r) as [x|] eqn:Hb.
  - intros [= <-] [<-|Hb'] Hk.
    + destruct (before_in _ _ _ Hb) as [Hx _].
      pose proof (sorted_head_lt _ _ _ Hs Hx) as H. simpl in *. lia.
    + apply (IH x (proj1 (sorted_inv _ _ Hs)) eq_refl Hb' Hk).
  - intros [= <-] [<-|Hb'] Hk; [lia|].
    exfalso. clear IH. destruct r as [|[k2 v2] r2]; [destruct Hb'|].
    simpl in Hb. destruct (Z.ltb_spec k2 k) as [H2|H2].
    + destruct (before k r2); discriminate.
    + destruct Hb' as [<-|Hb']; [simpl in Hk; lia|].
      pose proof (sorted_head_lt _ _ _ (proj1 (sorted_inv _ _ Hs)) Hb') as H.
      simpl in H. lia.
Qed.

Lemma before_none k m b :
  sorted m -> before k m = None -> In b m -> k <= fst b.
Proof.
  destruct m as [|[k' v'] r]; simpl; [tauto|].
  intros Hs. destruct (Z.ltb_spec k' k) as [Hlt|Hge].
  - destruct (before k r); discriminate.
  - intros _ [<-|Hb]; [exact Hge|].
    pose proof (sorted_head_lt _ _ _ Hs Hb) as H. simpl in H. lia.
Qed.

(** The entry [it--] reaches from [lower_bound off] is the last one
    below [off]; none is below [off] when that iterator is [begin()]. *)
Lemma prev_of_lower_bound off m key val :
  sorted m -> it_prev m (lower_bound off m) = Some (key, val) ->
  In (key, val) m /\ key < off /\ forall b, In b m -> fst b < off -> fst b <= key.
Proof.
  intros Hs. destruct (lower_bound off m) as [[base e1]|] eqn:Hlb; simpl.
  - intros Hb. destruct (before_in _ _ _ Hb) as [Hin Hlt]. simpl in Hlt.
    destruct (lower_bound_in _ _ _ Hlb) as [Hbase Hge]. simpl in Hge.
    pose proof (lower_bound_first off m _ _ Hs Hlb Hin Hlt) as Hk. simpl in Hk.
    repeat split; [exact Hin|exact Hk|].
    intros b Hbm Hb'. apply (before_max base m (key, val) b Hs Hb Hbm). lia.
  - intros Hb. pose proof (back_in _ _ Hb) as Hin.
    pose proof (lower_bound_none _ _ _ Hlb Hin) as Hk. simpl in Hk.
    repeat split; [exact Hin|exact Hk|].
    intros b Hbm _. apply (back_max m (key, val) b Hs Hb Hbm).
Qed.

Lemma no_prev_of_lower_bound off m b :
  sorted m ->
  is_begin m (lower_bound off m) = true \/ it_prev m (lower_bound off m) = None ->
  In b m -> off <= fst b.
Proof.
  intros Hs H Hb. destruct (lower_bound off m) as [[base e1]|] eqn:Hlb.
  - destruct (lower_bound_in _ _ _ Hlb) as [Hbase Hge]. simpl in Hge.
    destruct H as [H|H].
    + destruct m as [|[k' v'] r]; [destruct Hb|]. simpl in H.
      apply Z.eqb_eq in H. subst k'.
      destruct Hb as [<-|Hb]; [exact Hge|].
      pose proof (sorted_head_lt _ _ _ Hs Hb) as Hlt. simpl in Hlt. lia.
    + simpl in H.
      destruct (Z.le_gt_cases off (fst b)) as [Hle|Hgt]; [exact Hle|].
      pose proof (before_none base m b Hs H Hb). lia.
  - destruct H as [H|H].
    + destruct m; [destruct Hb|discriminate H].
    + simpl in H. unfold back in H. apply last_None in H. subst m. destruct Hb.
Qed.

(** *** [update] outside its "end of the list" exit *)

Section UpdateGeneral.
Variables (off : Z) (e : extent).
Hypothesis He : 0 <= len e < 2 ^ 32.

(** The loop that erases covered entries stops on the first entry at or
    beyond [off] that reaches past the new extent. *)
Lemma erase_covered_stop ahead : forall m,
  well_formed m -> non_overlap m -> sorted ahead ->
  (forall a, In a ahead -> In a m /\ off <= fst a) ->
  (forall a, In a m -> off <= fst a -> In a ahead) ->
  let it := fst (erase_covered ahead off e m) in
  let m1 := snd (erase_covered ahead off e m) in
  well_formed m1 /\ non_overlap m1 /\
  (forall a, In a m1 -> In a m) /\
  (forall a, In a m -> fst a < off -> In a m1) /\
  (forall a, In a m1 -> off <= fst a ->
     exists key val, it = Some (key, val) /\ key <= fst a) /\
  (forall key val, it = Some (key, val) ->
     In (key, val) m1 /\ off <= key /\ off + len e < key + len val).
Proof.
  induction ahead as [|[key val] rest IH]; intros m Hwf Hno Hsa Hsub Hall; simpl.
  - split; [exact Hwf|]. split; [exact Hno|]. split; [auto|]. split; [auto|].
    split.
    + intros a Ha Hk. destruct (Hall a Ha Hk).
    + intros key val H. discriminate H.
  - destruct (Hsub (key, val) (or_introl eq_refl)) as [Hin Hk]. simpl in Hk.
    destruct (Z.geb_spec key off) as [_|Hlt]; [|lia]. simpl.
    destruct (Z.leb_spec (key + len val) (off + len e)) as [Hcov|Hnot]; simpl.
    + assert (Hwf' : well_formed (map_erase key m)) by (apply map_erase_wf, Hwf).
      destruct (IH (map_erase key m) Hwf' (map_erase_non_overlap key m Hno)
                  (proj1 (sorted_inv _ _ Hsa))) as (H1 & H2 & H3 & H4 & H5 & H6).
      * intros a Ha. destruct (Hsub a (or_intror Ha)) as [Ham Hak].
        split; [|exact Hak]. destruct a as [k v]. apply map_erase_keeps; [exact Ham|].
        pose proof (sorted_head_lt _ _ _ Hsa Ha) as H. simpl in H. lia.
      * intros [k v] Ha Hak.
        apply (map_erase_in_other _ _ _ _ (proj1 Hwf)) in Ha as [Ham Hne].
        destruct (Hall _ Ham Hak) as [Heq|Hr]; [congruence|exact Hr].
      * split; [exact H1|]. split; [exact H2|].
        split; [intros a Ha; apply (map_erase_in key m), H3, Ha|].
        split; [|split; [exact H5|exact H6]].
        intros [k v] Ha Hak. apply H4; [|exact Hak].
        apply map_erase_keeps; [exact Ha|]. simpl in Hak. lia.
    + split; [exact Hwf|]. split; [exact Hno|]. split; [auto|]. split; [auto|].
      split.
      * intros a Ha Hak. exists key, val. split; [reflexivity|].
        destruct (Hall a Ha Hak) as [<-|Hr]; [simpl; lia|].
        pose proof (sorted_head_lt _ _ _ Hsa Hr) as H. simpl in H. lia.
      * intros key' val' H. injection H as <- <-.
        split; [exact Hin|]. split; [exact Hk|lia].
Qed.

(** After the right-hand trim nothing starts inside the new extent. *)
Lemma trim_right_clears it m1 :
  well_formed m1 -> non_overlap m1 ->
  (forall a, In a m1 -> off <= fst a ->
     exists key val, it = Some (key, val) /\ key <= fst a) ->
  (forall key val, it = Some (key, val) ->
     In (key, val) m1 /\ off <= key /\ off + len e < key + len val) ->
  let m2 := trim_right it off e m1 in
  well_formed m2 /\ non_overlap m2 /\
  (forall a, In a m2 -> off <= fst a -> off + len e <= fst a).
Proof.
  intros Hwf Hno Hge Hit. simpl.
  split; [apply trim_right_wf, Hwf|].
  unfold trim_right. destruct it as [[key val]|].
  2:{ split; [exact Hno|]. intros a Ha Hk.
      destruct (Hge a Ha Hk) as (? & ? & H & _). discriminate H. }
  destruct (Hit key val eq_refl) as (Hin & Hk & Hend).
  assert (Hfar : forall k v, In (k, v) m1 -> k <> key -> off <= k -> key + len val <= k).
  { intros k v Ha Hne Hok. destruct (Hge _ Ha Hok) as (key' & val' & Heq & Hle).
    injection Heq as <- <-. simpl in Hle. apply (Hno _ _ _ _ Hin Ha). lia. }
  destruct (Z.ltb_spec key (off + len e)) as [Hlt|Hfine].
  - pose proof (lens_ok_in _ _ (proj2 Hwf) Hin) as Hlen. simpl in Hlen.
    assert (Hu : u32 (len val - (off + len e - key)) = key + len val - (off + len e))
      by (rewrite u32_small; lia).
    cbv zeta. set (val2 := with_offset _ _).
    assert (Hl2 : len val2 = key + len val - (off + len e)) by (simpl; exact Hu).
    assert (Hs1 : sorted (map_erase key m1)) by (apply map_erase_sorted, Hwf).
    split.
    + apply map_set_non_overlap; [exact Hs1|apply map_erase_non_overlap, Hno|..].
      * intros k v Ha Hk'.
        apply (map_erase_in_other _ _ _ _ (proj1 Hwf)) in Ha as [Ha Hne].
        destruct (Z.lt_ge_cases k off) as [Hlo|Hhi].
        -- pose proof (Hno _ _ _ _ Ha Hin ltac:(lia)). lia.
        -- pose proof (Hfar _ _ Ha Hne Hhi). lia.
      * intros k v Ha Hk'.
        apply (map_erase_in_other _ _ _ _ (proj1 Hwf)) in Ha as [Ha Hne].
        pose proof (Hfar _ _ Ha Hne ltac:(lia)). lia.
    + intros [k v] Ha Hok. simpl in *.
      apply (map_set_in_other _ _ _ _ _ Hs1) in Ha as [Heq|[Ha _]].
      * injection Heq as -> _. lia.
      * apply (map_erase_in_other _ _ _ _ (proj1 Hwf)) in Ha as [Ha Hne].
        pose proof (Hfar _ _ Ha Hne Hok). lia.
  - split; [exact Hno|]. intros a Ha Hok.
    destruct (Hge _ Ha Hok) as (key' & val' & Heq & Hle).
    injection Heq as <- <-. lia.
Qed.

(** After the bisection or left-hand trim nothing below [off] reaches
    past [off]. *)
Lemma trim_left_clears m2 :
  well_formed m2 -> non_overlap m2 ->
  (forall a, In a m2 -> off <= fst a -> off + len e <= fst a) ->
  let m3 := trim_left off e m2 in
  well_formed m3 /\ non_overlap m3 /\
  (forall a, In a m3 -> off <= fst a -> off + len e <= fst a) /\
  (forall a, In a m3 -> fst a < off -> fst a + len (snd a) <= off).
Proof.
  intros Hwf Hno Hge. simpl.
  split; [apply trim_left_wf, Hwf|].
  unfold trim_left.
  destruct (is_begin m2 (lower_bound off m2)) eqn:Hbeg.
  { split; [exact Hno|]. split; [exact Hge|]. intros a Ha Hlt.
    pose proof (no_prev_of_lower_bound off m2 a (proj1 Hwf) (or_introl Hbeg) Ha). lia. }
  destruct (it_prev m2 (lower_bound off m2)) as [[key val]|] eqn:Hprev.
  2:{ split; [exact Hno|]. split; [exact Hge|]. intros a Ha Hlt.
      pose proof (no_prev_of_lower_bound off m2 a (proj1 Hwf) (or_intror Hprev) Ha). lia. }
  destruct (prev_of_lower_bound off m2 key val (proj1 Hwf) Hprev) as (Hin & Hk & Hmax).
  pose proof (lens_ok_in _ _ (proj2 Hwf) Hin) as Hlen. simpl in Hlen.
  assert (Hbelow : forall k v, In (k, v) m2 -> k <> key -> k < off -> k + len v <= key).
  { intros k v Ha Hne Hlt. pose proof (Hmax _ Ha Hlt) as Hle. simpl in Hle.
    apply (Hno _ _ _ _ Ha Hin). lia. }
  assert (Hshort : forall k v, In (k, v) (map_set key (with_len val (u32 (off - key))) m2) ->
                     ((k, v) = (key, with_len val (u32 (off - key)))
                      \/ (In (k, v) m2 /\ k <> key))).
  { intros k v. apply map_set_in_other, Hwf. }
  assert (Hno1 : key + len val > off ->
                 non_overlap (map_set key (with_len val (u32 (off - key))) m2)).
  { intros Hover. apply map_set_non_overlap; [apply Hwf|exact Hno|..]; simpl.
    - intros k v Ha Hlt. apply (Hno _ _ _ _ Ha Hin Hlt).
    - intros k v Ha Hlt. rewrite u32_small by lia.
      pose proof (Hno _ _ _ _ Hin Ha Hlt). lia. }
  destruct (Z.ltb_spec key off) as [_|Hbad]; [|lia]. simpl.
  destruct (Z.gtb_spec (key + len val) (off + len e)) as [Hbis|Hnob].
  - (* bisection *)
    assert (Hu1 : u32 (off - key) = off - key) by (apply u32_small; lia).
    assert (Hu3 : u32 (len val - (off + len e - key)) = key + len val - (off + len e))
      by (rewrite u32_small; lia).
    cbv zeta. set (val1 := with_len val (u32 (off - key))) in *.
    set (val3 := with_len _ _).
    assert (Hl3 : len val3 = key + len val - (off + len e)) by (simpl; exact Hu3).
    assert (Hs1 : sorted (map_set key val1 m2)) by (apply map_set_sorted, Hwf).
    assert (Hfar : forall k v, In (k, v) m2 -> k <> key -> off <= k -> key + len val <= k).
    { intros k v Ha Hne Hok. apply (Hno _ _ _ _ Hin Ha). lia. }
    split; [|split].
    + apply map_set_non_overlap; [exact Hs1|apply Hno1; lia|..].
      * intros k v Ha Hlt. apply Hshort in Ha as [Heq|[Ha Hne]].
        -- injection Heq as -> ->. simpl. lia.
        -- destruct (Z.lt_ge_cases k off) as [Hlo|Hhi].
           ++ pose proof (Hbelow _ _ Ha Hne Hlo). lia.
           ++ pose proof (Hfar _ _ Ha Hne Hhi). lia.
      * intros k v Ha Hlt. apply Hshort in Ha as [Heq|[Ha Hne]].
        -- injection Heq as -> ->. lia.
        -- pose proof (Hfar _ _ Ha Hne ltac:(lia)). lia.
    + intros [k v] Ha Hok. simpl in *.
      apply (map_set_in_other _ _ _ _ _ Hs1) in Ha as [Heq|[Ha _]].
      * injection Heq as -> _. lia.
      * apply Hshort in Ha as [Heq|[Ha Hne]].
        -- injection Heq as -> _. lia.
        -- apply (Hge _ Ha Hok).
    + intros [k v] Ha Hlt. simpl in *.
      apply (map_set_in_other _ _ _ _ _ Hs1) in Ha as [Heq|[Ha _]].
      * injection Heq as -> _. lia.
      * apply Hshort in Ha as [Heq|[Ha Hne]].
        -- injection Heq as -> ->. simpl. lia.
        -- pose proof (Hbelow _ _ Ha Hne Hlt). lia.
  - destruct (Z.gtb_spec (key + len val) off) as [Hover|Hfine].
    + (* left-hand overlap *)
      assert (Hu1 : u32 (off - key) = off - key) by (apply u32_small; lia).
      split; [apply Hno1; lia|]. split.
      * intros [k v] Ha Hok. simpl in *. apply Hshort in Ha as [Heq|[Ha Hne]].
        -- injection Heq as -> _. lia.
        -- apply (Hge _ Ha Hok).
      * intros [k v] Ha Hlt. simpl in *. apply Hshort in Ha as [Heq|[Ha Hne]].
        -- injection Heq as -> ->. simpl. lia.
        -- pose proof (Hbelow _ _ Ha Hne Hlt). lia.
    + split; [exact Hno|]. split; [exact Hge|].
      intros [k v] Ha Hlt. simpl in *.
      destruct (Z.eq_dec k key) as [->|Hne].
      * rewrite (sorted_unique m2 key v val (proj1 Hwf) Ha Hin). lia.
      * pose proof (Hbelow _ _ Ha Hne Hlt). lia.
Qed.

(** The general path of [update] clears the range of the new extent:
    besides the new entry, everything left starts at or after its end or
    ends at or before its start. *)
Lemma update_general_clears m :
  well_formed m -> non_overlap m -> lower_bound off m <> None ->
  let r := update_general off e m in
  well_formed r /\ non_overlap r /\ In (off, e) r /\
  forall k v, In (k, v) r ->
    (k, v) = (off, e) \/ off + len e <= k \/ (k < off /\ k + len v <= off).
Proof.
  intros Hwf Hno Hlb. simpl.
  split; [apply update_general_wf; assumption|].
  unfold update_general. destruct (lower_bound off m) eqn:Hl; [clear Hlb|congruence].
  destruct (from_lower_bound_sorted off m (proj1 Hwf)) as [Hsa Hak].
  destruct (erase_covered_stop (from_lower_bound off m) m Hwf Hno Hsa)
    as (W1 & N1 & _ & _ & G1 & I1).
  { intros a Ha. split; [apply (from_lower_bound_in off m a Ha)|apply Hak, Ha]. }
  { intros a Ha Hk. apply from_lower_bound_all; [apply Hwf|assumption..]. }
  destruct (erase_covered (from_lower_bound off m) off e m) as [it m1]. simpl in *.
  destruct (trim_right_clears it m1 W1 N1 G1 I1) as (W2 & N2 & G2).
  destruct (trim_left_clears _ W2 N2 G2) as (W3 & N3 & G3 & L3).
  set (m3 := trim_left off e (trim_right it off e m1)) in *.
  split; [|split; [apply map_set_has|]].
  - apply map_set_non_overlap; [apply W3|exact N3|..].
    + intros k v Ha Hlt. apply (L3 _ Ha Hlt).
    + intros k v Ha Hlt. apply (G3 (k, v) Ha). simpl. lia.
  - intros k v Ha. apply (map_set_in_other _ _ _ _ _ (proj1 W3)) in Ha as [Heq|[Ha Hne]].
    + left. exact Heq.
    + right. destruct (Z.lt_ge_cases k off) as [Hlo|Hhi].
      * right. split; [exact Hlo|apply (L3 _ Ha Hlo)].
      * left. apply (G3 _ Ha Hhi).
Qed.

End UpdateGeneral.

(** *** [lookup] *)

Ltac on_guard :=
  match goal with
  | |- context [andb ?a ?b] => destruct (andb a b)
  | H : context [andb ?a ?b] |- _ => destruct (andb a b)
  end.

Lemma lookup_none_lower_bound off m :
  lookup off m = None <-> lower_bound off m = None.
Proof.
  unfold lookup. destruct (lower_bound off m) as [[base e1]|]; [|tauto].
  split; [|intros H; discriminate H].
  on_guard; [|intros H; discriminate H].
  simpl. destruct (before base m) as [[base0 e0]|]; [|intros H; discriminate H].
  destruct (off <? base0 + len e0); intros H; discriminate H.
Qed.

(** [lookup] returns [end()] exactly when every key is below the offset,
    whether or not an entry contains it. *)
Lemma lookup_end_iff_aux off m :
  lookup off m = None <-> forall a, In a m -> fst a < off.
Proof.
  rewrite lookup_none_lower_bound. split.
  - intros H a Ha. apply (lower_bound_none _ _ _ H Ha).
  - intros H. destruct (lower_bound off m) as [a|] eqn:Hl; [|reflexivity].
    destruct (lower_bound_in _ _ _ Hl) as [Ha Hk]. specialize (H a Ha). lia.
Qed.

(** When some key is at or above the offset, [lookup] finds the entry
    that contains the offset. *)
Lemma lookup_finds_containing_aux off m k e :
  sorted m -> non_overlap m ->
  lower_bound off m <> None ->
  In (k, e) m -> k <= off < k + len e ->
  lookup off m = Some (k, e).
Proof.
  intros Hs Hno Hlb Hin Hc. unfold lookup.
  destruct (lower_bound off m) as [[base e1]|] eqn:Hl; [clear Hlb|congruence].
  destruct (lower_bound_in _ _ _ Hl) as [Hbin Hge]. simpl in Hge.
  destruct (Z.eq_dec base off) as [->|Hne].
  - assert (k = off).
    { destruct (Z.eq_dec k off) as [|Hk]; [assumption|].
      pose proof (Hno _ _ _ _ Hin Hbin ltac:(lia)). lia. }
    subst k. rewrite (sorted_unique m off e e1 Hs Hin Hbin).
    rewrite Z.gtb_ltb, Z.ltb_irrefl.
    reflexivity.
  - assert (Hgt : (base >? off) = true) by (apply Z.gtb_lt; lia). rewrite Hgt.
    assert (Hnb : is_begin m (@Some entry (base, e1)) = false).
    { destruct m as [|[k' v'] r]; [destruct Hin|]. simpl.
      apply Z.eqb_neq. intros ->.
      destruct Hin as [Hin|Hin].
      - injection Hin as -> ->. lia.
      - pose proof (sorted_head_lt _ _ _ Hs Hin) as H. simpl in H. lia. }
    rewrite Hnb. simpl.
    destruct (before base m) as [[base0 e0]|] eqn:Hb.
    + destruct (before_in _ _ _ Hb) as [Hin0 Hlt0]. simpl in Hlt0.
      pose proof (before_max base m _ (k, e) Hs Hb Hin ltac:(simpl; lia)) as Hmax.
      simpl in Hmax.
      pose proof (lower_bound_first off m _ _ Hs Hl Hin0 Hlt0) as Hb0. simpl in Hb0.
      assert (k = base0).
      { destruct (Z.eq_dec k base0) as [|Hk]; [assumption|].
        pose proof (Hno _ _ _ _ Hin Hin0 ltac:(lia)). lia. }
      subst k. rewrite (sorted_unique m base0 e e0 Hs Hin Hin0) in *.
      destruct (Z.ltb_spec off (base0 + len e0)); [reflexivity|lia].
    + pose proof (before_none base m (k, e) Hs Hb Hin) as H. simpl in H. lia.
Qed.

(** *** [update] *)

(** [update] keeps the map free of overlaps whenever the map has a key
    at or above the offset, or nothing in it reaches past the offset. *)
Lemma update_keeps_non_overlap_aux off e m :
  well_formed m -> non_overlap m -> 0 <= len e < 2 ^ 32 ->
  (lower_bound off m <> None \/ forall k v, In (k, v) m -> k + len v <= off) ->
  non_overlap (update off e m).
Proof.
  intros Hwf Hno He Hcase. unfold update.
  destruct (back m) as [[key val]|] eqn:Hback.
  2:{ unfold back in Hback. apply last_None in Hback. subst m. simpl.
      intros k1 e1 k2 e2 [H1|[]] [H2|[]]. injection H1 as <- <-.
      injection H2 as <- <-. lia. }
  destruct (extends_last key val off e).
  - apply map_set_non_overlap; [apply Hwf|exact Hno|..].
    + intros k v Ha Hlt. apply (Hno _ _ _ _ Ha (back_in _ _ Hback) Hlt).
    + intros k v Ha Hlt.
      pose proof (back_max m _ _ (proj1 Hwf) Hback Ha) as H. simpl in H. lia.
  - destruct (lower_bound off m) as [a|] eqn:Hl.
    + apply (update_general_clears off e He m Hwf Hno). congruence.
    + unfold update_general. rewrite Hl.
      destruct Hcase as [Hc|Hc]; [congruence|].
      apply map_set_non_overlap; [apply Hwf|exact Hno|..].
      * intros k v Ha _. apply (Hc _ _ Ha).
      * intros k v Ha Hlt. pose proof (lower_bound_none _ _ _ Hl Ha) as H.
        simpl in H. lia.
Qed.

(** When a key at or above the offset exists and the tail merge is not
    taken, [update] installs the new extent and clears its range:
    every other entry starts at or after its end or ends at or before
    its start. *)
Lemma update_clears_range_aux off e m :
  well_formed m -> non_overlap m -> 0 <= len e < 2 ^ 32 ->
  lower_bound off m <> None ->
  (forall key val, back m = Some (key, val) -> extends_last key val off e = false) ->
  In (off, e) (update off e m) /\
  forall k v, In (k, v) (update off e m) ->
    (k, v) = (off, e) \/ off + len e <= k \/ (k < off /\ k + len v <= off).
Proof.
  intros Hwf Hno He Hlb Hnm. unfold update.
  destruct (back m) as [[key val]|] eqn:Hback.
  2:{ unfold back in Hback. apply last_None in Hback. subst m.
      simpl in Hlb. congruence. }
  rewrite (Hnm _ _ eq_refl). apply (update_general_clears off e He m Hwf Hno Hlb).
Qed.

(** *** [do_trunc] *)

Lemma do_trunc_loop_all_beyond fuel : forall n m m',
  (forall a, In a m -> n <= fst a) ->
  do_trunc_loop fuel n m = Some m' -> m' = [].
Proof.
  induction fuel as [|fuel IH]; intros n m m' Hall; simpl; [discriminate|].
  destruct (lookup n m) as [[off e]|] eqn:Hlk.
  - assert (Hin : In (off, e) m).
    { unfold lookup in Hlk. destruct (lower_bound n m) as [[base e1]|] eqn:Hl; [|discriminate].
      destruct (lower_bound_in _ _ _ Hl) as [Hb _].
      on_guard.
      - simpl in Hlk. destruct (before base m) as [[b0 e0]|] eqn:Hb0.
        + destruct (before_in _ _ _ Hb0) as [H0 _].
          destruct (n <? b0 + len e0); injection Hlk as <- <-; assumption.
        + injection Hlk as <- <-. assumption.
      - injection Hlk as <- <-. assumption. }
    pose proof (Hall _ Hin) as Hk. simpl in Hk.
    destruct (Z.ltb_spec off n); [lia|].
    apply IH. intros a Ha. apply Hall. apply (map_erase_in off m a Ha).
  - intros [= <-]. pose proof (proj1 (lookup_end_iff_aux n m) Hlk) as Hlow.
    destruct m as [|a r]; [reflexivity|].
    pose proof (Hlow a (or_introl eq_refl)). pose proof (Hall a (or_introl eq_refl)). lia.
Qed.

(** A map whose keys are all at or beyond the new size is emptied; in
    particular truncation to 0 empties every map of non-negative keys. *)
Lemma do_trunc_empties_aux n m :
  well_formed m -> (forall a, In a m -> n <= fst a) ->
  do_trunc_extents n m = [].
Proof.
  intros Hwf Hall.
  destruct (do_trunc_extents_total n m Hwf) as (Hrun & _ & _).
  apply (do_trunc_loop_all_beyond _ n m _ Hall (Hrun _ (Nat.le_refl _))).
Qed.

(** Once nothing below [n] reaches past [n], the loop only erases. *)
Lemma do_trunc_loop_erases fuel : forall n m m',
  well_formed m -> non_overlap m ->
  (forall k v, In (k, v) m -> k < n -> k + len v <= n) ->
  do_trunc_loop fuel n m = Some m' ->
  non_overlap m' /\ forall k v, In (k, v) m' -> k + len v <= n.
Proof.
  induction fuel as [|fuel IH]; intros n m m' Hwf Hno HJ; simpl; [discriminate|].
  destruct (lookup n m) as [[off e]|] eqn:Hlk.
  - destruct (lookup_cases _ _ _ _ (proj1 Hwf) Hlk) as [Hin [Hge|(Hlt & Hcont & _)]].
    + destruct (Z.ltb_spec off n); [lia|].
      apply IH; [apply erase_wf, Hwf|apply map_erase_non_overlap, Hno|].
      intros k v Ha. apply HJ. apply (map_erase_in off m _ Ha).
    + pose proof (HJ _ _ Hin Hlt). lia.
  - intros [= <-]. split; [exact Hno|]. intros k v Ha.
    pose proof (proj1 (lookup_end_iff_aux n m) Hlk _ Ha) as Hk. simpl in Hk.
    apply (HJ _ _ Ha Hk).
Qed.

(** Whenever the map has a key at or beyond the new size (or nothing
    reaches past it), [do_trunc] leaves every extent within the new
    size and the map free of overlaps. *)
Lemma do_trunc_within_aux n m :
  well_formed m -> non_overlap m ->
  (lower_bound n m <> None \/ forall k v, In (k, v) m -> k + len v <= n) ->
  non_overlap (do_trunc_extents n m) /\
  forall k v, In (k, v) (do_trunc_extents n m) -> k + len v <= n.
Proof.
  intros Hwf Hno Hcase.
  destruct (do_trunc_extents_total n m Hwf) as (Hrun & _ & _).
  specialize (Hrun _ (Nat.le_refl _)). unfold trunc_fuel in Hrun. simpl in Hrun.
  destruct (lookup n m) as [[off e]|] eqn:Hlk.
  2:{ injection Hrun as <-. split; [exact Hno|].
      destruct Hcase as [Hlb|Hall]; [|exact Hall].
      apply lookup_none_lower_bound in Hlk. congruence. }
  assert (Hlb : lower_bound n m <> None).
  { intros H. apply lookup_none_lower_bound in H. congruence. }
  destruct (lookup_cases _ _ _ _ (proj1 Hwf) Hlk) as [Hin [Hge|(Hlt & Hcont & b & Hb & Hbn)]].
  - destruct (Z.ltb_spec off n); [lia|].
    refine (do_trunc_loop_erases _ n _ _ (erase_wf off m Hwf)
              (map_erase_non_overlap off m Hno) _ Hrun).
    intros k v Ha Hk. apply (map_erase_in off m) in Ha.
    destruct (Z.le_gt_cases (k + len v) n) as [Hle|Hgt]; [exact Hle|].
    pose proof (lookup_finds_containing_aux n m k v (proj1 Hwf) Hno Hlb Ha ltac:(lia)) as Hf.
    rewrite Hlk in Hf. injection Hf as -> ->. lia.
  - destruct (Z.ltb_spec off n); [|lia].
    pose proof (lens_ok_in _ _ (proj2 Hwf) Hin) as Hlen. simpl in Hlen.
    assert (Hu : u32 (n - off) = n - off) by (apply u32_small; lia).
    rewrite Hu in Hrun.
    set (e' := with_len e (n - off)) in *.
    assert (He' : 0 <= len e' < 2 ^ 32) by (simpl; lia).
    assert (Hoff : lower_bound off m <> None).
    { apply (lower_bound_some off m (off, e) Hin). simpl. lia. }
    destruct (update_clears_range_aux off e' m Hwf Hno He' Hoff) as [_ Hshape].
    { intros key val Hback.
      destruct (lower_bound_in _ _ _ Hb) as [Hbin _].
      pose proof (back_max _ _ _ (proj1 Hwf) Hback Hbin) as Hmax. simpl in Hmax.
      pose proof (lens_ok_in _ _ (proj2 Hwf) (back_in _ _ Hback)) as Hv. simpl in Hv.
      unfold extends_last. apply andb_false_iff. left. apply Z.eqb_neq. lia. }
    refine (do_trunc_loop_erases _ n _ _ (update_wf off e' m He' Hwf)
              (update_keeps_non_overlap_aux off e' m Hwf Hno He' (or_introl Hoff))
              _ Hrun).
    intros k v Ha Hk. destruct (Hshape _ _ Ha) as [Heq|[Hfar|[Hlo Hend]]].
    + injection Heq as -> ->. simpl. lia.
    + simpl in Hfar. lia.
    + lia.
Qed.

(** *** The bytes behind a file position *)

Import ExtmapSpec.

Lemma backs_unique m p o x o' x' :
  sorted m -> non_overlap m ->
  backs m p o x -> backs m p o' x' -> o = o' /\ x = x'.
Proof.
  intros Hs Hno (k & v & Hin & Hc & -> & ->) (k' & v' & Hin' & Hc' & -> & ->).
  assert (k = k').
  { destruct (Z.lt_trichotomy k k') as [H|[H|H]]; [|exact H|].
    - pose proof (Hno _ _ _ _ Hin Hin' H). lia.
    - pose proof (Hno _ _ _ _ Hin' Hin H). lia. }
  subst k'. rewrite (sorted_unique m k v v' Hs Hin Hin'). split; reflexivity.
Qed.

Section UpdateBacking.
Variables (off : Z) (e : extent).
Hypothesis He : 0 < len e < 2 ^ 32.

Let inside (p : Z) : Prop := off <= p < off + len e.

Lemma erase_covered_drops ahead : forall m,
  sorted m -> sorted ahead -> (forall a, In a ahead -> In a m) ->
  forall k v, In (k, v) m ->
    In (k, v) (snd (erase_covered ahead off e m))
    \/ (off <= k /\ k + len v <= off + len e).
Proof.
  induction ahead as [|[key val] rest IH]; intros m Hs Hsa Hsub k v Hin; simpl.
  - left. exact Hin.
  - destruct (Z.geb_spec key off) as [Hk|Hk]; simpl; [|left; exact Hin].
    destruct (Z.leb_spec (key + len val) (off + len e)) as [Hcov|Hnot]; simpl;
      [|left; exact Hin].
    destruct (Z.eq_dec k key) as [->|Hne].
    + right. rewrite (sorted_unique m key v val Hs Hin (Hsub _ (or_introl eq_refl))).
      lia.
    + apply IH; [apply map_erase_sorted, Hs|apply (sorted_inv _ _ Hsa)| |].
      * intros [k' v'] Ha. apply map_erase_keeps; [apply Hsub; right; exact Ha|].
        pose proof (sorted_head_lt _ _ _ Hsa Ha) as H. simpl in H. lia.
      * apply map_erase_keeps; assumption.
Qed.

Lemma trim_right_backing it m1 p o x :
  well_formed m1 -> non_overlap m1 -> offsets_ok m1 ->
  (forall a, In a m1 -> off <= fst a ->
     exists key val, it = Some (key, val) /\ key <= fst a) ->
  (forall key val, it = Some (key, val) ->
     In (key, val) m1 /\ off <= key /\ off + len e < key + len val) ->
  ~ inside p ->
  (backs (trim_right it off e m1) p o x <-> backs m1 p o x).
Proof.
  intros Hwf Hno Hoff Hge Hit Hp. unfold inside in Hp. unfold trim_right.
  destruct it as [[key val]|]; [|tauto].
  destruct (Hit key val eq_refl) as (Hin & Hk & Hend).
  destruct (Z.ltb_spec key (off + len e)) as [Hlt|Hfine]; [|tauto].
  pose proof (lens_ok_in _ _ (proj2 Hwf) Hin) as Hlen. simpl in Hlen.
  destruct (Hoff _ _ Hin) as [Ho1 Ho2].
  assert (Hfar : forall k v, In (k, v) m1 -> k <> key -> off <= k -> key + len val <= k).
  { intros k v Ha Hne Hok. destruct (Hge _ Ha Hok) as (key' & val' & Heq & Hle).
    injection Heq as <- <-. simpl in Hle. apply (Hno _ _ _ _ Hin Ha). lia. }
  cbv zeta. set (val2 := with_offset _ _).
  assert (Hl2 : len val2 = key + len val - (off + len e))
    by (simpl; rewrite u32_small; lia).
  assert (Ho : offset val2 = offset val + (off + len e - key))
    by (simpl; rewrite u32_small; lia).
  assert (Hob : objnum val2 = objnum val) by reflexivity.
  assert (Hs1 : sorted (map_erase key m1)) by (apply map_erase_sorted, Hwf).
  split.
  - intros (k & v & Ha & Hc & -> & ->).
    apply (map_set_in_other _ _ _ _ _ Hs1) in Ha as [Heq|[Ha _]].
    + injection Heq as -> ->. exists key, val.
      split; [exact Hin|]. split; [lia|]. split; [exact Hob|]. rewrite Ho. lia.
    + apply map_erase_in in Ha. exists k, v. repeat split; assumption || lia.
  - intros (k & v & Ha & Hc & -> & ->).
    destruct (Z.eq_dec k key) as [->|Hne].
    + rewrite (sorted_unique m1 key v val (proj1 Hwf) Ha Hin) in *.
      exists (off + len e), val2. split; [apply map_set_has|].
      split; [lia|]. split; [symmetry; exact Hob|]. rewrite Ho. lia.
    + exists k, v. split; [|repeat split; lia].
      apply map_set_keeps; [apply map_erase_keeps; assumption|].
      intros ->. pose proof (Hfar _ _ Ha Hne ltac:(lia)). lia.
Qed.

Lemma trim_left_backing m2 p o x :
  well_formed m2 -> non_overlap m2 -> offsets_ok m2 ->
  (forall a, In a m2 -> off <= fst a -> off + len e <= fst a) ->
  ~ inside p ->
  (backs (trim_left off e m2) p o x <-> backs m2 p o x).
Proof.
  intros Hwf Hno Hoff Hge Hp. unfold inside in Hp. unfold trim_left.
  destruct (is_begin m2 (lower_bound off m2)); [tauto|].
  destruct (it_prev m2 (lower_bound off m2)) as [[key val]|] eqn:Hprev; [|tauto].
  destruct (prev_of_lower_bound off m2 key val (proj1 Hwf) Hprev) as (Hin & Hk & Hmax).
  pose proof (lens_ok_in _ _ (proj2 Hwf) Hin) as Hlen. simpl in Hlen.
  destruct (Hoff _ _ Hin) as [Ho1 Ho2].
  destruct (Z.ltb_spec key off) as [_|Hbad]; [|lia]. simpl.
  set (val1 := with_len val (u32 (off - key))).
  assert (Hshort : forall k v, In (k, v) (map_set key val1 m2) ->
                     ((k, v) = (key, val1) \/ (In (k, v) m2 /\ k <> key))).
  { intros k v. apply map_set_in_other, Hwf. }
  destruct (Z.gtb_spec (key + len val) (off + len e)) as [Hbis|Hnob].
  - assert (Hl1 : len val1 = off - key) by (simpl; apply u32_small; lia).
    cbv zeta. fold val1. set (val3 := with_len _ _).
    assert (Hl3 : len val3 = key + len val - (off + len e))
      by (simpl; rewrite u32_small; lia).
    assert (Ho3 : offset val3 = offset val + (off + len e - key))
      by (simpl; rewrite u32_small; lia).
    assert (Hs1 : sorted (map_set key val1 m2)) by (apply map_set_sorted, Hwf).
    assert (Hfar : forall k v, In (k, v) m2 -> k <> key -> off <= k -> key + len val <= k).
    { intros k v Ha Hne Hok. apply (Hno _ _ _ _ Hin Ha). lia. }
    split.
    + intros (k & v & Ha & Hc & -> & ->).
      apply (map_set_in_other _ _ _ _ _ Hs1) in Ha as [Heq|[Ha _]].
      * injection Heq as -> ->. exists key, val.
        split; [exact Hin|]. split; [lia|]. split; [reflexivity|]. rewrite Ho3. lia.
      * apply Hshort in Ha as [Heq|[Ha Hne]].
        -- injection Heq as -> ->. exists key, val.
           split; [exact Hin|]. split; [lia|]. split; reflexivity.
        -- exists k, v. repeat split; assumption || lia.
    + intros (k & v & Ha & Hc & -> & ->).
      destruct (Z.eq_dec k key) as [->|Hne].
      * rewrite (sorted_unique m2 key v val (proj1 Hwf) Ha Hin) in *.
        destruct (Z.lt_ge_cases p off) as [Hlo|Hhi].
        -- exists key, val1. split.
           { apply map_set_keeps; [apply map_set_has|lia]. }
           split; [lia|]. split; reflexivity.
        -- exists (off + len e), val3. split; [apply map_set_has|].
           split; [lia|]. split; [reflexivity|]. rewrite Ho3. lia.
      * exists k, v. split; [|repeat split; lia].
        apply map_set_keeps.
        -- apply map_set_keeps; assumption.
        -- intros ->. pose proof (Hfar _ _ Ha Hne ltac:(lia)). lia.
  - destruct (Z.gtb_spec (key + len val) off) as [Hover|Hfine]; [|tauto].
    assert (Hl1 : len val1 = off - key) by (simpl; apply u32_small; lia).
    fold val1. split.
    + intros (k & v & Ha & Hc & -> & ->).
      apply Hshort in Ha as [Heq|[Ha Hne]].
      * injection Heq as -> ->. exists key, val.
        split; [exact Hin|]. split; [lia|]. split; reflexivity.
      * exists k, v. repeat split; assumption || lia.
    + intros (k & v & Ha & Hc & -> & ->).
      destruct (Z.eq_dec k key) as [->|Hne].
      * rewrite (sorted_unique m2 key v val (proj1 Hwf) Ha Hin) in *.
        exists key, val1. split; [apply map_set_has|].
        split; [lia|]. split; reflexivity.
      * exists k, v. split; [|repeat split; lia].
        apply map_set_keeps; assumption.
Qed.

Lemma trim_right_offsets_ok it m1 :
  well_formed m1 -> offsets_ok m1 ->
  (forall key val, it = Some (key, val) ->
     In (key, val) m1 /\ off <= key /\ off + len e < key + len val) ->
  offsets_ok (trim_right it off e m1).
Proof.
  intros Hwf Hoff Hit. unfold trim_right.
  destruct it as [[key val]|]; [|exact Hoff].
  destruct (Hit key val eq_refl) as (Hin & Hk & Hend).
  destruct (Z.ltb_spec key (off + len e)) as [Hlt|Hfine]; [|exact Hoff].
  pose proof (lens_ok_in _ _ (proj2 Hwf) Hin) as Hlen. simpl in Hlen.
  destruct (Hoff _ _ Hin) as [Ho1 Ho2].
  intros k v Ha. apply map_set_in in Ha as [Heq|Ha].
  - injection Heq as -> ->. simpl. rewrite !u32_small by lia. lia.
  - apply map_erase_in in Ha. apply (Hoff _ _ Ha).
Qed.

(** The general path of [update] and the bytes behind each position:
    inside the new extent's range they are the new extent's, outside
    they are what they were. *)
Lemma update_general_backing m p o x :
  well_formed m -> non_overlap m -> offsets_ok m -> lower_bound off m <> None ->
  (backs (update_general off e m) p o x <->
   (inside p /\ o = objnum e /\ x = offset e + (p - off))
   \/ (~ inside p /\ backs m p o x)).
Proof.
  intros Hwf Hno Hoff Hlb. unfold inside.
  assert (He' : 0 <= len e < 2 ^ 32) by lia.
  unfold update_general. destruct (lower_bound off m) eqn:Hl; [clear Hlb|congruence].
  destruct (from_lower_bound_sorted off m (proj1 Hwf)) as [Hsa Hak].
  assert (Hsub : forall a, In a (from_lower_bound off m) -> In a m)
    by (intros a; apply from_lower_bound_in).
  destruct (erase_covered_stop off e (from_lower_bound off m) m Hwf Hno Hsa)
    as (W1 & N1 & S1 & _ & G1 & I1).
  { intros a Ha. split; [apply Hsub, Ha|apply Hak, Ha]. }
  { intros a Ha Hk. apply from_lower_bound_all; [apply Hwf|assumption..]. }
  pose proof (erase_covered_drops (from_lower_bound off m) m (proj1 Hwf) Hsa Hsub) as D1.
  destruct (erase_covered (from_lower_bound off m) off e m) as [it m1]. simpl in *.
  assert (O1 : offsets_ok m1) by (intros k v Ha; apply (Hoff k v), S1, Ha).
  destruct (trim_right_clears off e He' it m1 W1 N1 G1 I1) as (W2 & N2 & G2).
  pose proof (trim_right_offsets_ok it m1 W1 O1 I1) as O2.
  destruct (trim_left_clears off e He' _ W2 N2 G2) as (W3 & N3 & G3 & L3).
  assert (B3 : ~ inside p ->
               (backs (trim_left off e (trim_right it off e m1)) p o x <-> backs m p o x)).
  { intros Hp.
    rewrite (trim_left_backing _ p o x W2 N2 O2 G2 Hp).
    rewrite (trim_right_backing it m1 p o x W1 N1 O1 G1 I1 Hp).
    unfold inside in Hp. split.
    - intros (k & v & Ha & Hc). exists k, v. split; [apply S1, Ha|exact Hc].
    - intros (k & v & Ha & Hc). exists k, v. split; [|exact Hc].
      destruct (D1 _ _ Ha) as [Hk|Hcov]; [exact Hk|lia]. }
  unfold inside in B3.
  set (m3 := trim_left off e (trim_right it off e m1)) in *.
  split.
  - intros (k & v & Ha & Hc & Ho & Hx).
    apply (map_set_in_other _ _ _ _ _ (proj1 W3)) in Ha as [Heq|[Ha Hne]].
    + injection Heq as -> ->. left. repeat split; assumption || lia.
    + right. assert (Hp : ~ off <= p < off + len e).
      { destruct (Z.lt_ge_cases k off) as [Hlo|Hhi].
        - pose proof (L3 _ Ha Hlo) as H. simpl in H. lia.
        - pose proof (G3 _ Ha Hhi) as H. simpl in H. lia. }
      split; [exact Hp|]. apply (B3 Hp). exists k, v. exact (conj Ha (conj Hc (conj Ho Hx))).
  - intros [(Hp & -> & ->)|(Hp & Hb)].
    + exists off, e. split; [apply map_set_has|]. repeat split; lia.
    + apply (B3 Hp) in Hb as (k & v & Ha & Hc & Ho & Hx).
      exists k, v. split; [|exact (conj Hc (conj Ho Hx))].
      apply map_set_keeps; [exact Ha|]. intros ->.
      pose proof (G3 _ Ha ltac:(simpl; lia)) as H. simpl in H. lia.
Qed.

End UpdateBacking.

(** [update], where it does not take the tail merge and the map has a
    key at or above the offset or nothing in it reaches past the offset:
    every position of the new extent's range is backed by the new
    extent, and every other position by what backed it before. *)
Lemma update_backing_aux off e m p o x :
  well_formed m -> non_overlap m -> offsets_ok m ->
  0 < len e < 2 ^ 32 ->
  (lower_bound off m <> None \/ forall k v, In (k, v) m -> k + len v <= off) ->
  (forall key val, back m = Some (key, val) -> extends_last key val off e = false) ->
  (backs (update off e m) p o x <->
   (off <= p < off + len e /\ o = objnum e /\ x = offset e + (p - off))
   \/ (~ off <= p < off + len e /\ backs m p o x)).
Proof.
  intros Hwf Hno Hoff He Hcase Hnm.
  assert (Hend : lower_bound off m = None ->
                 (forall k v, In (k, v) m -> k + len v <= off) ->
                 (backs (map_set off e m) p o x <->
                  (off <= p < off + len e /\ o = objnum e /\ x = offset e + (p - off))
                  \/ (~ off <= p < off + len e /\ backs m p o x))).
  { intros Hl Hall. split.
    - intros (k & v & Ha & Hc & Ho & Hx).
      apply (map_set_in_other _ _ _ _ _ (proj1 Hwf)) in Ha as [Heq|[Ha Hne]].
      + injection Heq as -> ->. left. repeat split; assumption || lia.
      + right. pose proof (Hall _ _ Ha). split; [lia|].
        exists k, v. exact (conj Ha (conj Hc (conj Ho Hx))).
    - intros [(Hp & -> & ->)|(Hp & k & v & Ha & Hc & Ho & Hx)].
      + exists off, e. split; [apply map_set_has|]. repeat split; lia.
      + exists k, v. split; [|exact (conj Hc (conj Ho Hx))].
        apply map_set_keeps; [exact Ha|]. intros ->.
        pose proof (lower_bound_none _ _ _ Hl Ha) as H. simpl in H. lia. }
  unfold update. destruct (back m) as [[key val]|] eqn:Hback.
  2:{ unfold back in Hback. apply last_None in Hback. subst m.
      apply Hend; [reflexivity|]. intros k v []. }
  rewrite (Hnm _ _ eq_refl).
  destruct (lower_bound off m) as [a|] eqn:Hl.
  - apply (update_general_backing off e He m p o x Hwf Hno Hoff). congruence.
  - unfold update_general. rewrite Hl.
    destruct Hcase as [Hc|Hc]; [congruence|]. apply (Hend eq_refl Hc).
Qed.

(** *** [do_trunc] and the bytes below the new size *)

Lemma do_trunc_loop_erases_backing fuel : forall n m m' p o x,
  sorted m ->
  (forall k v, In (k, v) m -> k < n -> k + len v <= n) ->
  do_trunc_loop fuel n m = Some m' -> p < n ->
  (backs m' p o x <-> backs m p o x).
Proof.
  induction fuel as [|fuel IH]; intros n m m' p o x Hs HJ; simpl; [discriminate|].
  destruct (lookup n m) as [[off e]|] eqn:Hlk; [|intros [= <-]; tauto].
  destruct (lookup_cases _ _ _ _ Hs Hlk) as [Hin [Hge|(Hlt & Hcont & _)]].
  2:{ pose proof (HJ _ _ Hin Hlt). lia. }
  destruct (Z.ltb_spec off n); [lia|]. intros Hrun Hp.
  rewrite (IH n (erase off m) m' p o x (map_erase_sorted off m Hs)); [| |exact Hrun|exact Hp].
  - split.
    + intros (k & v & Ha & Hc). exists k, v. split; [apply (map_erase_in off m _ Ha)|exact Hc].
    + intros (k & v & Ha & Hc). exists k, v. split; [|exact Hc].
      apply map_erase_keeps; [exact Ha|lia].
  - intros k v Ha. apply HJ, (map_erase_in off m _ Ha).
Qed.

(** [do_trunc] never changes what backs a position below the new
    size. *)
Lemma do_trunc_keeps_data_aux n m p o x :
  well_formed m -> non_overlap m -> offsets_ok m -> p < n ->
  (backs (do_trunc_extents n m) p o x <-> backs m p o x).
Proof.
  intros Hwf Hno Hoff Hp.
  destruct (do_trunc_extents_total n m Hwf) as (Hrun & _ & _).
  specialize (Hrun _ (Nat.le_refl _)). unfold trunc_fuel in Hrun. simpl in Hrun.
  destruct (lookup n m) as [[off e]|] eqn:Hlk.
  2:{ injection Hrun as <-. tauto. }
  assert (Hlb : lower_bound n m <> None).
  { intros H. apply lookup_none_lower_bound in H. congruence. }
  destruct (lookup_cases _ _ _ _ (proj1 Hwf) Hlk) as [Hin [Hge|(Hlt & Hcont & b & Hb & Hbn)]].
  - destruct (Z.ltb_spec off n); [lia|].
    assert (HJ : forall k v, In (k, v) (erase off m) -> k < n -> k + len v <= n).
    { intros k v Ha Hk. apply (map_erase_in off m) in Ha.
      destruct (Z.le_gt_cases (k + len v) n) as [Hle|Hgt]; [exact Hle|].
      pose proof (lookup_finds_containing_aux n m k v (proj1 Hwf) Hno Hlb Ha ltac:(lia)) as Hf.
      rewrite Hlk in Hf. injection Hf as -> ->. lia. }
    rewrite (do_trunc_loop_erases_backing (trunc_weight n m) n (erase off m) _ p o x
               (map_erase_sorted off m (proj1 Hwf)) HJ Hrun Hp).
    split.
    + intros (k & v & Ha & Hc). exists k, v.
      split; [apply (map_erase_in off m _ Ha)|exact Hc].
    + intros (k & v & Ha & Hc). exists k, v. split; [|exact Hc].
      apply map_erase_keeps; [exact Ha|lia].
  - destruct (Z.ltb_spec off n); [|lia].
    pose proof (lens_ok_in _ _ (proj2 Hwf) Hin) as Hlen. simpl in Hlen.
    assert (Hu : u32 (n - off) = n - off) by (apply u32_small; lia).
    rewrite Hu in Hrun.
    set (e' := with_len e (n - off)) in *.
    assert (He' : 0 < len e' < 2 ^ 32) by (simpl; lia).
    assert (He0 : 0 <= len e' < 2 ^ 32) by lia.
    assert (Hoffk : lower_bound off m <> None).
    { apply (lower_bound_some off m (off, e) Hin). simpl. lia. }
    assert (Hnm : forall key val, back m = Some (key, val) ->
                    extends_last key val off e' = false).
    { intros key val Hback.
      destruct (lower_bound_in _ _ _ Hb) as [Hbin _].
      pose proof (back_max _ _ _ (proj1 Hwf) Hback Hbin) as Hmax. simpl in Hmax.
      pose proof (lens_ok_in _ _ (proj2 Hwf) (back_in _ _ Hback)) as Hv. simpl in Hv.
      unfold extends_last. apply andb_false_iff. left. apply Z.eqb_neq. lia. }
    destruct (update_clears_range_aux off e' m Hwf Hno He0 Hoffk Hnm) as [_ Hshape].
    assert (HJ : forall k v, In (k, v) (update off e' m) -> k < n -> k + len v <= n).
    { intros k v Ha Hk. destruct (Hshape _ _ Ha) as [Heq|[Hfar|[Hlo Hend]]].
      - injection Heq as -> ->. simpl. lia.
      - simpl in Hfar. lia.
      - lia. }
    rewrite (do_trunc_loop_erases_backing (trunc_weight n m) n (update off e' m) _ p o x
               (proj1 (update_wf off e' m He0 Hwf)) HJ Hrun Hp).
    rewrite (update_backing_aux off e' m p o x Hwf Hno Hoff He' (or_introl Hoffk) Hnm).
    simpl. replace (off + (n - off)) with n by lia. split.
    + intros [(Hc & -> & ->)|(_ & Hbk)]; [|exact Hbk].
      exists off, e. split; [exact Hin|]. split; [lia|]. split; reflexivity.
    + intros Hbk. destruct (Z.lt_ge_cases p off) as [Hlo|Hhi].
      * right. split; [lia|exact Hbk].
      * left. split; [lia|].
        apply (backs_unique m p o x (objnum e) (offset e + (p - off))
                 (proj1 Hwf) Hno Hbk).
        exists off, e. split; [exact Hin|]. split; [lia|]. split; reflexivity.
Qed.

End ExtmapInvariants.

(* ------------------------------------------------------------------ *)
(** ** Path resolution and the namespace operations *)

Module NamespaceFacts.
Import Objfs ObjfsSpec ObjfsFacts.

Lemma u32_i32_fit c : 0 <= c < 2 ^ 31 -> u32 c = c /\ i32 c = c.
Proof. intros H. split; [apply u32_small; lia|apply i32_small; lia]. Qed.

Lemma inums_fit_lookup s k i d name c :
  inums_fit s -> inode_map s !! k = Some (fs_directory i d) ->
  d !! name = Some c -> 0 <= c < 2 ^ 31.
Proof.
  intros Hfit Hk Hn. pose proof (map_Forall_lookup_1 _ _ _ _ Hfit Hk) as Hd.
  simpl in Hd. apply (map_Forall_lookup_1 _ _ _ _ Hd Hn).
Qed.

Lemma extends_refl s : extends s s.
Proof. intros k i d name c Hk Hn. exists i, d. split; assumption. Qed.

(** A walk that succeeds is the same in every table that keeps the
    entries it used. *)
Lemma walk_extends s t (Hfit : inums_fit s) (Hext : extends s t) rest :
  forall pre k, 0 <= k < 2 ^ 31 -> 0 <= walk k pre s ->
    walk k (pre ++ rest) t = walk (walk k pre s) rest t /\
    0 <= walk k pre s < 2 ^ 31.
Proof.
  induction pre as [|name pre IH]; intros k Hk Hok; simpl in *.
  - rewrite (proj2 (u32_i32_fit k Hk)). split; [reflexivity|exact Hk].
  - destruct (inode_map s !! k) as [[i x|i d|i t0|i]|] eqn:Hs;
      try (unfold ENOENT, ENOTDIR in Hok; lia).
    destruct (d !! name) as [c|] eqn:Hn; [|unfold ENOENT in Hok; lia].
    destruct (Hext _ _ _ _ _ Hs Hn) as (i' & d' & Ht & Hn').
    rewrite Ht, Hn'. apply IH; [|exact Hok].
    apply (inums_fit_lookup s k i d name c Hfit Hs Hn).
Qed.

Lemma walk_app s (Hfit : inums_fit s) pre rest k :
  0 <= k < 2 ^ 31 -> 0 <= walk k pre s ->
  walk k (pre ++ rest) s = walk (walk k pre s) rest s.
Proof. intros Hk Hok. apply (walk_extends s s Hfit (extends_refl s) rest pre k Hk Hok). Qed.

Lemma walk_same s t (Hfit : inums_fit s) (Hext : extends s t) pre k :
  0 <= k < 2 ^ 31 -> 0 <= walk k pre s -> walk k pre t = walk k pre s.
Proof.
  intros Hk Hok.
  destruct (walk_extends s t Hfit Hext [] pre k Hk Hok) as [H Hr].
  rewrite app_nil_r in H. rewrite H. simpl. apply i32_small. lia.
Qed.

Lemma last_removelast {A} (l : list A) x :
  last l = Some x -> l = removelast l ++ [x].
Proof.
  intros H. apply last_Some in H as [l' ->].
  rewrite removelast_last. reflexivity.
Qed.

(** What the three results of [path_2_inum2] say when the parent
    resolves. *)
Lemma path_2_inum2_parent s (Hfit : inums_fit s) path inum parent leaf :
  path_2_inum2 path s = Some (inum, parent, leaf) -> 0 <= parent ->
  exists pre, split path "/"%char = pre ++ [leaf] /\
    parent = walk 1 pre s /\ 0 <= parent < 2 ^ 31 /\
    inum = walk parent [leaf] s /\ inum = path_2_inum path s.
Proof.
  unfold path_2_inum2, path_2_inum, vec_2_inum.
  destruct (last (split path "/"%char)) as [l|] eqn:Hlast; [|discriminate].
  intros H Hp. injection H as <- <- ->.
  exists (removelast (split path "/"%char)).
  pose proof (last_removelast _ _ Hlast) as Hsplit.
  split; [exact Hsplit|]. split; [reflexivity|].
  destruct (walk_extends s s Hfit (extends_refl s) [leaf]
              (removelast (split path "/"%char)) 1 ltac:(lia) Hp) as [Happ Hr].
  split; [exact Hr|]. rewrite <- Hsplit in Happ. split; [exact Happ|reflexivity].
Qed.

(** The flush at the end of an entry point leaves the inode table and
    the inode allocator alone, and the call then returns or throws. *)
Lemma write_dirty_next_inode keys s : next_inode (write_dirty keys s) = next_inode s.
Proof.
  unfold write_dirty. revert s.
  assert (H : forall (tbl : gmap Z fs_obj) (ks : list Z) acc,
             next_inode (foldl (fun acc k => match tbl !! k with
                                             | Some o => write_inode o acc
                                             | None => acc end) acc ks)
             = next_inode acc).
  { intros tbl ks. induction ks as [|k ks IH]; intros acc; simpl; [reflexivity|].
    rewrite IH. destruct (tbl !! k); reflexivity. }
  intros s. apply H.
Qed.

Lemma flush_then_return_frame en v s :
  inode_map (snd (flush_then_return en v s)) = inode_map s /\
  next_inode (snd (flush_then_return en v s)) = next_inode s /\
  (fst (flush_then_return en v s) = Ret v \/
   exists what, fst (flush_then_return en v s) = Throw what).
Proof.
  unfold flush_then_return, maybe_write.
  destruct (flush_needed s); [|simpl; auto].
  unfold write_everything_out.
  destruct (write_dirty_frame (elements (dirty_inodes s)) s) as (H1 & _ & _).
  pose proof (write_dirty_next_inode (elements (dirty_inodes s)) s) as H2.
  destruct (put_ok en); simpl; eauto.
Qed.

End NamespaceFacts.

(* ------------------------------------------------------------------ *)
(** ** Replay and truncation *)

Module TruncFacts.
Import Objfs ObjfsFacts ExtmapSpec.

(** [read_hdr] on a header it accepts is the record loop. *)
Lemma read_hdr_checked idx oh recs avail s :
  usize (h_hdr_len oh) <= avail ->
  h_magic oh = OBJFS_MAGIC -> h_version oh = 1 -> h_type oh = 1 ->
  read_hdr idx oh recs avail s = read_records idx recs s.
Proof.
  intros Havail Hmagic Hver Hty. unfold read_hdr.
  destruct (Z.gtb_spec (usize (h_hdr_len oh)) avail) as [Hgt|_]; [lia|].
  rewrite Hmagic, Hver, Hty. reflexivity.
Qed.

(** What [do_trunc] leaves of the extents where its first [lookup] can
    succeed. *)
Lemma do_trunc_extents_cut n m :
  Extmap.well_formed m -> Extmap.non_overlap m -> offsets_ok m ->
  (Extmap.lower_bound n m <> None \/
   forall k v, In (k, v) m -> k + Extmap.len v <= n) ->
  Extmap.non_overlap (Extmap.do_trunc_extents n m) /\
  (forall k v, In (k, v) (Extmap.do_trunc_extents n m) -> k + Extmap.len v <= n) /\
  (forall p o x, p < n ->
     (backs (Extmap.do_trunc_extents n m) p o x <-> backs m p o x)).
Proof.
  intros Hwf Hno Hoff Hcase.
  destruct (ExtmapInvariants.do_trunc_within_aux n m Hwf Hno Hcase) as [H1 H2].
  split; [exact H1|]. split; [exact H2|].
  intros p o x Hp. apply ExtmapInvariants.do_trunc_keeps_data_aux; assumption.
Qed.

End TruncFacts.

(* ------------------------------------------------------------------ *)
(** ** The tail of the entry points *)

Module EntryFacts.
Import Objfs ObjfsSpec ObjfsFacts ExtmapSpec NamespaceFacts TruncFacts.

Lemma write_dirty_keeps_log keys s r :
  In r (meta_log s) -> In r (meta_log (write_dirty keys s)).
Proof.
  unfold write_dirty.
  destruct (foldl_emit_frame (inode_map s) keys s) as (_ & _ & _ & H). apply H.
Qed.

(** The tail of every entry point: [maybe_write(fs); return v]. *)
Lemma flush_then_return_spec en v s :
  exists s',
    flush_then_return en v s
      = (if flush_needed s && negb (put_ok en) then Throw "put failed" else Ret v, s') /\
    inode_map s' = inode_map s /\
    next_inode s' = next_inode s /\
    (forall r, In r (meta_log s) -> staged_or_sealed r s s') /\
    (forall k o, k ∈ dirty_inodes s -> inode_map s !! k = Some o ->
       k ∈ dirty_inodes s' \/ staged_or_sealed (inode_record o) s s').
Proof.
  unfold flush_then_return, maybe_write, staged_or_sealed.
  destruct (flush_needed s) eqn:Hflush.
  2:{ exists s. simpl. repeat split; auto. }
  unfold write_everything_out.
  destruct (write_dirty_frame (elements (dirty_inodes s)) s) as (H1 & H2 & H3).
  pose proof (write_dirty_next_inode (elements (dirty_inodes s)) s) as H4.
  assert (Hrec : forall k o, k ∈ dirty_inodes s -> inode_map s !! k = Some o ->
            In (inode_record o) (meta_log (write_dirty (elements (dirty_inodes s)) s))).
  { intros k o Hk Ho. apply (write_dirty_record _ s k o); [|exact Ho].
    apply list_elem_of_In, elem_of_elements, Hk. }
  destruct (put_ok en); simpl.
  - eexists. split; [reflexivity|]. simpl. split; [exact H1|]. split; [exact H4|].
    rewrite H2. split.
    + intros r Hr. right. rewrite lookup_insert_eq. eexists. split; [reflexivity|].
      simpl. apply write_dirty_keeps_log, Hr.
    + intros k o Hk Ho. right. right. rewrite lookup_insert_eq.
      eexists. split; [reflexivity|]. simpl. apply (Hrec k o Hk Ho).
  - eexists. split; [reflexivity|]. simpl. split; [exact H1|]. split; [exact H4|].
    split.
    + intros r Hr. left. apply write_dirty_keeps_log, Hr.
    + intros k o Hk Ho. right. left. apply (Hrec k o Hk Ho).
Qed.

(** Masking with [S_IFMT] does not see the reduction to 32 bits. *)
Lemma land_u32 x m : 0 <= m < 2 ^ 32 -> Z.land (u32 x) m = Z.land x m.
Proof.
  intros Hm. unfold u32. rewrite <- Z.land_ones by lia.
  rewrite <- Z.land_assoc. f_equal.
  rewrite Z.land_comm. rewrite Z.land_ones by lia. apply Z.mod_small. lia.
Qed.



(** What an entry point that ends in [maybe_write(fs); return v] gives
    back. *)
Lemma outcome_cases en v s1 :
  let r := if flush_needed s1 && negb (put_ok en) then Throw "put failed" else Ret v in
  r = Ret v \/ (put_ok en = false /\ r = Throw "put failed").
Proof.
  simpl. destruct (flush_needed s1); simpl; [|left; reflexivity].
  destruct (put_ok en); simpl; [left; reflexivity|right; split; reflexivity].
Qed.


End EntryFacts.

(* ------------------------------------------------------------------ *)
(** ** Paths *)

Module PathFacts.
Import Objfs ObjfsSpec ObjfsFacts NamespaceFacts.

Lemma is_empty_false tok : is_empty tok = false -> tok <> EmptyString.
Proof. destruct tok; [discriminate|]. intros _ H. discriminate H. Qed.

Lemma chars_snoc tok c :
  list_ascii_of_string (tok +:+ String c EmptyString)
    = list_ascii_of_string tok ++ [c].
Proof. induction tok as [|a tok IH]; simpl; [reflexivity|]. rewrite IH. reflexivity. Qed.

Lemma is_empty_snoc tok c : is_empty (tok +:+ String c EmptyString) = false.
Proof. destruct tok; reflexivity. Qed.

Lemma split_from_tokens d s : forall tok,
  ~ In d (list_ascii_of_string tok) ->
  Forall (fun t => t <> EmptyString /\ ~ In d (list_ascii_of_string t))
         (split_from s d tok).
Proof.
  induction s as [|c r IH]; intros tok Htok; simpl.
  - destruct (is_empty tok) eqn:He; [constructor|].
    constructor; [|constructor]. split; [apply is_empty_false, He|exact Htok].
  - destruct (Ascii.eqb_spec c d) as [->|Hne].
    + destruct (is_empty tok) eqn:He.
      * apply IH. simpl. tauto.
      * constructor; [split; [apply is_empty_false, He|exact Htok]|].
        apply IH. simpl. tauto.
    + apply IH. rewrite chars_snoc. intros H. apply in_app_or in H as [H|[H|[]]].
      * exact (Htok H).
      * exact (Hne H).
Qed.

Lemma split_from_concat d a b : forall tok,
  split_from (a +:+ String d b) d tok = split_from a d tok ++ split b d.
Proof.
  induction a as [|c r IH]; intros tok; simpl.
  - rewrite Ascii.eqb_refl. unfold split. destruct (is_empty tok); reflexivity.
  - destruct (Ascii.eqb c d).
    + destruct (is_empty tok); rewrite IH; reflexivity.
    + apply IH.
Qed.

End PathFacts.

(* ------------------------------------------------------------------ *)
(** * The claims *)

Import Objfs Scenario.

(** ** Extent map *)

(** The tail-append test of [update] never reads the object number. *)
Lemma extends_last_objnum_blind key val off o1 o2 x l :
  Extmap.extends_last key val off (mk_extent o1 x l) =
  Extmap.extends_last key val off (mk_extent o2 x l).
Proof. reflexivity. Qed.

(** [erase] keeps a map free of overlaps. *)
Lemma erase_non_overlap off m :
  Extmap.non_overlap m -> Extmap.non_overlap (Extmap.erase off m).
Proof.
  intros H k1 e1 k2 e2 H1 H2. unfold Extmap.erase in *.
  apply ExtmapFacts.map_erase_in in H1, H2. apply (H _ _ _ _ H1 H2).
Qed.

(** C2.  [update] does not keep the non-overlap invariant: on the map
    [{0 -> 8 bytes}] an update at offset 3 with a 2-byte extent takes the
    "end of the list" exit and leaves the old extent untouched, so the
    entries at 0 and 3 overlap. *)
Theorem update_at_end_overlaps :
  let m := [(0, mk_extent 1 0 8)] in
  Extmap.well_formed m /\ Extmap.non_overlap m /\
  Extmap.update 3 (mk_extent 1 8 2) m
    = [(0, mk_extent 1 0 8); (3, mk_extent 1 8 2)] /\
  ~ Extmap.non_overlap (Extmap.update 3 (mk_extent 1 8 2) m).
Proof.
  simpl. repeat split.
  - repeat constructor.
  - repeat constructor; simpl; lia.
  - intros k1 e1 k2 e2 [H1|[]] [H2|[]] Hlt.
    injection H1 as <- <-. injection H2 as <- <-. lia.
  - intros H.
    pose proof (H 0 (mk_extent 1 0 8) 3 (mk_extent 1 8 2)
                  (or_introl eq_refl) (or_intror (or_introl eq_refl))) as Hc.
    simpl in Hc. lia.
Qed.

(** C3.  [lookup] returns [end()] although an entry contains the
    offset: when no key is at or above the offset the predecessor is
    never examined.  A read of ["/a"] from offset 3, after eight bytes
    were written at offset 0, therefore returns no byte. *)
Theorem lookup_misses_last_extent :
  Extmap.lookup 3 [(0, mk_extent 1 0 8)] = None /\
  extents_of "/a" written_a = Some [(0, mk_extent 1 0 8)] /\
  fs_read "/a" (bytes ".....") 5 3 written_a = (Ret 0, bytes ".....") /\
  ~ (forall m off k e,
       Extmap.well_formed m -> Extmap.non_overlap m ->
       In (k, e) m -> k <= off < k + Extmap.len e ->
       Extmap.lookup off m = Some (k, e)).
Proof.
  split; [reflexivity|].
  split; [vm_compute; reflexivity|].
  split; [vm_compute; reflexivity|].
  intros H.
  specialize (H [(0, mk_extent 1 0 8)] 3 0 (mk_extent 1 0 8)).
  assert (Hl : Extmap.lookup 3 [(0, mk_extent 1 0 8)] = Some (0, mk_extent 1 0 8)).
  { apply H.
    - split; repeat constructor; simpl; lia.
    - intros k1 e1 k2 e2 [H1|[]] [H2|[]] Hlt.
      injection H1 as <- <-. injection H2 as <- <-. lia.
    - left. reflexivity.
    - simpl. lia. }
  discriminate Hl.
Qed.

(** C7.  The tail-append merge fires although the two extents carry
    different object numbers; the general logic would have kept them
    apart.  The map arises when ["/a"] is appended to after its first
    bytes were sealed into object 1 and eight bytes of another file
    already sit in the data log of object 2: the appended bytes are then
    attributed to object 1. *)
Theorem tail_merge_ignores_objnum :
  let m := [(0, mk_extent 1 0 8)] in
  let e := mk_extent 2 8 4 in
  Extmap.objnum e <> 1 /\
  Extmap.update 8 e m = [(0, mk_extent 1 0 12)] /\
  Extmap.update_general 8 e m = [(0, mk_extent 1 0 8); (8, mk_extent 2 8 4)] /\
  extents_of "/a" sealed_a = Some m /\
  this_index sealed_a = 2 /\
  extents_of "/a" appended_a = Some [(0, mk_extent 1 0 12)].
Proof.
  cbv zeta. split; [intros H; vm_compute in H; discriminate H|].
  repeat split; vm_compute; reflexivity.
Qed.

(** C4.  Truncating the replayed file ["/a"] (one extent of eight bytes,
    size 8) to 4 leaves the extent whole: [lookup 4] finds nothing, the
    loop of [do_trunc] ends at once, and only [size] changes. *)
Theorem do_trunc_keeps_last_extent :
  extents_of "/a" remounted = Some [(0, mk_extent 1 0 8)] /\
  size <$> inode_of "/a" remounted = Some 8 /\
  let s := snd (fs_truncate en0 "/a" 4 remounted) in
  fst (fs_truncate en0 "/a" 4 remounted) = Ret 0 /\
  extents_of "/a" s = Some [(0, mk_extent 1 0 8)] /\
  size <$> inode_of "/a" s = Some 4 /\
  ~ (forall k e, In (k, e) [(0, mk_extent 1 0 8)] -> k + Extmap.len e <= 4).
Proof.
  repeat split; try (vm_compute; reflexivity).
  intros H. specialize (H 0 (mk_extent 1 0 8) (or_introl eq_refl)).
  simpl in H. lia.
Qed.

(** ** Scenarios on the mounted file system *)

(** C1.  After the two writes the extent map of ["/a"] has its entries
    at offsets 0 and 3 (the first still eight bytes long), and reading
    eight bytes from offset 0 returns the bytes of the first write. *)
Theorem overwrite_scenario_trace :
  fst (fs_create en0 "/a" 420 mounted) = Ret 0 /\
  fst (fs_write en0 "/a" (bytes "AAAAAAAA") 8 0 created_a) = Ret 8 /\
  fst (fs_write en0 "/a" (bytes "bb") 2 3 written_a) = Ret 2 /\
  extents_of "/a" overwritten_a
    = Some [(0, mk_extent 1 0 8); (3, mk_extent 1 8 2)] /\
  fs_read "/a" (bytes "........") 8 0 overwritten_a
    = (Ret 8, bytes "AAAAAAAA").
Proof. repeat split; vm_compute; reflexivity. Qed.

(** C5.  [rename("/d1/x", "/d2/y")] returns 0 and the old name is gone,
    but the new entry is made in the source directory: ["/d2/y"] does
    not resolve and ["/d1/y"] does.  With the same leaf name,
    [rename("/d1/x", "/d2/x")] returns 0 and changes no name at all. *)
Theorem rename_across_directories_trace :
  path_2_inum "/d1/x" created_x = 4 /\
  fst (fs_rename en0 "/d1/x" "/d2/y" created_x) = Ret 0 /\
  path_2_inum "/d1/x" renamed_x = - ENOENT /\
  path_2_inum "/d2/y" renamed_x = - ENOENT /\
  path_2_inum "/d1/y" renamed_x = 4 /\
  fst (fs_rename en0 "/d1/x" "/d2/x" created_x) = Ret 0 /\
  path_2_inum "/d1/x" moved_x = 4 /\
  path_2_inum "/d2/x" moved_x = - ENOENT.
Proof. repeat split; vm_compute; reflexivity. Qed.

(** C6.  [symlink("/l", "target")] returns 0, but the link is stored
    under the key [(uint32_t)(-ENOENT)] instead of its inode number 2,
    its target is the leaf name ["l"], and [readlink("/l")] dereferences
    the missing table entry. *)
Theorem symlink_readlink_trace :
  fst (fs_symlink en0 "/l" "target" mounted) = Ret 0 /\
  path_2_inum "/l" linked = 2 /\
  inode_map linked !! 2 = None /\
  inode_map linked !! u32 (- ENOENT)
    = Some (fs_link (mk_inode 2 (Z.lor S_IFLNK 511) 1000 1000 0 0 (now en0)) "l") /\
  fst (fs_readlink "/l" (bytes "........") 8 linked) = Fault.
Proof. repeat split; vm_compute; reflexivity. Qed.

(** ** Replay of [TRUNC] *)

(** C8.  The bucket holds ["/a"] with one extent of eight bytes.  A
    [TRUNC] record for it with [new_size = 9] is refused: [read_hdr]
    returns "bad format" and nothing changes.  The object that a live
    [truncate("/a", 4)] seals carries [TRUNC(2, 4)] followed by the
    [LOG_INODE] record; replaying it returns 0 and the [LOG_INODE] record
    after the [TRUNC] is applied, but the extent is left eight bytes long
    under [size = 4], where the truncate of the specification cuts it to
    four.  When the map has an extent further on, the same record does cut
    the extent. *)
Theorem replay_trunc_keeps_last_extent :
  extents_of "/a" remounted = Some [(0, mk_extent 1 0 8)] /\
  size <$> inode_of "/a" remounted = Some 8 /\
  replay 2 [LOG_TRUNC 2 9] remounted = (Ret bad_format, remounted) /\
  o_records <$> bucket truncated_a !! 2 = Some object2_records /\
  fst (replay 2 object2_records remounted) = Ret 0 /\
  extents_of "/a" remounted_truncated = Some [(0, mk_extent 1 0 8)] /\
  inode_of "/a" remounted_truncated
    = Some (mk_inode 2 (Z.lor S_IFREG 420) 1000 1000 0 4 (mk_timespec 1700000500 7)) /\
  TruncateSpec.spec_truncate 4 [(0, mk_extent 1 0 8)] = [(0, mk_extent 1 0 4)] /\
  TruncateSpec.spec_lookup 4 [(0, mk_extent 1 0 4)] = None /\
  extents_of "/a" (snd (replay 2 [LOG_DATA 2 0 12 16 4] remounted))
    = Some [(0, mk_extent 1 0 8); (12, mk_extent 2 0 4)] /\
  extents_of "/a" (snd (replay 2 [LOG_DATA 2 0 12 16 4; LOG_TRUNC 2 4] remounted))
    = Some [(0, mk_extent 1 0 4)] /\
  TruncateSpec.spec_truncate 4 [(0, mk_extent 1 0 8); (12, mk_extent 2 0 4)]
    = [(0, mk_extent 1 0 4)].
Proof.
  repeat split; vm_compute; reflexivity.
Qed.

(** ** [utimens] with a null [tv] *)



(** ** [readlink] *)

(** C10.  For a path that resolves to a symbolic link, [readlink] puts
    the first [min(len, |target|)] bytes of the target at the front of
    the caller's buffer, leaves every later byte of the buffer as it was
    (no terminator is written), and returns that count; for any other
    inode it returns [-EINVAL] and the buffer is untouched. *)
Theorem fs_readlink_copies path s buf count obj :
  0 <= path_2_inum path s ->
  inode_map s !! u32 (path_2_inum path s) = Some obj ->
  0 <= count <= Z.of_nat (length buf) ->
  match obj with
  | fs_link _ target =>
      strlen target < 2 ^ 31 ->
      let n := Z.min count (strlen target) in
      fs_readlink path buf count s
        = (Ret n,
           firstn (Z.to_nat n) (list_ascii_of_string target)
             ++ skipn (Z.to_nat n) buf) /\
      length (snd (fs_readlink path buf count s)) = length buf
  | _ => fs_readlink path buf count s = (Ret (- EINVAL), buf)
  end.
Proof.
  intros Hres Hobj Hcount. unfold fs_readlink.
  destruct (Z.ltb_spec (path_2_inum path s) 0) as [Hneg|_]; [lia|].
  rewrite Hobj. destruct obj as [i x|i d|i target|i]; try reflexivity.
  intros Hlen. simpl.
  assert (Hs : 0 <= strlen target) by (unfold strlen; lia).
  set (n := Z.min count (strlen target)).
  assert (Hn : 0 <= n <= strlen target) by (unfold n; lia).
  assert (Hsrc : length (firstn (Z.to_nat n) (list_ascii_of_string target))
                 = Z.to_nat n).
  { rewrite length_firstn. unfold strlen in Hn.
    assert (length (list_ascii_of_string target) = String.length target) as ->.
    { clear. induction target as [|c t IH]; simpl; [reflexivity|]. rewrite IH. reflexivity. }
    lia. }
  rewrite i32_small by lia. unfold memcpy. simpl (Z.to_nat 0). simpl firstn at 1.
  rewrite Hsrc. simpl. split; [reflexivity|].
  rewrite length_app, Hsrc, length_skipn. unfold n. lia.
Qed.

(** ** The theorems at work on the replayed bucket *)


Lemma fs_readlink_copies_witness :
  fs_readlink "/l" (bytes "........") 4 remounted = (Ret 4, bytes "targ....") /\
  fs_readlink "/a" (bytes "........") 4 remounted = (Ret (- EINVAL), bytes "........").
Proof.
  split.
  - assert (H1 : 0 <= path_2_inum "/l" remounted) by (vm_compute; discriminate).
    assert (H2 : inode_map remounted !! u32 (path_2_inum "/l" remounted)
                 = Some (fs_link link_l "target")) by (vm_compute; reflexivity).
    assert (H3 : 0 <= 4 <= Z.of_nat (length (bytes "........")))
      by (vm_compute; split; discriminate).
    pose proof (fs_readlink_copies "/l" remounted (bytes "........") 4 _ H1 H2 H3) as H.
    simpl in H. destruct H as [H _]; [vm_compute; reflexivity|]. exact H.
  - assert (H1 : 0 <= path_2_inum "/a" remounted) by (vm_compute; discriminate).
    assert (H2 : inode_map remounted !! u32 (path_2_inum "/a" remounted)
                 = Some (fs_file file_a [(0, mk_extent 1 0 8)]))
      by (vm_compute; reflexivity).
    assert (H3 : 0 <= 4 <= Z.of_nat (length (bytes "........")))
      by (vm_compute; split; discriminate).
    exact (fs_readlink_copies "/a" remounted (bytes "........") 4 _ H1 H2 H3).
Defined.

(* ------------------------------------------------------------------ *)
(** * Further properties *)

Import Extmap ExtmapSpec ExtmapFacts ExtmapInvariants ObjfsSpec ObjfsFacts.
Import NamespaceFacts TruncFacts EntryFacts PathFacts.

(** X1.  [lookup] returns [end()] exactly when every key of the map is
    below the offset, whether or not an entry contains the offset. *)
Theorem lookup_end_iff off m :
  lookup off m = None <-> forall a, In a m -> fst a < off.
Proof. exact (ExtmapInvariants.lookup_end_iff_aux off m). Qed.

(** X2.  On a map without overlaps that has a key at or above the
    offset, [lookup] returns the entry whose range contains the
    offset. *)
Theorem lookup_finds_containing off m k e :
  sorted m -> non_overlap m ->
  lower_bound off m <> None ->
  In (k, e) m -> k <= off < k + len e ->
  lookup off m = Some (k, e).
Proof. exact (ExtmapInvariants.lookup_finds_containing_aux off m k e). Qed.

(** X3.  When no entry that starts below the offset reaches past it,
    [lookup] is [lower_bound]: the entry with the lowest key at or above
    the offset, or [end()]. *)
Theorem lookup_without_container off m :
  sorted m ->
  (forall k e, In (k, e) m -> k < off -> k + len e <= off) ->
  lookup off m = lower_bound off m /\
  forall a b, lower_bound off m = Some a -> In b m -> off <= fst b -> fst a <= fst b.
Proof.
  intros Hs Hfree. split.
  - unfold lookup. destruct (lower_bound off m) as [[base e1]|] eqn:Hl; [|reflexivity].
    on_guard; [|reflexivity].
    simpl. destruct (before base m) as [[base0 e0]|] eqn:Hb; [|reflexivity].
    destruct (before_in _ _ _ Hb) as [Hin0 Hlt0]. simpl in Hlt0.
    pose proof (lower_bound_first off m _ _ Hs Hl Hin0 Hlt0) as Hb0. simpl in Hb0.
    pose proof (Hfree _ _ Hin0 Hb0).
    destruct (Z.ltb_spec off (base0 + len e0)); [lia|reflexivity].
  - intros a b Hl Hb Hk.
    destruct (Z.le_gt_cases (fst a) (fst b)) as [Hle|Hgt]; [exact Hle|].
    pose proof (lower_bound_first off m b a Hs Hl Hb Hgt). lia.
Qed.

(** X4.  [update] keeps a map free of overlaps whenever the map has a
    key at or above the offset, or nothing in it reaches past the
    offset. *)
Theorem update_keeps_non_overlap off e m :
  well_formed m -> non_overlap m -> 0 <= len e < 2 ^ 32 ->
  (lower_bound off m <> None \/ forall k v, In (k, v) m -> k + len v <= off) ->
  non_overlap (update off e m).
Proof. exact (ExtmapInvariants.update_keeps_non_overlap_aux off e m). Qed.

(** X5.  When a key at or above the offset exists and the tail merge is
    not taken, [update] installs the new extent and clears its range:
    every other entry starts at or after its end, or ends at or before
    its start. *)
Theorem update_clears_range off e m :
  well_formed m -> non_overlap m -> 0 <= len e < 2 ^ 32 ->
  lower_bound off m <> None ->
  (forall key val, back m = Some (key, val) -> extends_last key val off e = false) ->
  In (off, e) (update off e m) /\
  forall k v, In (k, v) (update off e m) ->
    (k, v) = (off, e) \/ off + len e <= k \/ (k < off /\ k + len v <= off).
Proof. exact (ExtmapInvariants.update_clears_range_aux off e m). Qed.

(** X6.  After an [update] that is not a tail merge, [lookup] at the
    same offset returns the entry just installed. *)
Theorem lookup_after_update off e m :
  well_formed m ->
  (forall key val, back m = Some (key, val) -> extends_last key val off e = false) ->
  lookup off (update off e m) = Some (off, e).
Proof.
  intros Hwf Hnm.
  assert (Hset : forall x, sorted x -> lookup off (map_set off e x) = Some (off, e)).
  { intros x Hx. unfold lookup.
    rewrite (lower_bound_found off e (map_set off e x));
      [|apply map_set_sorted, Hx|apply map_set_has].
    rewrite Z.gtb_ltb, Z.ltb_irrefl.
    reflexivity. }
  unfold update. destruct (back m) as [[key val]|] eqn:Hback.
  2:{ apply Hset, Hwf. }
  rewrite (Hnm _ _ eq_refl). unfold update_general.
  destruct (lower_bound off m); [|apply Hset, Hwf].
  pose proof (erase_covered_wf (from_lower_bound off m) off e m Hwf) as H1.
  destruct (erase_covered (from_lower_bound off m) off e m) as [it m1]. simpl in H1.
  apply Hset. apply trim_left_wf, trim_right_wf, H1.
Qed.

(** X7.  [update], where it does not take the tail merge and the map has
    a key at or above the offset or nothing in it reaches past the
    offset: every position of the new extent's range is backed by the new
    extent's bytes, and every other position by what backed it before. *)
Theorem update_backing off e m p o x :
  well_formed m -> non_overlap m -> offsets_ok m ->
  0 < len e < 2 ^ 32 ->
  (lower_bound off m <> None \/ forall k v, In (k, v) m -> k + len v <= off) ->
  (forall key val, back m = Some (key, val) -> extends_last key val off e = false) ->
  (backs (update off e m) p o x <->
   (off <= p < off + len e /\ o = objnum e /\ x = offset e + (p - off))
   \/ (~ off <= p < off + len e /\ backs m p o x)).
Proof. exact (ExtmapInvariants.update_backing_aux off e m p o x). Qed.

(** X8.  The tail merge, for extents of one object whose bytes are
    adjacent: the merged entry backs the appended range by the new
    extent's bytes and every other position as before. *)
Theorem update_merge_backing off e m key val p o x :
  well_formed m -> non_overlap m -> offsets_ok m ->
  back m = Some (key, val) ->
  off = key + len val ->
  offset e = offset val + len val -> offset e < 2 ^ 32 ->
  objnum e = objnum val ->
  0 <= len e -> len val + len e < 2 ^ 32 ->
  (backs (update off e m) p o x <->
   (off <= p < off + len e /\ o = objnum e /\ x = offset e + (p - off))
   \/ (~ off <= p < off + len e /\ backs m p o x)).
Proof.
  intros Hwf Hno Hoff Hback -> Hadj Hlt32 Hobj He Hsum.
  pose proof (back_in _ _ Hback) as Hin.
  pose proof (lens_ok_in _ _ (proj2 Hwf) Hin) as Hlen. simpl in Hlen.
  destruct (Hoff _ _ Hin) as [Ho1 Ho2].
  unfold update. rewrite Hback.
  assert (Hx : extends_last key val (key + len val) e = true).
  { unfold extends_last. rewrite Z.eqb_refl. simpl.
    apply Z.eqb_eq. rewrite u32_small; lia. }
  rewrite Hx. rewrite (u32_small (len val + len e)) by lia.
  set (val' := with_len val (len val + len e)).
  assert (Hbelow : forall k v, In (k, v) m -> k <> key -> k + len v <= key).
  { intros k v Ha Hne. pose proof (back_max _ _ _ (proj1 Hwf) Hback Ha) as H.
    simpl in H. apply (Hno _ _ _ _ Ha Hin). lia. }
  split.
  - intros (k & v & Ha & Hc & -> & ->).
    apply (map_set_in_other _ _ _ _ _ (proj1 Hwf)) in Ha as [Heq|[Ha Hne]].
    + injection Heq as -> ->. simpl in Hc.
      destruct (Z.lt_ge_cases p (key + len val)) as [Hlo|Hhi].
      * right. split; [lia|]. exists key, val.
        split; [exact Hin|]. split; [lia|]. split; reflexivity.
      * left. split; [lia|]. split; [simpl; congruence|]. simpl. lia.
    + right. pose proof (Hbelow _ _ Ha Hne). split; [lia|].
      exists k, v. split; [exact Ha|]. split; [exact Hc|]. split; reflexivity.
  - intros [(Hp & -> & ->)|(Hp & k & v & Ha & Hc & -> & ->)].
    + exists key, val'. split; [apply map_set_has|].
      split; [simpl; lia|]. split; [simpl; congruence|]. simpl. lia.
    + destruct (Z.eq_dec k key) as [->|Hne].
      * rewrite (sorted_unique m key v val (proj1 Hwf) Ha Hin) in *.
        exists key, val'. split; [apply map_set_has|].
        split; [simpl; lia|]. split; reflexivity.
      * exists k, v. split; [apply map_set_keeps; assumption|].
        split; [exact Hc|]. split; reflexivity.
Qed.

(** X9.  [erase] removes the entry with the given key and nothing else;
    the map stays sorted and free of overlaps. *)
Theorem erase_keeps_non_overlap off m :
  well_formed m -> non_overlap m ->
  well_formed (erase off m) /\ non_overlap (erase off m) /\
  (forall a, In a (erase off m) -> In a m /\ fst a <> off) /\
  (forall a, In a m -> fst a <> off -> In a (erase off m)).
Proof.
  intros Hwf Hno. split; [apply erase_wf, Hwf|].
  split; [apply ExtmapInvariants.map_erase_non_overlap, Hno|]. split.
  - intros [k v] Ha. unfold erase in Ha.
    apply (ExtmapInvariants.map_erase_in_other off m k v (proj1 Hwf)) in Ha.
    simpl. tauto.
  - intros [k v] Ha Hk. apply ExtmapInvariants.map_erase_keeps; assumption.
Qed.

(** X10.  The loop of [do_trunc] ends on every sorted map: past the fuel
    the model gives it the result no longer depends on the fuel, and in
    the map it leaves [lookup new_size] finds nothing. *)
Theorem do_trunc_terminates n m :
  well_formed m ->
  (forall fuel, (trunc_fuel n m <= fuel)%nat ->
     do_trunc_loop fuel n m = Some (do_trunc_extents n m)) /\
  well_formed (do_trunc_extents n m) /\
  lookup n (do_trunc_extents n m) = None.
Proof. exact (do_trunc_extents_total n m). Qed.

(** X11.  After [do_trunc] no entry starts at or beyond the new size. *)
Theorem do_trunc_drops_beyond n m a :
  well_formed m -> In a (do_trunc_extents n m) -> fst a < n.
Proof.
  intros Hwf Ha.
  destruct (do_trunc_extents_total n m Hwf) as (_ & _ & Hend).
  apply (proj1 (lookup_end_iff_aux n _) Hend a Ha).
Qed.

(** X12.  A map whose keys are all at or beyond the new size is emptied;
    in particular truncation to 0 empties every map of non-negative
    keys. *)
Theorem do_trunc_empties n m :
  well_formed m -> (forall a, In a m -> n <= fst a) ->
  do_trunc_extents n m = [].
Proof. exact (ExtmapInvariants.do_trunc_empties_aux n m). Qed.

(** X13.  Whenever the map has a key at or beyond the new size (or
    nothing reaches past it), [do_trunc] leaves every extent within the
    new size and the map free of overlaps. *)
Theorem do_trunc_within n m :
  well_formed m -> non_overlap m ->
  (lower_bound n m <> None \/ forall k v, In (k, v) m -> k + len v <= n) ->
  non_overlap (do_trunc_extents n m) /\
  forall k v, In (k, v) (do_trunc_extents n m) -> k + len v <= n.
Proof. exact (ExtmapInvariants.do_trunc_within_aux n m). Qed.

(** X14.  [do_trunc] never changes what backs a position below the new
    size. *)
Theorem do_trunc_keeps_data n m p o x :
  well_formed m -> non_overlap m -> offsets_ok m -> p < n ->
  (backs (do_trunc_extents n m) p o x <-> backs m p o x).
Proof. exact (ExtmapInvariants.do_trunc_keeps_data_aux n m p o x). Qed.

(** X15.  Replay refuses a [TRUNC] record whose inode is unknown, or whose
    [new_size] exceeds the size of the inode (of whatever kind):
    [read_hdr] returns "bad format" and the table is as the earlier
    records of the object left it. *)
Theorem replay_trunc_rejects idx oh pre rest avail s s1 ino new_size :
  usize (h_hdr_len oh) <= avail ->
  h_magic oh = OBJFS_MAGIC -> h_version oh = 1 -> h_type oh = 1 ->
  read_records idx pre s = (Ret 0, s1) ->
  (inode_map s1 !! ino = None \/
   exists obj, inode_map s1 !! ino = Some obj /\ size (hdr obj) < new_size) ->
  read_hdr idx oh (pre ++ LOG_TRUNC ino new_size :: rest) avail s
    = (Ret bad_format, s1).
Proof.
  intros Havail Hmagic Hver Hty Hpre Hcase.
  rewrite (read_hdr_checked _ _ _ _ _ Havail Hmagic Hver Hty).
  rewrite (read_records_app idx pre (LOG_TRUNC ino new_size :: rest) s s1 Hpre).
  simpl. unfold read_log_trunc.
  destruct Hcase as [Hnone|(obj & Hobj & Hlt)].
  - rewrite Hnone. reflexivity.
  - rewrite Hobj. destruct (Z.ltb_spec (size (hdr obj)) new_size); [reflexivity|lia].
Qed.

(** X16.  Replay of a [TRUNC] record for a file whose map has a key at or
    beyond [new_size] (or nothing past it): the size becomes [new_size],
    the other fields stay, no extent reaches past [new_size], what backs
    the positions below it is unchanged, and [read_hdr] goes on with the
    records that follow. *)
Theorem replay_trunc_truncates idx oh pre rest avail s s1 ino new_size i extents :
  usize (h_hdr_len oh) <= avail ->
  h_magic oh = OBJFS_MAGIC -> h_version oh = 1 -> h_type oh = 1 ->
  read_records idx pre s = (Ret 0, s1) ->
  inode_map s1 !! ino = Some (fs_file i extents) ->
  new_size <= size i ->
  Extmap.well_formed extents -> Extmap.non_overlap extents -> offsets_ok extents ->
  (Extmap.lower_bound new_size extents <> None \/
   forall k v, In (k, v) extents -> k + Extmap.len v <= new_size) ->
  exists extents',
    read_hdr idx oh (pre ++ LOG_TRUNC ino new_size :: rest) avail s
      = read_records idx rest
          (put_inode ino
             (fs_file (mk_inode (inum i) (mode i) (uid i) (gid i) (rdev i)
                         new_size (mtime i)) extents') s1) /\
    Extmap.non_overlap extents' /\
    (forall k v, In (k, v) extents' -> k + Extmap.len v <= new_size) /\
    (forall p o x, p < new_size -> (backs extents' p o x <-> backs extents p o x)).
Proof.
  intros Havail Hmagic Hver Hty Hpre Hfile Hle Hwf Hno Hoff Hcase.
  exists (Extmap.do_trunc_extents new_size extents).
  split; [|apply do_trunc_extents_cut; assumption].
  rewrite (read_hdr_checked _ _ _ _ _ Havail Hmagic Hver Hty).
  rewrite (read_records_app idx pre (LOG_TRUNC ino new_size :: rest) s s1 Hpre).
  simpl. unfold read_log_trunc. rewrite Hfile. simpl.
  destruct (Z.ltb_spec (size i) new_size); [lia|]. reflexivity.
Qed.

(** X17.  [truncate] on a file whose map has a key at or beyond the new
    length (or nothing past it): the size becomes the new length, [mtime]
    the clock time, no extent reaches past the new length, the positions
    below it keep their bytes, and [TRUNC(inum, len)] is staged or
    sealed.  The call returns 0, or throws when its flush fails. *)
Theorem fs_truncate_truncates en path n s i extents :
  0 <= path_2_inum path s ->
  inode_map s !! u32 (path_2_inum path s) = Some (fs_file i extents) ->
  Extmap.well_formed extents -> Extmap.non_overlap extents -> offsets_ok extents ->
  (Extmap.lower_bound n extents <> None \/
   forall k v, In (k, v) extents -> k + Extmap.len v <= n) ->
  let k := u32 (path_2_inum path s) in
  exists r s' extents',
    fs_truncate en path n s = (r, s') /\
    (r = Ret 0 \/ (put_ok en = false /\ r = Throw "put failed")) /\
    inode_map s' !! k
      = Some (fs_file (mk_inode (inum i) (mode i) (uid i) (gid i) (rdev i) n (now en))
                extents') /\
    Extmap.non_overlap extents' /\
    (forall k0 v, In (k0, v) extents' -> k0 + Extmap.len v <= n) /\
    (forall p o x, p < n -> (backs extents' p o x <-> backs extents p o x)) /\
    staged_or_sealed (LOG_TRUNC k n) s s'.
Proof.
  intros Hres Hobj Hwf Hno Hoff Hcase. cbv zeta.
  set (k := u32 (path_2_inum path s)) in *.
  unfold fs_truncate. fold k.
  destruct (Z.ltb_spec (path_2_inum path s) 0) as [Hneg|_]; [lia|].
  rewrite Hobj.
  match goal with |- context [flush_then_return en 0 ?st] => set (s1 := st) end.
  destruct (flush_then_return_spec en 0 s1) as (s' & Hrun & Hmap & _ & Hlog & _).
  exists (if flush_needed s1 && negb (put_ok en) then Throw "put failed" else Ret 0),
    s', (Extmap.do_trunc_extents n extents).
  split; [exact Hrun|]. split.
  { destruct (flush_needed s1); simpl; [|left; reflexivity].
    destruct (put_ok en); simpl; [left; reflexivity|right; split; reflexivity]. }
  split.
  { rewrite Hmap. unfold s1. simpl. rewrite lookup_insert_eq. reflexivity. }
  destruct (do_trunc_extents_cut n extents Hwf Hno Hoff Hcase) as (G1 & G2 & G3).
  split; [exact G1|]. split; [exact G2|]. split; [exact G3|].
  apply (Hlog (LOG_TRUNC k n)). unfold s1. simpl.
  apply in_or_app. right. left. reflexivity.
Qed.

(** X18.  [utimens] with a [tv] whose [tv[1].tv_nsec] is not [UTIME_NOW]:
    [tv[0]] is never read; [mtime] becomes [tv[1]], or stays as it was
    when [tv[1].tv_nsec] is [UTIME_OMIT]; nothing else of the inode
    changes and the inode is dirty (or its record written). *)
Theorem fs_utimens_explicit en path s obj atime t :
  0 <= path_2_inum path s ->
  inode_map s !! u32 (path_2_inum path s) = Some obj ->
  tv_nsec t <> UTIME_NOW ->
  let k := u32 (path_2_inum path s) in
  let i := hdr obj in
  let stamp := if tv_nsec t =? UTIME_OMIT then mtime i else t in
  exists r s',
    fs_utimens en path (Some (atime, t)) s = (r, s') /\
    (r = Ret 0 \/ (put_ok en = false /\ r = Throw "put failed")) /\
    inode_map s' !! k
      = Some (map_hdr (fun _ => mk_inode (inum i) (mode i) (uid i) (gid i) (rdev i)
                                  (size i) stamp) obj) /\
    (k ∈ dirty_inodes s' \/
     staged_or_sealed (LOG_INODE (inum i) (mode i) (uid i) (gid i) (rdev i) stamp) s s').
Proof.
  intros Hres Hobj Hnow. cbv zeta.
  set (k := u32 (path_2_inum path s)) in *.
  unfold fs_utimens. fold k.
  destruct (Z.ltb_spec (path_2_inum path s) 0) as [Hneg|_]; [lia|].
  rewrite Hobj.
  destruct (Z.eqb_spec (tv_nsec t) UTIME_NOW) as [|_]; [contradiction|].
  match goal with |- context [flush_then_return en 0 ?st] => set (s1 := st) end.
  destruct (flush_then_return_spec en 0 s1) as (s' & Hrun & Hmap & _ & _ & Hdirty).
  exists (if flush_needed s1 && negb (put_ok en) then Throw "put failed" else Ret 0), s'.
  split; [exact Hrun|]. split.
  { destruct (flush_needed s1); simpl; [|left; reflexivity].
    destruct (put_ok en); simpl; [left; reflexivity|right; split; reflexivity]. }
  assert (Hk : inode_map s1 !! k
               = Some (map_hdr (fun _ => mk_inode (inum (hdr obj)) (mode (hdr obj))
                                  (uid (hdr obj)) (gid (hdr obj)) (rdev (hdr obj))
                                  (size (hdr obj))
                                  (if tv_nsec t =? UTIME_OMIT then mtime (hdr obj) else t))
                         obj)).
  { unfold s1. simpl. rewrite lookup_insert_eq.
    destruct (tv_nsec t =? UTIME_OMIT); simpl; destruct obj as [[]|[]|[]|[]]; reflexivity. }
  split; [rewrite Hmap; exact Hk|].
  assert (Hd : k ∈ dirty_inodes s1) by (unfold s1; simpl; set_solver).
  destruct (Hdirty k _ Hd Hk) as [H|H]; [left; exact H|right].
  destruct obj as [[]|[]|[]|[]]; exact H.
Qed.

(** X19.  [chmod] with a mode that carries no file-type bits keeps the
    file-type bits of the inode and the kind of the inode, sets the
    twelve permission bits to those of the argument, and leaves every
    other field. *)
Theorem fs_chmod_keeps_type en path md s obj :
  0 <= path_2_inum path s ->
  inode_map s !! u32 (path_2_inum path s) = Some obj ->
  Z.land md S_IFMT = 0 ->
  let k := u32 (path_2_inum path s) in
  let i := hdr obj in
  exists r s' obj',
    fs_chmod en path md s = (r, s') /\
    (r = Ret 0 \/ (put_ok en = false /\ r = Throw "put failed")) /\
    inode_map s' !! k = Some obj' /\
    type obj' = type obj /\
    Z.land (mode (hdr obj')) S_IFMT = Z.land (mode i) S_IFMT /\
    Z.land (mode (hdr obj')) 4095 = Z.land md 4095 /\
    hdr obj' = mk_inode (inum i) (mode (hdr obj')) (uid i) (gid i) (rdev i) (size i)
                 (mtime i) /\
    (k ∈ dirty_inodes s' \/ staged_or_sealed (inode_record obj') s s').
Proof.
  intros Hres Hobj Hmd. cbv zeta.
  set (k := u32 (path_2_inum path s)) in *.
  unfold fs_chmod. fold k.
  destruct (Z.ltb_spec (path_2_inum path s) 0) as [Hneg|_]; [lia|].
  rewrite Hobj.
  match goal with |- context [put_inode k ?o s] => set (obj' := o) end.
  match goal with |- context [flush_then_return en 0 ?st] => set (s1 := st) end.
  destruct (flush_then_return_spec en 0 s1) as (s' & Hrun & Hmap & _ & _ & Hdirty).
  exists (if flush_needed s1 && negb (put_ok en) then Throw "put failed" else Ret 0),
    s', obj'.
  split; [exact Hrun|]. split.
  { destruct (flush_needed s1); simpl; [|left; reflexivity].
    destruct (put_ok en); simpl; [left; reflexivity|right; split; reflexivity]. }
  assert (Hk : inode_map s1 !! k = Some obj')
    by (unfold s1; simpl; apply lookup_insert_eq).
  assert (Hmode : mode (hdr obj') = u32 (Z.lor md (Z.land S_IFMT (mode (hdr obj)))))
    by (unfold obj'; destruct obj; reflexivity).
  split; [rewrite Hmap; exact Hk|].
  split; [unfold obj'; destruct obj; reflexivity|].
  split.
  { rewrite Hmode, land_u32 by (unfold S_IFMT; lia).
    rewrite Z.land_lor_distr_l, Hmd, Z.lor_0_l.
    rewrite (Z.land_comm S_IFMT), <- Z.land_assoc, Z.land_diag. reflexivity. }
  split.
  { rewrite Hmode, land_u32 by lia.
    rewrite Z.land_lor_distr_l.
    rewrite <- Z.land_assoc, (Z.land_comm (mode (hdr obj))), Z.land_assoc.
    change (Z.land S_IFMT 4095) with 0. rewrite Z.land_0_l, Z.lor_0_r. reflexivity. }
  split; [unfold obj'; destruct obj as [[]|[]|[]|[]]; reflexivity|].
  assert (Hd : k ∈ dirty_inodes s1) by (unfold s1; simpl; set_solver).
  apply (Hdirty k _ Hd Hk).
Qed.

(** X20.  [getattr] returns the negative result of the path lookup when
    the path does not resolve; otherwise 0 with the fields of the inode,
    link count 1, the three times equal to [mtime], and [st_blocks] the
    number of 4096-byte blocks that hold [size] bytes. *)
Theorem fs_getattr_reports path s :
  (path_2_inum path s < 0 -> fs_getattr path s = (Ret (path_2_inum path s), None)) /\
  (forall obj,
     0 <= path_2_inum path s ->
     inode_map s !! u32 (path_2_inum path s) = Some obj ->
     0 <= size (hdr obj) ->
     exists st,
       fs_getattr path s = (Ret 0, Some st) /\
       st_ino st = inum (hdr obj) /\ st_mode st = mode (hdr obj) /\
       st_nlink st = 1 /\
       st_uid st = uid (hdr obj) /\ st_gid st = gid (hdr obj) /\
       st_size st = size (hdr obj) /\
       st_mtim st = mtime (hdr obj) /\ st_atim st = mtime (hdr obj) /\
       st_ctim st = mtime (hdr obj) /\
       4096 * (st_blocks st - 1) < size (hdr obj) <= 4096 * st_blocks st).
Proof.
  split.
  - intros Hneg. unfold fs_getattr.
    destruct (Z.ltb_spec (path_2_inum path s) 0); [reflexivity|lia].
  - intros obj Hres Hobj Hsize. unfold fs_getattr.
    destruct (Z.ltb_spec (path_2_inum path s) 0); [lia|].
    rewrite Hobj. eexists. split; [reflexivity|]. simpl.
    repeat (split; [reflexivity|]).
    rewrite Z.quot_div_nonneg by lia.
    pose proof (Z.div_mod (size (hdr obj) + 4095) 4096 ltac:(lia)) as Hdm.
    pose proof (Z.mod_pos_bound (size (hdr obj) + 4095) 4096 ltac:(lia)) as Hb.
    lia.
Qed.

(** X21.  [split] yields the components of a path: none is empty and
    none holds the delimiter. *)
Theorem split_tokens path d :
  Forall (fun t => t <> EmptyString /\ ~ In d (list_ascii_of_string t)) (split path d).
Proof. apply split_from_tokens. simpl. tauto. Qed.

(** X22.  The components of [a/b] are those of [a] followed by those of
    [b], and resolving [a/b] is resolving [a] and walking on from there
    through the components of [b]. *)
Theorem path_2_inum_concat s a b :
  inums_fit s -> 0 <= path_2_inum a s ->
  split (a +:+ String "/" b) "/" = split a "/" ++ split b "/" /\
  path_2_inum (a +:+ String "/" b) s = walk (path_2_inum a s) (split b "/") s.
Proof.
  intros Hfit Hres.
  assert (Hs : split (a +:+ String "/" b) "/" = split a "/" ++ split b "/")
    by apply split_from_concat.
  split; [exact Hs|].
  unfold path_2_inum, vec_2_inum in *. rewrite Hs.
  apply (walk_app s Hfit); [lia|exact Hres].
Qed.

(** X23.  [create_node] on a path whose parent is a directory and whose
    leaf does not exist: the call returns 0 (or throws when its flush
    fails), the path then resolves to the inode number it allocated,
    [next_inode] has advanced by one, and [getattr] of the path reports
    the new inode: the mode and device given, the caller's uid and gid,
    size 0, the clock time. *)
Theorem create_node_then_resolves en path md ty dev s inum0 parent leaf pi d :
  inums_fit s -> 0 <= next_inode s < 2 ^ 31 ->
  inode_map s !! next_inode s = None ->
  path_2_inum2 path s = Some (inum0, parent, leaf) ->
  inum0 < 0 -> 0 <= parent ->
  inode_map s !! u32 parent = Some (fs_directory pi d) ->
  let n := next_inode s in
  exists r s' o,
    create_node en path md ty dev s = (r, s') /\
    (r = Ret 0 \/ (put_ok en = false /\ r = Throw "put failed")) /\
    path_2_inum path s' = n /\
    next_inode s' = n + 1 /\
    inums_fit s' /\
    inode_map s' !! n = Some o /\ type o = ty /\
    hdr o = mk_inode n (u32 md) (ctx_uid en) (ctx_gid en) (u32 dev) 0 (now en) /\
    fs_getattr path s'
      = (Ret 0, Some (mk_stat n (u32 md) 1 (ctx_uid en) (ctx_gid en) 0 0
                        (now en) (now en) (now en))).
Proof.
  intros Hfit Hn Hfresh Hp2 Hneg Hpos Hpd0. cbv zeta.
  destruct (path_2_inum2_parent s Hfit path inum0 parent leaf Hp2 Hpos)
    as (pre & Hsplit & Hpar & Hpr & Hinum & _).
  destruct (u32_i32_fit parent Hpr) as [Hup _]. rewrite Hup in Hpd0.
  destruct (u32_i32_fit _ Hn) as [Hun Hin].
  assert (Hne : parent <> next_inode s) by (intros ->; congruence).
  unfold create_node. rewrite Hp2.
  destruct (Z.geb_spec inum0 0) as [|_]; [lia|].
  destruct (Z.ltb_spec parent 0) as [|_]; [lia|].
  rewrite Hup, Hpd0, Hun.
  set (i := mk_inode (next_inode s) (u32 md) (ctx_uid en) (ctx_gid en) (u32 dev) 0 (now en)).
  set (f := match ty with
            | OBJ_FILE => fs_file i []
            | OBJ_DIR => fs_directory i ∅
            | OBJ_SYMLINK => fs_link i ""
            | OBJ_OTHER => fs_other i
            end).
  match goal with |- context [flush_then_return en 0 ?st] => set (s5 := st) end.
  destruct (flush_then_return_spec en 0 s5) as (s' & Hrun & Hmap & Hnext & _ & _).
  assert (Htbl : inode_map s5
                 = <[parent := fs_directory (with_mtime (now en) pi)
                                 (<[leaf := next_inode s]> d)]>
                     (<[parent := fs_directory pi (<[leaf := next_inode s]> d)]>
                        (<[next_inode s := f]> (inode_map s)))) by reflexivity.
  assert (Hp5 : inode_map s' !! parent
                = Some (fs_directory (with_mtime (now en) pi) (<[leaf := next_inode s]> d))).
  { rewrite Hmap, Htbl. apply lookup_insert_eq. }
  assert (Hn5 : inode_map s' !! next_inode s = Some f).
  { rewrite Hmap, Htbl. rewrite !lookup_insert_ne by exact Hne. apply lookup_insert_eq. }
  assert (Hother : forall k, k <> parent -> k <> next_inode s ->
                             inode_map s' !! k = inode_map s !! k).
  { intros k H1 H2. rewrite Hmap, Htbl. rewrite !lookup_insert_ne by congruence.
    reflexivity. }
  assert (Hext : extends s s').
  { intros k i0 d0 name c Hk Hnm.
    destruct (Z.eq_dec k parent) as [->|Hkp].
    - rewrite Hpd0 in Hk. injection Hk as <- <-.
      eexists _, _. split; [exact Hp5|].
      rewrite lookup_insert_ne; [exact Hnm|]. intros <-.
      pose proof (inums_fit_lookup s parent pi d leaf c Hfit Hpd0 Hnm) as Hc.
      rewrite Hinum in Hneg. simpl in Hneg. rewrite Hpd0, Hnm in Hneg.
      rewrite i32_small in Hneg by lia. lia.
    - destruct (Z.eq_dec k (next_inode s)) as [->|Hkn]; [congruence|].
      eexists _, _. split; [rewrite Hother by assumption; exact Hk|exact Hnm]. }
  assert (Hres : path_2_inum path s' = next_inode s).
  { unfold path_2_inum, vec_2_inum. rewrite Hsplit.
    destruct (walk_extends s s' Hfit Hext [leaf] pre 1 ltac:(lia)) as [Happ _].
    { rewrite <- Hpar. exact Hpos. }
    rewrite Happ, <- Hpar. simpl. rewrite Hp5, lookup_insert_eq. exact Hin. }
  eexists _, s', f. split; [exact Hrun|].
  split; [apply outcome_cases|].
  split; [exact Hres|]. split; [rewrite Hnext; reflexivity|]. split.
  { assert (Hd : map_Forall (fun (_ : string) c => 0 <= c < 2 ^ 31)
                   (<[leaf := next_inode s]> d)).
    { apply map_Forall_insert_2; [lia|].
      apply (map_Forall_lookup_1 _ _ _ _ Hfit Hpd0). }
    assert (Hf : match f with
                 | fs_directory _ d0 => map_Forall (fun (_ : string) c => 0 <= c < 2 ^ 31) d0
                 | _ => True
                 end).
    { unfold f. destruct ty; simpl; try exact I. apply map_Forall_empty. }
    unfold inums_fit. rewrite Hmap, Htbl.
    apply map_Forall_insert_2; [exact Hd|].
    apply map_Forall_insert_2; [exact Hd|].
    apply map_Forall_insert_2; [exact Hf|exact Hfit]. }
  split; [exact Hn5|].
  split; [unfold f; destruct ty; reflexivity|].
  split; [unfold f; destruct ty; reflexivity|].
  unfold fs_getattr. rewrite Hres.
  destruct (Z.ltb_spec (next_inode s) 0); [lia|].
  rewrite Hun, Hn5. unfold f. destruct ty; reflexivity.
Qed.








(* ------------------------------------------------------------------ *)
(** ** The properties at work *)

Lemma two_extents_wf : well_formed two_extents.
Proof. split; repeat constructor; simpl; lia. Qed.

Lemma two_extents_non_overlap : non_overlap two_extents.
Proof.
  intros k1 e1 k2 e2 [H1|[H1|[]]] [H2|[H2|[]]] Hlt;
    injection H1 as <- <-; injection H2 as <- <-; simpl; lia.
Qed.

Lemma two_extents_offsets_ok : offsets_ok two_extents.
Proof. intros k v [H|[H|[]]]; injection H as <- <-; simpl; lia. Qed.

Lemma lookup_end_iff_witness : lookup 30 two_extents = None.
Proof.
  apply (proj2 (lookup_end_iff 30 two_extents)).
  intros a [<-|[<-|[]]]; simpl; lia.
Defined.

Lemma lookup_finds_containing_witness :
  lookup 3 two_extents = Some (0, mk_extent 1 0 8).
Proof.
  apply (lookup_finds_containing 3 two_extents 0 (mk_extent 1 0 8)).
  - apply two_extents_wf.
  - apply two_extents_non_overlap.
  - simpl. discriminate.
  - left. reflexivity.
  - simpl. lia.
Defined.

Lemma lookup_without_container_witness :
  lookup 10 two_extents = lower_bound 10 two_extents /\
  forall a b, lower_bound 10 two_extents = Some a -> In b two_extents ->
              10 <= fst b -> fst a <= fst b.
Proof.
  apply (lookup_without_container 10 two_extents).
  - apply two_extents_wf.
  - intros k e [H|[H|[]]]; injection H as <- <-; simpl; lia.
Defined.

Lemma no_tail_merge_at_4 :
  forall key val, back two_extents = Some (key, val) ->
    extends_last key val 4 (mk_extent 2 0 10) = false.
Proof. intros key val H. injection H as <- <-. reflexivity. Qed.

Lemma update_keeps_non_overlap_witness :
  non_overlap (update 4 (mk_extent 2 0 10) two_extents).
Proof.
  apply (update_keeps_non_overlap 4 (mk_extent 2 0 10) two_extents).
  - apply two_extents_wf.
  - apply two_extents_non_overlap.
  - simpl. lia.
  - left. simpl. discriminate.
Defined.

Lemma update_clears_range_witness :
  In (4, mk_extent 2 0 10) (update 4 (mk_extent 2 0 10) two_extents) /\
  forall k v, In (k, v) (update 4 (mk_extent 2 0 10) two_extents) ->
    (k, v) = (4, mk_extent 2 0 10) \/ 4 + 10 <= k \/ (k < 4 /\ k + len v <= 4).
Proof.
  apply (update_clears_range 4 (mk_extent 2 0 10) two_extents).
  - apply two_extents_wf.
  - apply two_extents_non_overlap.
  - simpl. lia.
  - simpl. discriminate.
  - apply no_tail_merge_at_4.
Defined.

Lemma lookup_after_update_witness :
  lookup 4 (update 4 (mk_extent 2 0 10) two_extents) = Some (4, mk_extent 2 0 10).
Proof.
  apply (lookup_after_update 4 (mk_extent 2 0 10) two_extents).
  - apply two_extents_wf.
  - apply no_tail_merge_at_4.
Defined.

Lemma update_backing_witness :
  backs (update 4 (mk_extent 2 0 10) two_extents) 5 2 1 /\
  backs (update 4 (mk_extent 2 0 10) two_extents) 2 1 2 /\
  ~ backs (update 4 (mk_extent 2 0 10) two_extents) 5 1 5.
Proof.
  assert (H : forall p o x,
             backs (update 4 (mk_extent 2 0 10) two_extents) p o x <->
             (4 <= p < 4 + 10 /\ o = 2 /\ x = 0 + (p - 4))
             \/ (~ 4 <= p < 4 + 10 /\ backs two_extents p o x)).
  { intros p o x.
    apply (update_backing 4 (mk_extent 2 0 10) two_extents p o x).
    - apply two_extents_wf.
    - apply two_extents_non_overlap.
    - apply two_extents_offsets_ok.
    - simpl. lia.
    - left. simpl. discriminate.
    - apply no_tail_merge_at_4. }
  split; [|split].
  - apply H. left. lia.
  - apply H. right. split; [lia|].
    exists 0, (mk_extent 1 0 8). split; [left; reflexivity|]. simpl. lia.
  - intros Hb. apply H in Hb. destruct Hb as [(_ & Ho & _)|(Hp & _)]; lia.
Defined.

Lemma update_merge_backing_witness :
  update 8 (mk_extent 1 8 4) [(0, mk_extent 1 0 8)] = [(0, mk_extent 1 0 12)] /\
  backs (update 8 (mk_extent 1 8 4) [(0, mk_extent 1 0 8)]) 9 1 9.
Proof.
  split; [reflexivity|].
  apply (update_merge_backing 8 (mk_extent 1 8 4) [(0, mk_extent 1 0 8)]
           0 (mk_extent 1 0 8) 9 1 9).
  - split; repeat constructor; simpl; lia.
  - intros k1 e1 k2 e2 [H1|[]] [H2|[]] Hlt.
    injection H1 as <- <-. injection H2 as <- <-. lia.
  - intros k v [H|[]]. injection H as <- <-. simpl. lia.
  - reflexivity.
  - reflexivity.
  - reflexivity.
  - simpl. lia.
  - reflexivity.
  - simpl. lia.
  - simpl. lia.
  - left. simpl. lia.
Defined.

Lemma erase_keeps_non_overlap_witness :
  non_overlap (erase 0 two_extents) /\
  ~ In (0, mk_extent 1 0 8) (erase 0 two_extents) /\
  In (20, mk_extent 1 10 4) (erase 0 two_extents).
Proof.
  destruct (erase_keeps_non_overlap 0 two_extents two_extents_wf two_extents_non_overlap)
    as (_ & Hno & Hgone & Hkept).
  split; [exact Hno|]. split.
  - intros H. apply Hgone in H. simpl in H. destruct H as [_ H]. apply H. reflexivity.
  - apply Hkept; [right; left; reflexivity|simpl; lia].
Defined.

Lemma do_trunc_terminates_witness :
  do_trunc_loop 100 4 two_extents = Some (do_trunc_extents 4 two_extents) /\
  lookup 4 (do_trunc_extents 4 two_extents) = None.
Proof.
  destruct (do_trunc_terminates 4 two_extents two_extents_wf) as (Hfuel & _ & Hend).
  split; [|exact Hend]. apply Hfuel. unfold trunc_fuel. simpl. lia.
Defined.

Lemma do_trunc_drops_beyond_witness :
  Forall (fun a => fst a < 4) (do_trunc_extents 4 two_extents).
Proof.
  apply List.Forall_forall. intros a Ha.
  apply (do_trunc_drops_beyond 4 two_extents a two_extents_wf Ha).
Defined.

Lemma do_trunc_empties_witness : do_trunc_extents 0 two_extents = [].
Proof.
  apply (do_trunc_empties 0 two_extents).
  - apply two_extents_wf.
  - intros a [<-|[<-|[]]]; simpl; lia.
Defined.

Lemma do_trunc_within_witness :
  non_overlap (do_trunc_extents 4 two_extents) /\
  forall k v, In (k, v) (do_trunc_extents 4 two_extents) -> k + len v <= 4.
Proof.
  apply (do_trunc_within 4 two_extents).
  - apply two_extents_wf.
  - apply two_extents_non_overlap.
  - left. simpl. discriminate.
Defined.

Lemma do_trunc_keeps_data_witness :
  backs (do_trunc_extents 4 two_extents) 2 1 2.
Proof.
  apply (do_trunc_keeps_data 4 two_extents 2 1 2).
  - apply two_extents_wf.
  - apply two_extents_non_overlap.
  - apply two_extents_offsets_ok.
  - lia.
  - exists 0, (mk_extent 1 0 8). split; [left; reflexivity|]. simpl. lia.
Defined.

Lemma inums_fit_mounted : inums_fit mounted.
Proof.
  unfold inums_fit.
  replace (inode_map mounted)
    with (<[1 := fs_directory (mk_inode 1 (Z.lor S_IFDIR 484) 0 0 0 0 (mk_timespec 0 0)) ∅]>
            (∅ : gmap Z fs_obj)) by (vm_compute; reflexivity).
  apply map_Forall_insert_2; [apply map_Forall_empty|apply map_Forall_empty].
Qed.

Ltac map_forall_by_list :=
  apply map_Forall_to_list;
  match goal with
  | |- Forall _ ?l =>
      let l' := eval vm_compute in l in
      replace l with l' by (vm_compute; reflexivity)
  end.

Lemma inums_fit_created_x : inums_fit created_x.
Proof.
  unfold inums_fit. map_forall_by_list.
  repeat (apply List.Forall_cons;
          [simpl; try exact I; map_forall_by_list;
           repeat (apply List.Forall_cons; [simpl; lia|]); apply List.Forall_nil|]).
  apply List.Forall_nil.
Qed.

Lemma replay_trunc_rejects_witness :
  let oh := header_for 2 [LOG_NULL; LOG_TRUNC 2 9] in
  read_hdr 2 oh ([LOG_NULL] ++ LOG_TRUNC 2 9 :: []) 36 remounted
    = (Ret bad_format, remounted) /\
  read_hdr 2 oh ([LOG_NULL] ++ LOG_TRUNC 1 1 :: []) 36 remounted
    = (Ret bad_format, remounted) /\
  read_hdr 2 oh ([LOG_NULL] ++ LOG_TRUNC 7 0 :: []) 36 remounted
    = (Ret bad_format, remounted).
Proof.
  assert (Havail : usize (h_hdr_len (header_for 2 [LOG_NULL; LOG_TRUNC 2 9])) <= 36)
    by (vm_compute; intros H; discriminate H).
  assert (Hpre : read_records 2 [LOG_NULL] remounted = (Ret 0, remounted))
    by reflexivity.
  cbv zeta. split; [|split].
  - apply (replay_trunc_rejects 2 _ [LOG_NULL] [] 36 remounted remounted 2 9
             Havail eq_refl eq_refl eq_refl Hpre).
    right. exists (fs_file file_a [(0, mk_extent 1 0 8)]).
    split; [vm_compute; reflexivity|simpl; lia].
  - apply (replay_trunc_rejects 2 _ [LOG_NULL] [] 36 remounted remounted 1 1
             Havail eq_refl eq_refl eq_refl Hpre).
    right. destruct (inode_map remounted !! 1) as [obj|] eqn:E.
    + exists obj. split; [reflexivity|].
      vm_compute in E. injection E as <-. simpl. lia.
    + vm_compute in E. discriminate E.
  - apply (replay_trunc_rejects 2 _ [LOG_NULL] [] 36 remounted remounted 7 0
             Havail eq_refl eq_refl eq_refl Hpre).
    left. vm_compute. reflexivity.
Defined.

Lemma gapped_file :
  inode_map gapped !! 2
    = Some (fs_file (mk_inode 2 (Z.lor S_IFREG 420) 1000 1000 0 16
                       (mk_timespec 1700000000 0))
              [(0, mk_extent 1 0 8); (12, mk_extent 2 0 4)]).
Proof. vm_compute. reflexivity. Qed.

Lemma gapped_extents :
  let m := [(0, mk_extent 1 0 8); (12, mk_extent 2 0 4)] in
  well_formed m /\ non_overlap m /\ offsets_ok m /\ lower_bound 4 m <> None.
Proof.
  cbv zeta. split; [split; repeat constructor; simpl; lia|]. split; [|split].
  - intros k1 e1 k2 e2 [H1|[H1|[]]] [H2|[H2|[]]] Hlt;
      injection H1 as <- <-; injection H2 as <- <-; simpl; lia.
  - intros k v [H|[H|[]]]; injection H as <- <-; simpl; lia.
  - simpl. discriminate.
Qed.

Lemma replay_trunc_truncates_witness :
  exists extents',
    read_hdr 2 (header_for 2 [LOG_DATA 2 0 12 16 4; LOG_TRUNC 2 4])
      ([LOG_DATA 2 0 12 16 4] ++ LOG_TRUNC 2 4 :: []) 64 remounted
      = (Ret 0,
         put_inode 2
           (fs_file (mk_inode 2 (Z.lor S_IFREG 420) 1000 1000 0 4
                       (mk_timespec 1700000000 0)) extents') gapped) /\
    (forall k v, In (k, v) extents' -> k + len v <= 4) /\
    backs extents' 3 1 3.
Proof.
  destruct gapped_extents as (Hwf & Hno & Hoff & Hlb).
  assert (Havail : usize (h_hdr_len (header_for 2 [LOG_DATA 2 0 12 16 4; LOG_TRUNC 2 4]))
                   <= 64)
    by (vm_compute; intros H; discriminate H).
  assert (Hpre : read_records 2 [LOG_DATA 2 0 12 16 4] remounted = (Ret 0, gapped))
    by (vm_compute; reflexivity).
  destruct (replay_trunc_truncates 2 _ [LOG_DATA 2 0 12 16 4] [] 64 remounted gapped
              2 4 _ _ Havail eq_refl eq_refl eq_refl Hpre gapped_file
              ltac:(simpl; lia) Hwf Hno Hoff (or_introl Hlb))
    as (extents' & Hrun & _ & Hin & Hbacks).
  exists extents'. split; [exact Hrun|]. split; [exact Hin|].
  apply Hbacks; [lia|].
  exists 0, (mk_extent 1 0 8). split; [left; reflexivity|]. simpl. lia.
Defined.

Lemma fs_truncate_truncates_witness :
  exists s' extents',
    fs_truncate en0 "/a" 4 gapped = (Ret 0, s') /\
    inode_map s' !! 2
      = Some (fs_file (mk_inode 2 (Z.lor S_IFREG 420) 1000 1000 0 4
                         (mk_timespec 1700000000 0)) extents') /\
    (forall k v, In (k, v) extents' -> k + len v <= 4) /\
    backs extents' 3 1 3.
Proof.
  destruct gapped_extents as (Hwf & Hno & Hoff & Hlb).
  assert (H0 : path_2_inum "/a" gapped = 2) by (vm_compute; reflexivity).
  assert (H1 : 0 <= path_2_inum "/a" gapped) by (rewrite H0; lia).
  assert (H2 : inode_map gapped !! u32 (path_2_inum "/a" gapped)
               = Some (fs_file (mk_inode 2 (Z.lor S_IFREG 420) 1000 1000 0 16
                                  (mk_timespec 1700000000 0))
                         [(0, mk_extent 1 0 8); (12, mk_extent 2 0 4)]))
    by (rewrite H0; exact gapped_file).
  destruct (fs_truncate_truncates en0 "/a" 4 gapped _ _ H1 H2 Hwf Hno Hoff (or_introl Hlb))
    as (r & s' & extents' & Hrun & Hr & Hk & _ & Hin & Hbacks & _).
  rewrite H0 in Hk. change (u32 2) with 2 in Hk.
  destruct Hr as [->|[Hput _]]; [|discriminate Hput].
  exists s', extents'. split; [exact Hrun|]. split; [exact Hk|]. split; [exact Hin|].
  apply Hbacks; [lia|].
  exists 0, (mk_extent 1 0 8). split; [left; reflexivity|]. simpl. lia.
Defined.

Lemma remounted_a :
  path_2_inum "/a" remounted = 2 /\
  inode_map remounted !! 2 = Some (fs_file file_a [(0, mk_extent 1 0 8)]).
Proof. split; vm_compute; reflexivity. Qed.

Lemma fs_utimens_explicit_witness :
  (exists s',
     fs_utimens en0 "/a" (Some (mk_timespec 1 1, mk_timespec 5 0)) remounted = (Ret 0, s') /\
     inode_map s' !! 2
       = Some (fs_file (mk_inode 2 (Z.lor S_IFREG 420) 1000 1000 0 8 (mk_timespec 5 0))
                 [(0, mk_extent 1 0 8)])) /\
  (exists s',
     fs_utimens en0 "/a" (Some (mk_timespec 1 1, mk_timespec 5 UTIME_OMIT)) remounted
       = (Ret 0, s') /\
     inode_map s' !! 2 = Some (fs_file file_a [(0, mk_extent 1 0 8)])).
Proof.
  destruct remounted_a as [H0 Hobj].
  assert (H1 : 0 <= path_2_inum "/a" remounted) by (rewrite H0; lia).
  assert (H2 : inode_map remounted !! u32 (path_2_inum "/a" remounted)
               = Some (fs_file file_a [(0, mk_extent 1 0 8)]))
    by (rewrite H0; exact Hobj).
  split.
  - destruct (fs_utimens_explicit en0 "/a" remounted _ (mk_timespec 1 1) (mk_timespec 5 0)
                H1 H2 ltac:(simpl; discriminate))
      as (r & s' & Hrun & Hr & Hk & _).
    rewrite H0 in Hk. change (u32 2) with 2 in Hk.
    destruct Hr as [->|[Hput _]]; [|discriminate Hput].
    exists s'. split; [exact Hrun|exact Hk].
  - destruct (fs_utimens_explicit en0 "/a" remounted _ (mk_timespec 1 1)
                (mk_timespec 5 UTIME_OMIT) H1 H2 ltac:(simpl; discriminate))
      as (r & s' & Hrun & Hr & Hk & _).
    rewrite H0 in Hk. change (u32 2) with 2 in Hk.
    destruct Hr as [->|[Hput _]]; [|discriminate Hput].
    exists s'. split; [exact Hrun|exact Hk].
Defined.

Lemma fs_chmod_keeps_type_witness :
  exists s' obj',
    fs_chmod en0 "/a" 384 remounted = (Ret 0, s') /\
    inode_map s' !! 2 = Some obj' /\
    type obj' = OBJ_FILE /\
    Z.land (mode (hdr obj')) S_IFMT = S_IFREG /\
    Z.land (mode (hdr obj')) 4095 = 384.
Proof.
  destruct remounted_a as [H0 Hobj].
  assert (H1 : 0 <= path_2_inum "/a" remounted) by (rewrite H0; lia).
  assert (H2 : inode_map remounted !! u32 (path_2_inum "/a" remounted)
               = Some (fs_file file_a [(0, mk_extent 1 0 8)]))
    by (rewrite H0; exact Hobj).
  destruct (fs_chmod_keeps_type en0 "/a" 384 remounted _ H1 H2 eq_refl)
    as (r & s' & obj' & Hrun & Hr & Hk & Hty & Hfmt & Hperm & _).
  rewrite H0 in Hk. change (u32 2) with 2 in Hk.
  destruct Hr as [->|[Hput _]]; [|discriminate Hput].
  exists s', obj'. split; [exact Hrun|]. split; [exact Hk|].
  split; [exact Hty|]. split; [exact Hfmt|exact Hperm].
Defined.

Lemma fs_getattr_reports_witness :
  fs_getattr "/nowhere" remounted = (Ret (- ENOENT), None) /\
  exists st,
    fs_getattr "/a" remounted = (Ret 0, Some st) /\
    st_ino st = 2 /\ st_size st = 8 /\ st_blocks st = 1 /\
    st_mtim st = mk_timespec 1700000000 0.
Proof.
  destruct remounted_a as [H0 Hobj].
  split.
  - apply (proj1 (fs_getattr_reports "/nowhere" remounted)).
    vm_compute. reflexivity.
  - assert (H1 : 0 <= path_2_inum "/a" remounted) by (rewrite H0; lia).
    assert (H2 : inode_map remounted !! u32 (path_2_inum "/a" remounted)
                 = Some (fs_file file_a [(0, mk_extent 1 0 8)]))
      by (rewrite H0; exact Hobj).
    destruct (proj2 (fs_getattr_reports "/a" remounted) _ H1 H2 ltac:(simpl; lia))
      as (st & Hrun & Hino & _ & _ & _ & _ & Hsize & Hm & _ & _ & Hblocks).
    exists st. split; [exact Hrun|]. split; [exact Hino|]. split; [exact Hsize|].
    split; [simpl in Hblocks; lia|exact Hm].
Defined.

Lemma split_tokens_witness :
  split "/d1//x/" "/" = ["d1"; "x"] /\
  Forall (fun t => t <> EmptyString /\ ~ In "/"%char (list_ascii_of_string t))
         (split "/d1//x/" "/").
Proof. split; [reflexivity|apply (split_tokens "/d1//x/" "/"%char)]. Defined.

Lemma path_2_inum_concat_witness :
  path_2_inum ("/d1" +:+ String "/" "x") created_x = 4 /\
  path_2_inum ("/d1" +:+ String "/" "x") created_x
    = walk (path_2_inum "/d1" created_x) (split "x" "/") created_x.
Proof.
  assert (H1 : 0 <= path_2_inum "/d1" created_x) by (vm_compute; discriminate).
  destruct (path_2_inum_concat created_x "/d1" "x" inums_fit_created_x H1) as [_ H].
  split; [|exact H]. vm_compute. reflexivity.
Defined.

Lemma mounted_root :
  inode_map mounted !! 1
    = Some (fs_directory (mk_inode 1 (Z.lor S_IFDIR 484) 0 0 0 0 (mk_timespec 0 0)) ∅) /\
  next_inode mounted = 2 /\ inode_map mounted !! 2 = None.
Proof. repeat split; vm_compute; reflexivity. Qed.

Lemma create_node_then_resolves_witness :
  exists s',
    create_node en0 "/a" (Z.lor 420 S_IFREG) OBJ_FILE 0 mounted = (Ret 0, s') /\
    path_2_inum "/a" s' = 2 /\ next_inode s' = 3 /\
    fs_getattr "/a" s'
      = (Ret 0, Some (mk_stat 2 (Z.lor 420 S_IFREG) 1 1000 1000 0 0
                        (mk_timespec 1700000000 0) (mk_timespec 1700000000 0)
                        (mk_timespec 1700000000 0))).
Proof.
  destruct mounted_root as (Hroot & Hnext & Hfresh).
  destruct (create_node_then_resolves en0 "/a" (Z.lor 420 S_IFREG) OBJ_FILE 0 mounted
              (- ENOENT) 1 "a" (mk_inode 1 (Z.lor S_IFDIR 484) 0 0 0 0 (mk_timespec 0 0)) ∅
              inums_fit_mounted)
    as (r & s' & o & Hrun & Hr & Hres & Hn & _ & _ & _ & _ & Hattr).
  - rewrite Hnext. lia.
  - rewrite Hnext. exact Hfresh.
  - vm_compute. reflexivity.
  - vm_compute. reflexivity.
  - lia.
  - exact Hroot.
  - rewrite Hnext in Hres, Hn, Hattr.
    destruct Hr as [->|[Hput _]]; [|discriminate Hput].
    exists s'. split; [exact Hrun|]. split; [exact Hres|]. split; [exact Hn|exact Hattr].
Defined.







